(** * gen_enum_to_str.py: the Vulkan enum-to-string generator

    A shallow embedding of [src/vulkan/util/gen_enum_to_str.py] and the
    properties of its resolution engine: value resolution of enum
    constants ([VkEnum.add_value]), canonical names, alias flushing, the
    all-bits mask, the sentinel name, and the shape of [parse_xml] and
    [main].

    Python integers are unbounded: they are [Z].  Python [str] is modelled
    by [string]; identifiers of the registry are ASCII (they are C
    identifiers), where [len] is the byte length and [upper] acts on
    [a-z] only.  Dictionaries that are only looked up, updated and deleted
    by key, or whose keys are sorted before they are listed, are [gmap]s;
    the one dictionary that is listed as it stands, [name_to_value], has
    its keys kept in the order of their first insertion.  An exception is
    a [Raise] result. *)

From Stdlib Require Import ZArith Ascii String List Sorting.Sorted Permutation.
From stdpp Require Import gmap strings list fin_maps sorting pretty.

Local Open Scope Z_scope.

(** ** Exceptions and results *)

Inductive exn : Type :=
| AssertionError
| KeyError
| TypeError
| ValueError
| AttributeError
| RecursionError
| IndexError
| ParseError
| OSError.

Inductive result (A : Type) : Type :=
| Ok (a : A)
| Raise (x : exn).

Arguments Ok {A} a.
Arguments Raise {A} x.

Definition bind {A B : Type} (r : result A) (k : A -> result B) : result B :=
  match r with
  | Ok a => k a
  | Raise x => Raise x
  end.

Notation "x <- r ;; k" := (bind r (fun x => k))
  (at level 100, r at next level, right associativity).

(** A Python [for] loop whose body may raise: the state is threaded
    through the iterations, the first exception stops the loop. *)
Fixpoint for_each {S A : Type} (body : S -> A -> result S) (s : S) (l : list A)
  : result S :=
  match l with
  | [] => Ok s
  | a :: l' => s' <- body s a ;; for_each body s' l'
  end.

(** ** String helpers of the Python standard library *)

Definition is_upper (c : ascii) : bool :=
  let n := nat_of_ascii c in (65 <=? n)%nat && (n <=? 90)%nat.

Definition is_lower (c : ascii) : bool :=
  let n := nat_of_ascii c in (97 <=? n)%nat && (n <=? 122)%nat.

Definition upper_char (c : ascii) : ascii :=
  if is_lower c then ascii_of_nat (nat_of_ascii c - 32) else c.

(** [str.upper()] *)
Fixpoint upper (s : string) : string :=
  match s with
  | EmptyString => EmptyString
  | String c s' => String (upper_char c) (upper s')
  end.

(** [re.sub(r'(?<![A-Z])([A-Z])', r'_\1', t)]: every capital of [t] that
    has no capital just before it in [t] is prefixed by an underscore.
    [prev] tells whether the character before the current position, in
    the subject string, is a capital; at the start of the subject there is
    none and the negative lookbehind holds. *)
Fixpoint re_sub_caps (prev : bool) (t : string) : string :=
  match t with
  | EmptyString => EmptyString
  | String c t' =>
      if is_upper c && negb prev
      then String "_" (String c (re_sub_caps true t'))
      else String c (re_sub_caps (is_upper c) t')
  end.

(** [s[:1]] and [s[1:]] *)
Definition slice_to_1 (s : string) : string :=
  match s with
  | EmptyString => EmptyString
  | String c _ => String c EmptyString
  end.

Definition slice_from_1 (s : string) : string :=
  match s with
  | EmptyString => EmptyString
  | String _ s' => s'
  end.

(** [s.split('_')]: never empty. *)
Fixpoint split_underscore (s : string) : list string :=
  match s with
  | EmptyString => [EmptyString]
  | String c s' =>
      if Ascii.eqb c "_" then EmptyString :: split_underscore s'
      else match split_underscore s' with
           | [] => [String c EmptyString]
           | seg :: segs => String c seg :: segs
           end
  end.

(** ["_".join(l)] *)
Fixpoint join_underscore (l : list string) : string :=
  match l with
  | [] => EmptyString
  | [seg] => seg
  | seg :: l' => seg +:+ "_" +:+ join_underscore l'
  end.

(** [s.rsplit('_', 1)]: at most one split, at the last underscore. *)
Definition rsplit_underscore_1 (s : string) : list string :=
  match split_underscore s with
  | [] => [s]
  | [seg] => [seg]
  | segs => [join_underscore (removelast segs); List.last segs EmptyString]
  end.

(** ** CamelCase_to_SHOUT_CASE and compute_max_enum_name *)

Definition CamelCase_to_SHOUT_CASE (s : string) : string :=
  upper (slice_to_1 s +:+ re_sub_caps false (slice_from_1 s)).

Definition vendor_tags : list string :=
  ["AMD"; "EXT"; "INTEL"; "KHR"; "NV"; "LUNARG"].

Definition compute_max_enum_name (s : string) : string :=
  let max_enum_name := CamelCase_to_SHOUT_CASE s in
  let last_prefix := List.last (rsplit_underscore_1 max_enum_name) EmptyString in
  if bool_decide (last_prefix ∈ vendor_tags) then
    let max_enum_name := join_underscore (removelast (split_underscore max_enum_name)) in
    max_enum_name +:+ "_MAX_ENUM_" +:+ last_prefix
  else
    max_enum_name +:+ "_MAX_ENUM".

(** ** xml.etree.ElementTree

    An element has a tag, attributes, a text and children.  [findall]
    is given for the paths the generator uses: a sequence of child steps,
    each with an optional attribute predicate, read from the element the
    search starts at; the matches come in document order. *)

#[warnings="-register-all"]
Inductive Element : Type :=
| Elem (tag : string) (attrib : gmap string string) (text : option string)
       (children : list Element).

Definition tag (e : Element) : string := let 'Elem t _ _ _ := e in t.
Definition attrib (e : Element) : gmap string string := let 'Elem _ a _ _ := e in a.
Definition text (e : Element) : option string := let 'Elem _ _ x _ := e in x.
Definition children (e : Element) : list Element := let 'Elem _ _ _ c := e in c.

Inductive predicate : Type :=
| Any                                   (* tag *)
| HasAttr (k : string)                  (* tag[@k] *)
| AttrEq (k v : string).                (* tag[@k="v"] *)

Definition step : Type := string * predicate.

Definition matches (st : step) (e : Element) : bool :=
  bool_decide (tag e = st.1) &&
  match st.2 with
  | Any => true
  | HasAttr k => bool_decide (is_Some (attrib e !! k))
  | AttrEq k v => bool_decide (attrib e !! k = Some v)
  end.

Fixpoint findall_from (path : list step) (es : list Element) : list Element :=
  match path with
  | [] => es
  | st :: path' =>
      findall_from path' (flat_map (fun e => List.filter (matches st) (children e)) es)
  end.

Definition findall (path : list step) (e : Element) : list Element :=
  findall_from path [e].

(** [elem.attrib[k]] *)
Definition attrib_item (e : Element) (k : string) : result string :=
  match attrib e !! k with
  | Some v => Ok v
  | None => Raise KeyError
  end.

(** [k in elem.attrib] *)
Definition attrib_has (e : Element) (k : string) : bool :=
  bool_decide (is_Some (attrib e !! k)).

(** ** VkExtension *)

Module VkExtension.
Record t : Type := mk {
  name : string;
  number : option Z;
  define : option string
}.
End VkExtension.

(** ** VkEnum *)

Module VkEnum.

Record t : Type := mk {
  name : string;
  max_enum_name : string;
  bitwidth : Z;
  extension : option VkExtension.t;
  values : gmap Z string;                       (* numbers to names *)
  name_to_value : gmap string Z;
  name_order : list string;         (* the keys of name_to_value, as inserted *)
  guard : option string;
  name_to_alias_list : gmap string (list string)
}.

(** [VkEnum.__init__(name, bitwidth=32, values=None)] *)
Definition init (name : string) (bitwidth : Z) (values : option (gmap Z string)) : t :=
  mk name (compute_max_enum_name name) bitwidth None (default ∅ values) ∅ [] None ∅.

Definition set_values (self : t) (m : gmap Z string) : t :=
  mk (name self) (max_enum_name self) (bitwidth self) (extension self)
     m (name_to_value self) (name_order self) (guard self) (name_to_alias_list self).

(** [self.name_to_value[key] = value]: a key that is new comes last in the
    order of the dictionary, a key that is there keeps its place. *)
Definition set_name_to_value (self : t) (key : string) (value : Z) : t :=
  mk (name self) (max_enum_name self) (bitwidth self) (extension self)
     (values self) (<[key := value]> (name_to_value self))
     (match name_to_value self !! key with
      | Some _ => name_order self
      | None => name_order self ++ [key]
      end)
     (guard self) (name_to_alias_list self).

Definition set_name_to_alias_list (self : t) (m : gmap string (list string)) : t :=
  mk (name self) (max_enum_name self) (bitwidth self) (extension self)
     (values self) (name_to_value self) (name_order self) (guard self) m.

Definition set_extension (self : t) (x : option VkExtension.t) : t :=
  mk (name self) (max_enum_name self) (bitwidth self) x
     (values self) (name_to_value self) (name_order self) (guard self)
     (name_to_alias_list self).

(** [set_guard] *)
Definition set_guard (self : t) (g : string) : t :=
  mk (name self) (max_enum_name self) (bitwidth self) (extension self)
     (values self) (name_to_value self) (name_order self) (Some g)
     (name_to_alias_list self).

(** [all_bits_value]: [functools.reduce(lambda a,b: a | b, self.values.keys(), 0)] *)
Definition all_bits_value (self : t) : Z :=
  map_fold (fun (b : Z) (_ : string) (a : Z) => Z.lor a b) 0 (values self).

(** [re.search(r'FlagBits[A-Z]*$', s)]: ["FlagBits"] occurs in [s] and only
    capitals follow it up to the end, where [$] also stands before a final
    newline. *)
Fixpoint capitals_to_end (s : string) : bool :=
  match s with
  | EmptyString => true
  | String c s' =>
      if is_upper c then capitals_to_end s'
      else Ascii.eqb c "010" && bool_decide (s' = EmptyString)
  end.

Fixpoint drop_chars (n : nat) (s : string) : string :=
  match n, s with
  | O, _ => s
  | S n', String _ s' => drop_chars n' s'
  | S _, EmptyString => EmptyString
  end.

Fixpoint search_FlagBits (s : string) : bool :=
  (String.prefix "FlagBits" s && capitals_to_end (drop_chars 8 s)) ||
  match s with
  | EmptyString => false
  | String _ s' => search_FlagBits s'
  end.

(** [all_bits_name] *)
Definition all_bits_name (self : t) : result string :=
  if negb (String.prefix "Vk" (name self)) then Raise AssertionError
  else if negb (search_FlagBits (name self)) then Raise AssertionError
  else Ok ("VK_ALL_" +:+ CamelCase_to_SHOUT_CASE (drop_chars 2 (name self))).

(** Lines 298-300: the alias is not known yet; record it under its base. *)
Definition defer_alias (self : t) (alias name : string) : t :=
  let alias_list := default [] (name_to_alias_list self !! alias) in
  set_name_to_alias_list self
    (<[alias := alias_list ++ [name]]> (name_to_alias_list self)).

(** Lines 305-309: the value of a constant that is not an alias. *)
Definition extension_value (extnum offset : Z) (error : bool) : Z :=
  let value := 1000000000 + (extnum - 1) * 1000 + offset in
  if error then - value else value.

Definition compute_value (value extnum offset : option Z) (error : bool)
  : result Z :=
  match value, extnum with
  | None, None => Raise AssertionError
  | Some value, _ => Ok value
  | None, Some extnum =>
      match offset with
      | None => Raise TypeError
      | Some offset => Ok (extension_value extnum offset error)
      end
  end.

(** Lines 311-315: the pair is recorded and the canonical name of the
    value chosen again. *)
Definition record_value (self : t) (name : string) (value : Z) : t :=
  let self := set_name_to_value self name value in
  match values self !! value with
  | None => set_values self (<[value := name]> (values self))
  | Some old =>
      if (String.length name <? String.length old)%nat
      then set_values self (<[value := name]> (values self))
      else self
  end.

(** Line 321: [del self.name_to_alias_list[name]] *)
Definition del_alias_list (self : t) (name : string) : result t :=
  match name_to_alias_list self !! name with
  | None => Raise KeyError
  | Some _ =>
      Ok (set_name_to_alias_list self (delete name (name_to_alias_list self)))
  end.

(** [add_value].  The recursion of line 320 is bounded by [fuel]; running
    out of it is Python's [RecursionError]. *)
Fixpoint add_value (fuel : nat) (self : t) (name : string)
    (value extnum offset : option Z) (alias : option string) (error : bool)
  : result t :=
  match fuel with
  | O => Raise RecursionError
  | S fuel =>
      let resolved (self : t) (value : option Z) : result t :=
        value <- compute_value value extnum offset error ;;
        let self := record_value self name value in
        match name_to_alias_list self !! name with
        | None => Ok self
        | Some alias_list =>
            self <- for_each
                      (fun self alias =>
                         add_value fuel self alias (Some value) None None None false)
                      self alias_list ;;
            del_alias_list self name
        end in
      match alias with
      | Some alias =>
          if negb (bool_decide (value = None) && bool_decide (offset = None))
          then Raise AssertionError
          else match name_to_value self !! alias with
               | None => Ok (defer_alias self alias name)
               | Some v => resolved self (Some v)
               end
      | None => resolved self value
      end
  end.

End VkEnum.


(** ** VkChainStruct, VkObjectType *)

Module VkChainStruct.
Record t : Type := mk {
  name : string;
  stype : string;
  extension : option VkExtension.t
}.

Definition set_extension (self : t) (x : VkExtension.t) : t :=
  mk (name self) (stype self) (Some x).
End VkChainStruct.

Module VkObjectType.
Record t : Type := mk {
  name : string;
  enum_to_name : gmap Z (option string)
}.

Definition init (name : string) : t := mk name ∅.
End VkObjectType.

(** [struct_get_stype] *)
Fixpoint struct_get_stype_members (members : list Element) : option string :=
  match members with
  | [] => None
  | member :: members' =>
      match findall [("name", Any)] member with
      | name0 :: _ =>
          if bool_decide (text name0 = Some "sType")
          then attrib member !! "values"
          else struct_get_stype_members members'
      | [] => struct_get_stype_members members'
      end
  end.

Definition struct_get_stype (xml_node : Element) : option string :=
  struct_get_stype_members (findall [("member", Any)] xml_node).

(** ** NamedFactory

    One registry per kind of entity; the five factories of [main] are the
    fields of [factories].  [factory_call] is [__call__]: the entry of that
    name, made on first use. *)

Definition factory_call {T : Type} (registry : gmap string T) (name : string)
    (make : T) : gmap string T * T :=
  match registry !! name with
  | Some n => (registry, n)
  | None => (<[name := make]> registry, make)
  end.

Record factories : Type := mk_factories {
  enum_factory : gmap string VkEnum.t;
  ext_factory : gmap string VkExtension.t;
  struct_factory : gmap string VkChainStruct.t;
  bitmask_factory : gmap string VkEnum.t;
  obj_type_factory : gmap string VkObjectType.t
}.

Definition no_factories : factories := mk_factories ∅ ∅ ∅ ∅ ∅.

Definition set_enum_factory (f : factories) (r : gmap string VkEnum.t) : factories :=
  mk_factories r (ext_factory f) (struct_factory f) (bitmask_factory f)
               (obj_type_factory f).

Definition set_ext_factory (f : factories) (r : gmap string VkExtension.t) : factories :=
  mk_factories (enum_factory f) r (struct_factory f) (bitmask_factory f)
               (obj_type_factory f).

Definition set_struct_factory (f : factories) (r : gmap string VkChainStruct.t) : factories :=
  mk_factories (enum_factory f) (ext_factory f) r (bitmask_factory f)
               (obj_type_factory f).

Definition set_bitmask_factory (f : factories) (r : gmap string VkEnum.t) : factories :=
  mk_factories (enum_factory f) (ext_factory f) (struct_factory f) r
               (obj_type_factory f).

Definition set_obj_type_factory (f : factories) (r : gmap string VkObjectType.t) : factories :=
  mk_factories (enum_factory f) (ext_factory f) (struct_factory f)
               (bitmask_factory f) r.

(** [registry.values()] *)
Definition registry_values {T : Type} (registry : gmap string T) : list T :=
  (map_to_list registry).*2.

(** [os.path.join(a, b)] for a relative [b] *)
Fixpoint ends_with_slash (a : string) : bool :=
  match a with
  | EmptyString => false
  | String c EmptyString => Ascii.eqb c "/"
  | String _ a' => ends_with_slash a'
  end.

Definition path_join (a b : string) : string :=
  if bool_decide (a = EmptyString) then b
  else if ends_with_slash a then a +:+ b
  else a +:+ "/" +:+ b.

(** [sorted(l)] on integers and [sorted(l, key=...)] in general: insertion
    keeps equal keys in their first order. *)
Fixpoint insert_sorted {T : Type} (leb : T -> T -> bool) (x : T) (l : list T) : list T :=
  match l with
  | [] => [x]
  | y :: l' => if leb x y then x :: y :: l' else y :: insert_sorted leb x l'
  end.

Definition sorted {T : Type} (leb : T -> T -> bool) (l : list T) : list T :=
  foldr (insert_sorted leb) [] l.

(** [sorted(l, key=lambda e: e.name)]: strings are compared character by
    character. *)
Definition sorted_by_name {T : Type} (key : T -> string) (l : list T) : list T :=
  sorted (fun x y => String.leb (key x) (key y)) l.

(** Truth value of an optional string: [None] and [""] are false. *)
Definition truthy (o : option string) : bool :=
  match o with
  | Some s => negb (bool_decide (s = EmptyString))
  | None => false
  end.

(** ** The generated artifacts

    The templates are rendered to the items they emit, in order; the fixed
    text around them (banner, includes, braces) is not part of the model.
    An integer printed with [hex] or in decimal is kept as the integer. *)

Record to_str_function : Type := mk_to_str_function {
  fn_guard : option string;               (* #ifdef around the function *)
  fn_suffix : string;                     (* vk_<suffix>_to_str *)
  fn_type : string;                       (* the parameter type *)
  fn_cases : list (Z * string);           (* case v: return "name"; *)
  fn_max_enum : string                    (* the sentinel case *)
}.

Record size_case : Type := mk_size_case {
  sc_guard : option string;
  sc_stype : string;
  sc_name : string
}.

Record c_artifact : Type := mk_c_artifact {
  c_functions : list to_str_function;
  c_struct_sizes : list size_case;
  c_object_names : list (Z * option string)
}.

Record all_bits_define : Type := mk_all_bits_define {
  ab_guard : option string;
  ab_name : string;
  ab_value : Z
}.

Record redefinition : Type := mk_redefinition {
  rd_enum : string;
  rd_guard : option string;
  rd_values : list (string * Z)
}.

Record defines_artifact : Type := mk_defines_artifact {
  d_ext_numbers : list (string * option Z);
  d_all_bits : list all_bits_define;
  d_redefinitions : list redefinition
}.

Inductive artifact : Type :=
| C_file (a : c_artifact)
| H_file (prototypes : list (option string * string * string))
| Defines_file (a : defines_artifact).

(** What a path holds after [open(path, 'w')]: nothing yet; the rendered
    text once [write] has run and the file is closed; or, when the write
    or the close raised, some part of that text, nobody knows which. *)
Inductive file : Type :=
| Truncated
| Partial (a : artifact)
| Written (a : artifact).

Definition guard_of (o : option string) : option string :=
  if truthy o then o else None.

(** [C_TEMPLATE], lines 67-89: one function per enum. *)
Definition render_to_str_function (enum : VkEnum.t) : to_str_function :=
  mk_to_str_function
    (guard_of (VkEnum.guard enum))
    (VkEnum.drop_chars 2 (VkEnum.name enum))
    (VkEnum.name enum)
    (omap (fun v => (fun n => (v, n)) <$> (VkEnum.values enum !! v))
          (sorted Z.leb (map_to_list (VkEnum.values enum)).*1))
    (VkEnum.max_enum_name enum).

(** [C_TEMPLATE], lines 94-102: one size case per struct. *)
Definition render_size_case (struct : VkChainStruct.t) : size_case :=
  mk_size_case
    (match VkChainStruct.extension struct with
     | Some x => VkExtension.define x
     | None => None
     end)
    (VkChainStruct.stype struct)
    (VkChainStruct.name struct).

(** [C_TEMPLATE], lines 114-117: the names of [object_types[0]]. *)
Definition render_object_names (object_types : list VkObjectType.t)
  : result (list (Z * option string)) :=
  match object_types with
  | [] => Raise IndexError
  | o :: _ =>
      Ok (omap (fun v => (fun n => (v, n)) <$> (VkObjectType.enum_to_name o !! v))
               (sorted Z.leb (map_to_list (VkObjectType.enum_to_name o)).*1))
  end.

Definition render_C_TEMPLATE (enums : list VkEnum.t) (structs : list VkChainStruct.t)
    (object_types : list VkObjectType.t) : result artifact :=
  names <- render_object_names object_types ;;
  Ok (C_file (mk_c_artifact (map render_to_str_function enums)
                            (map render_size_case structs) names)).

(** [H_TEMPLATE], lines 141-149. *)
Definition render_H_TEMPLATE (enums : list VkEnum.t) : result artifact :=
  Ok (H_file (map (fun enum => (guard_of (VkEnum.guard enum),
                                 VkEnum.drop_chars 2 (VkEnum.name enum),
                                 VkEnum.name enum)) enums)).

(** [H_DEFINE_TEMPLATE], lines 183-194: the all-bits constants of the
    bitmasks of at most 32 bits. *)
Fixpoint render_all_bits (bitmasks : list VkEnum.t) : result (list all_bits_define) :=
  match bitmasks with
  | [] => Ok []
  | enum :: bitmasks' =>
      if (32 <? VkEnum.bitwidth enum) then render_all_bits bitmasks'
      else
        n <- VkEnum.all_bits_name enum ;;
        rest <- render_all_bits bitmasks' ;;
        Ok (mk_all_bits_define (guard_of (VkEnum.guard enum)) n
                               (VkEnum.all_bits_value enum) :: rest)
  end.

(** [enum.name_to_value.items()]: the pairs in the order of the keys. *)
Definition name_to_value_items (enum : VkEnum.t) : list (string * Z) :=
  omap (fun n => (fun v => (n, v)) <$> (VkEnum.name_to_value enum !! n))
       (VkEnum.name_order enum).

(** [H_DEFINE_TEMPLATE], lines 196-210: the 64-bit bitmasks are given
    again, name by name, in the order of [name_to_value]. *)
Definition render_redefinitions (bitmasks : list VkEnum.t) : list redefinition :=
  map (fun enum => mk_redefinition (VkEnum.name enum) (guard_of (VkEnum.guard enum))
                     (name_to_value_items enum))
      (List.filter (fun enum => negb (VkEnum.bitwidth enum <? 64)) bitmasks).

Definition render_H_DEFINE_TEMPLATE (extensions : list VkExtension.t)
    (bitmasks : list VkEnum.t) : result artifact :=
  all_bits <- render_all_bits bitmasks ;;
  Ok (Defines_file
        (mk_defines_artifact
           (map (fun ext => (VkExtension.name ext, VkExtension.number ext)) extensions)
           all_bits
           (render_redefinitions bitmasks))).

(** ** parse_xml and main

    What lies outside the generator is a parameter: Python's [int], in its
    two uses, the XML parser [et.parse] (a file name gives a tree or the
    parse fails), the depth at which the interpreter stops a recursion,
    and the file system: whether [open(path, 'w')] gives a file, and
    whether the text is then written and the file closed without an
    error. *)

Section Generator.

Variable int_base0 : string -> result Z.        (* int(s, base=0) *)
Variable int_ : string -> result Z.             (* int(s) *)
Variable et_parse : string -> result Element.   (* et.parse(filename) *)
Variable recursion_limit : nat.
Variable os_open : string -> bool.              (* open(path, 'w') gives a file *)
Variable os_write : string -> artifact -> bool. (* f.write(text) and the close succeed *)

(** [1 << n] *)
Definition shift_one (n : Z) : result Z :=
  if n <? 0 then Raise ValueError else Ok (Z.shiftl 1 n).

(** [VkEnum.add_value_from_xml] *)
Definition add_value_from_xml (self : VkEnum.t) (elem : Element)
    (extension : option VkExtension.t) : result VkEnum.t :=
  let self := VkEnum.set_extension self extension in
  if attrib_has elem "value" then
    name <- attrib_item elem "name" ;;
    s <- attrib_item elem "value" ;;
    value <- int_base0 s ;;
    VkEnum.add_value recursion_limit self name (Some value) None None None false
  else if attrib_has elem "bitpos" then
    name <- attrib_item elem "name" ;;
    s <- attrib_item elem "bitpos" ;;
    n <- int_base0 s ;;
    value <- shift_one n ;;
    VkEnum.add_value recursion_limit self name (Some value) None None None false
  else if attrib_has elem "alias" then
    name <- attrib_item elem "name" ;;
    alias <- attrib_item elem "alias" ;;
    VkEnum.add_value recursion_limit self name None None None (Some alias) false
  else
    let error := bool_decide (attrib elem !! "dir" = Some "-") in
    extnum <- (if attrib_has elem "extnumber" then
                 s <- attrib_item elem "extnumber" ;;
                 n <- int_ s ;;
                 Ok (Some n)
               else match extension with
                    | None => Raise AttributeError
                    | Some x => Ok (VkExtension.number x)
                    end) ;;
    name <- attrib_item elem "name" ;;
    s <- attrib_item elem "offset" ;;
    offset <- int_ s ;;
    VkEnum.add_value recursion_limit self name None extnum (Some offset) None error.

(** Lines 380-383 *)
Definition parse_enums (f : factories) (xml : Element) : result factories :=
  for_each
    (fun f enum_type =>
       name <- attrib_item enum_type "name" ;;
       let '(registry, enum) :=
         factory_call (enum_factory f) name (VkEnum.init name 32 None) in
       enum <- for_each (fun enum value => add_value_from_xml enum value None)
                 enum (findall [("enum", Any)] enum_type) ;;
       Ok (set_enum_factory f (<[name := enum]> registry)))
    f (findall [("enums", AttrEq "type" "enum")] xml).

(** Lines 386-390 *)
Definition parse_bitmasks (f : factories) (xml : Element) : result factories :=
  for_each
    (fun f enum_type =>
       bitwidth <- match attrib enum_type !! "bitwidth" with
                   | None => Ok 32
                   | Some s => int_ s
                   end ;;
       name <- attrib_item enum_type "name" ;;
       let '(registry, enum) :=
         factory_call (bitmask_factory f) name (VkEnum.init name bitwidth None) in
       enum <- for_each (fun enum value => add_value_from_xml enum value None)
                 enum (findall [("enum", Any)] enum_type) ;;
       Ok (set_bitmask_factory f (<[name := enum]> registry)))
    f (findall [("enums", AttrEq "type" "bitmask")] xml).

(** Lines 393-399 and 422-428: a constant that extends an enum is added to
    the enum and to the bitmask of that name, where they exist. *)
Definition extend_enums (extension : option VkExtension.t) (f : factories)
    (value : Element) : result factories :=
  extends <- attrib_item value "extends" ;;
  f <- match enum_factory f !! extends with
       | Some enum =>
           enum <- add_value_from_xml enum value extension ;;
           Ok (set_enum_factory f (<[extends := enum]> (enum_factory f)))
       | None => Ok f
       end ;;
  match bitmask_factory f !! extends with
  | Some enum =>
      enum <- add_value_from_xml enum value extension ;;
      Ok (set_bitmask_factory f (<[extends := enum]> (bitmask_factory f)))
  | None => Ok f
  end.

(** Lines 392-399 *)
Definition parse_features (f : factories) (xml : Element) : result factories :=
  for_each (extend_enums None) f
    (findall [("feature", Any); ("require", Any); ("enum", HasAttr "extends")] xml).

(** Lines 401-405 *)
Definition parse_structs (f : factories) (xml : Element) : result factories :=
  for_each
    (fun f struct_type =>
       name <- attrib_item struct_type "name" ;;
       match struct_get_stype struct_type with
       | Some stype =>
           Ok (set_struct_factory f
                 (factory_call (struct_factory f) name
                               (VkChainStruct.mk name stype None)).1)
       | None => Ok f
       end)
    f (findall [("types", Any); ("type", AttrEq "category" "struct")] xml).

(** Lines 407-411 *)
Definition parse_platforms (xml : Element) : result (gmap string string) :=
  for_each
    (fun (platform_define : gmap string string) platform =>
       name <- attrib_item platform "name" ;;
       define <- attrib_item platform "protect" ;;
       Ok (<[name := define]> platform_define))
    ∅ (findall [("platforms", Any); ("platform", Any)] xml).

(** Lines 413-438 *)
Definition parse_extensions (platform_define : gmap string string) (f : factories)
    (xml : Element) : result factories :=
  for_each
    (fun f ext_elem =>
       define <- (if attrib_has ext_elem "platform" then
                    p <- attrib_item ext_elem "platform" ;;
                    match platform_define !! p with
                    | Some d => Ok (Some d)
                    | None => Raise KeyError
                    end
                  else Ok None) ;;
       name <- attrib_item ext_elem "name" ;;
       s <- attrib_item ext_elem "number" ;;
       number <- int_ s ;;
       let '(registry, extension) :=
         factory_call (ext_factory f) name (VkExtension.mk name (Some number) define) in
       let f := set_ext_factory f registry in
       f <- for_each (extend_enums (Some extension)) f
              (findall [("require", Any); ("enum", HasAttr "extends")] ext_elem) ;;
       f <- for_each
              (fun f t =>
                 n <- attrib_item t "name" ;;
                 match struct_factory f !! n with
                 | Some struct =>
                     Ok (set_struct_factory f
                           (<[n := VkChainStruct.set_extension struct extension]>
                              (struct_factory f)))
                 | None => Ok f
                 end)
              f (findall [("require", Any); ("type", Any)] ext_elem) ;;
       match guard_of define with
       | Some define =>
           for_each
             (fun f value =>
                n <- attrib_item value "name" ;;
                match enum_factory f !! n with
                | Some enum =>
                    Ok (set_enum_factory f
                          (<[n := VkEnum.set_guard enum define]> (enum_factory f)))
                | None => Ok f
                end)
             f (findall [("require", Any); ("type", HasAttr "name")] ext_elem)
       | None => Ok f
       end)
    f (findall [("extensions", Any); ("extension", AttrEq "supported" "vulkan")] xml).

(** Lines 444-446: one display name of one handle. *)
Definition add_object_name (f : factories) (object_type : Element)
    (obj_types : VkObjectType.t) (object_name : Element) : result VkObjectType.t :=
  enum <- attrib_item object_type "objtypeenum" ;;
  e <- match enum_factory f !! "VkObjectType" with
       | None => Raise AttributeError
       | Some e => Ok e
       end ;;
  enum_val <- match VkEnum.name_to_value e !! enum with
              | None => Raise KeyError
              | Some v => Ok v
              end ;;
  Ok (VkObjectType.mk (VkObjectType.name obj_types)
        (<[enum_val := text object_name]> (VkObjectType.enum_to_name obj_types))).

(** Lines 441-446, on the object-type table. *)
Definition add_object_types (f : factories) (handles : list Element)
    (obj_types : VkObjectType.t) : result VkObjectType.t :=
  for_each
    (fun obj_types object_type =>
       for_each (add_object_name f object_type) obj_types
                (findall [("name", Any)] object_type))
    obj_types handles.

(** Lines 440-446 *)
Definition parse_object_types (f : factories) (xml : Element) : result factories :=
  let '(registry, obj_types) :=
    factory_call (obj_type_factory f) "VkObjectType"
                 (VkObjectType.init "VkObjectType") in
  let f := set_obj_type_factory f registry in
  obj_types <- add_object_types f
                 (findall [("types", Any); ("type", AttrEq "category" "handle")] xml)
                 obj_types ;;
  Ok (set_obj_type_factory f (<["VkObjectType" := obj_types]> registry)).

(** [parse_xml] *)
Definition parse_xml (f : factories) (filename : string) : result factories :=
  xml <- et_parse filename ;;
  f <- parse_enums f xml ;;
  f <- parse_bitmasks f xml ;;
  f <- parse_features f xml ;;
  f <- parse_structs f xml ;;
  platform_define <- parse_platforms xml ;;
  f <- parse_extensions platform_define f xml ;;
  parse_object_types f xml.

(** The three templates of [main] with their file names, in the order of
    the loop of line 476. *)
Definition templates (f : factories) : list (string * result artifact) :=
  let enums := sorted_by_name VkEnum.name (registry_values (enum_factory f)) in
  let extensions := sorted_by_name VkExtension.name (registry_values (ext_factory f)) in
  let structs := sorted_by_name VkChainStruct.name (registry_values (struct_factory f)) in
  let bitmasks := sorted_by_name VkEnum.name (registry_values (bitmask_factory f)) in
  let object_types :=
    sorted_by_name VkObjectType.name (registry_values (obj_type_factory f)) in
  [("vk_enum_to_str.c", render_C_TEMPLATE enums structs object_types);
   ("vk_enum_to_str.h", render_H_TEMPLATE enums);
   ("vk_enum_defines.h", render_H_DEFINE_TEMPLATE extensions bitmasks)].

(** Lines 476-487: each file is opened for writing, which empties it, then
    the template is rendered and the text written.  An [open] that fails
    raises an [OSError] and leaves the path as it was; a template that
    fails to render leaves the file empty; a write that fails raises an
    [OSError] and leaves a part of the text.  The files as they are at the
    end are returned with the outcome. *)
Fixpoint write_files (outdir : string) (fs : gmap string file)
    (l : list (string * result artifact)) : gmap string file * result unit :=
  match l with
  | [] => (fs, Ok tt)
  | (file_name, rendered) :: l' =>
      let file_ := path_join outdir file_name in
      if negb (os_open file_) then (fs, Raise OSError)
      else
        let fs := <[file_ := Truncated]> fs in
        match rendered with
        | Raise x => (fs, Raise x)
        | Ok a =>
            if os_write file_ a
            then write_files outdir (<[file_ := Written a]> fs) l'
            else (<[file_ := Partial a]> fs, Raise OSError)
        end
  end.

(** [main], after the command line has been read. *)
Definition main (xml_files : list string) (outdir : string) (fs : gmap string file)
  : gmap string file * result unit :=
  match for_each parse_xml no_factories xml_files with
  | Raise x => (fs, Raise x)
  | Ok f => write_files outdir fs (templates f)
  end.

End Generator.

(** * The resolution engine: how [add_value] runs *)

Lemma bind_Ok {A B : Type} (r : result A) (k : A -> result B) (b : B) :
  bind r k = Ok b -> exists a, r = Ok a /\ k a = Ok b.
Proof. destruct r as [a|x]; simpl; [eauto | discriminate]. Qed.

Lemma for_each_app {S A : Type} (body : S -> A -> result S) s l1 l2 :
  for_each body s (l1 ++ l2) = (s' <- for_each body s l1 ;; for_each body s' l2).
Proof.
  revert s; induction l1 as [|a l1 IH]; intros s; simpl; [reflexivity|].
  destruct (body s a) as [s'|x]; simpl; [apply IH | reflexivity].
Qed.


Abbreviation n2v := VkEnum.name_to_value.
Abbreviation pending := VkEnum.name_to_alias_list.

(** The recursive call of line 320: a name is given its resolved value. *)
Definition flush (fuel : nat) (self : VkEnum.t) (name : string) (v : Z)
  : result VkEnum.t :=
  VkEnum.add_value fuel self name (Some v) None None None false.

(** Lines 317-321, after the pair has been recorded. *)
Definition flush_aliases (fuel : nat) (self : VkEnum.t) (name : string) (v : Z)
  : result VkEnum.t :=
  match pending self !! name with
  | None => Ok self
  | Some alias_list =>
      self <- for_each (fun self alias => flush fuel self alias v) self alias_list ;;
      VkEnum.del_alias_list self name
  end.

Lemma add_value_S fuel self name value extnum offset alias error :
  VkEnum.add_value (S fuel) self name value extnum offset alias error =
  match alias with
  | Some alias =>
      if negb (bool_decide (value = None) && bool_decide (offset = None))
      then Raise AssertionError
      else match n2v self !! alias with
           | None => Ok (VkEnum.defer_alias self alias name)
           | Some v =>
               flush_aliases fuel (VkEnum.record_value self name v) name v
           end
  | None =>
      v <- VkEnum.compute_value value extnum offset error ;;
      flush_aliases fuel (VkEnum.record_value self name v) name v
  end.
Proof. destruct alias; reflexivity. Qed.

Lemma flush_S fuel self name v :
  flush (S fuel) self name v =
  flush_aliases fuel (VkEnum.record_value self name v) name v.
Proof. reflexivity. Qed.

Lemma flush_0 self name v : flush 0 self name v = Raise RecursionError.
Proof. reflexivity. Qed.

Lemma add_value_0 self name value extnum offset alias error :
  VkEnum.add_value 0 self name value extnum offset alias error = Raise RecursionError.
Proof. reflexivity. Qed.

Global Opaque VkEnum.add_value.

(** ** Record fields through the setters *)

Lemma record_value_pending self name v :
  pending (VkEnum.record_value self name v) = pending self.
Proof.
  unfold VkEnum.record_value; simpl.
  destruct (VkEnum.values self !! v) as [old|]; [|reflexivity].
  destruct (_ <? _)%nat; reflexivity.
Qed.

Lemma record_value_n2v self name v :
  n2v (VkEnum.record_value self name v) = <[name := v]> (n2v self).
Proof.
  unfold VkEnum.record_value; simpl.
  destruct (VkEnum.values self !! v) as [old|]; [|reflexivity].
  destruct (_ <? _)%nat; reflexivity.
Qed.

Lemma record_value_values self name v :
  VkEnum.values (VkEnum.record_value self name v) =
  match VkEnum.values self !! v with
  | None => <[v := name]> (VkEnum.values self)
  | Some old =>
      if (String.length name <? String.length old)%nat
      then <[v := name]> (VkEnum.values self)
      else VkEnum.values self
  end.
Proof.
  unfold VkEnum.record_value; simpl.
  destruct (VkEnum.values self !! v) as [old|]; [|reflexivity].
  destruct (_ <? _)%nat; reflexivity.
Qed.

Lemma record_value_set_pending self m name v :
  VkEnum.record_value (VkEnum.set_name_to_alias_list self m) name v =
  VkEnum.set_name_to_alias_list (VkEnum.record_value self name v) m.
Proof.
  unfold VkEnum.record_value; simpl.
  destruct (VkEnum.values self !! v) as [old|]; [|reflexivity].
  destruct (_ <? _)%nat; reflexivity.
Qed.

Lemma set_pending_id self : VkEnum.set_name_to_alias_list self (pending self) = self.
Proof. destruct self; reflexivity. Qed.

Lemma set_pending_twice self m1 m2 :
  VkEnum.set_name_to_alias_list (VkEnum.set_name_to_alias_list self m1) m2 =
  VkEnum.set_name_to_alias_list self m2.
Proof. reflexivity. Qed.

(** The pairs recorded, in order, for one value. *)
Definition registers (v : Z) (tr : list string) (self : VkEnum.t) : VkEnum.t :=
  foldl (fun self name => VkEnum.record_value self name v) self tr.

Lemma registers_app v tr1 tr2 self :
  registers v (tr1 ++ tr2) self = registers v tr2 (registers v tr1 self).
Proof. apply foldl_app. Qed.

Lemma registers_pending v tr self : pending (registers v tr self) = pending self.
Proof.
  revert self; induction tr as [|a tr IH]; intros self; simpl; [reflexivity|].
  rewrite IH. apply record_value_pending.
Qed.

Lemma registers_set_pending v tr self m :
  registers v tr (VkEnum.set_name_to_alias_list self m) =
  VkEnum.set_name_to_alias_list (registers v tr self) m.
Proof.
  revert self; induction tr as [|a tr IH]; intros self; simpl; [reflexivity|].
  rewrite record_value_set_pending. apply IH.
Qed.

Lemma registers_n2v v tr self (y : string) :
  n2v (registers v tr self) !! y =
  if decide (y ∈ tr) then Some v else n2v self !! y.
Proof.
  revert self; induction tr as [|a tr IH]; intros self; simpl.
  - destruct (decide (y ∈ [])) as [H|H]; [inversion H | reflexivity].
  - rewrite IH, record_value_n2v.
    destruct (decide (y ∈ tr)) as [Hin|Hnin].
    + rewrite decide_True by (right; exact Hin). reflexivity.
    + destruct (decide (y = a)) as [->|Hne].
      * rewrite decide_True by left. apply lookup_insert_eq.
      * rewrite decide_False by (intros H; apply elem_of_cons in H; tauto).
        apply lookup_insert_ne; congruence.
Qed.

Lemma foldr_delete_lookup {A} (m : gmap string A) (tr : list string) (y : string) :
  foldr delete m tr !! y = if decide (y ∈ tr) then None else m !! y.
Proof.
  destruct (decide (y ∈ tr)) as [Hin|Hnin].
  - apply lookup_foldr_delete; exact Hin.
  - apply lookup_foldr_delete_not_elem_of; exact Hnin.
Qed.

Lemma foldr_delete_twice {A} (m : gmap string A) (tr1 tr2 : list string) :
  foldr delete (foldr delete m tr1) tr2 = foldr delete m (tr1 ++ tr2).
Proof.
  apply map_eq; intros y. rewrite !foldr_delete_lookup.
  destruct (decide (y ∈ tr2)), (decide (y ∈ tr1)), (decide (y ∈ tr1 ++ tr2)) as [H|H];
    try reflexivity; exfalso; rewrite elem_of_app in H; tauto.
Qed.

(** ** Big-step reading of the flush

    [resolves v self name tr self'] : giving [name] the value [v] in
    [self] ends normally in [self'], and [tr] lists the names recorded on
    the way, in the order of their assignment at line 311. *)

Inductive resolves (v : Z) : VkEnum.t -> string -> list string -> VkEnum.t -> Prop :=
| resolves_leaf self name :
    pending self !! name = None ->
    resolves v self name [name] (VkEnum.record_value self name v)
| resolves_node self name alias_list tr self2 self3 :
    pending self !! name = Some alias_list ->
    resolves_all v (VkEnum.record_value self name v) alias_list tr self2 ->
    VkEnum.del_alias_list self2 name = Ok self3 ->
    resolves v self name (name :: tr) self3
with resolves_all (v : Z) : VkEnum.t -> list string -> list string -> VkEnum.t -> Prop :=
| resolves_nil self : resolves_all v self [] [] self
| resolves_cons self alias alias_list tr1 self1 tr2 self2 :
    resolves v self alias tr1 self1 ->
    resolves_all v self1 alias_list tr2 self2 ->
    resolves_all v self (alias :: alias_list) (tr1 ++ tr2) self2.

Scheme resolves_mut := Minimality for resolves Sort Prop
  with resolves_all_mut := Minimality for resolves_all Sort Prop.
Combined Scheme resolves_mutind from resolves_mut, resolves_all_mut.

Lemma for_each_flush_resolves v fuel
  (IH : forall self name self', flush fuel self name v = Ok self' ->
        exists tr, resolves v self name tr self') :
  forall alias_list self self',
    for_each (fun self alias => flush fuel self alias v) self alias_list = Ok self' ->
    exists tr, resolves_all v self alias_list tr self'.
Proof.
  induction alias_list as [|a l IHl]; intros self self' H; simpl in H.
  - injection H as <-. exists []. constructor.
  - apply bind_Ok in H as (self1 & Ha & Hl).
    apply IH in Ha as (tr1 & Ha). apply IHl in Hl as (tr2 & Hl).
    exists (tr1 ++ tr2). econstructor; eassumption.
Qed.

(** Every normal end of the recursive function is a derivation. *)
Lemma flush_resolves v fuel : forall self name self',
  flush fuel self name v = Ok self' -> exists tr, resolves v self name tr self'.
Proof.
  induction fuel as [|fuel IH]; intros self name self' H.
  - rewrite flush_0 in H. discriminate.
  - rewrite flush_S in H. unfold flush_aliases in H.
    rewrite record_value_pending in H.
    destruct (pending self !! name) as [alias_list|] eqn:Hp.
    + apply bind_Ok in H as (self2 & Hloop & Hdel).
      apply (for_each_flush_resolves v fuel IH) in Hloop as (tr & Hloop).
      exists (name :: tr). econstructor; eassumption.
    + injection H as <-. exists [name]. constructor. exact Hp.
Qed.

(** Every derivation is a normal end, for every depth from some depth on. *)
Lemma resolves_flush v :
  (forall self name tr self', resolves v self name tr self' ->
     exists n, forall fuel, (n <= fuel)%nat -> flush fuel self name v = Ok self') /\
  (forall self alias_list tr self', resolves_all v self alias_list tr self' ->
     exists n, forall fuel, (n <= fuel)%nat ->
       for_each (fun self alias => flush fuel self alias v) self alias_list = Ok self').
Proof.
  apply resolves_mutind.
  - intros self name Hp. exists 1%nat. intros [|fuel] Hle; [lia|].
    rewrite flush_S. unfold flush_aliases. rewrite record_value_pending, Hp.
    reflexivity.
  - intros self name l tr self2 self3 Hp _ (n & Hn) Hdel.
    exists (S n). intros [|fuel] Hle; [lia|].
    rewrite flush_S. unfold flush_aliases. rewrite record_value_pending, Hp.
    rewrite Hn by lia. exact Hdel.
  - intros self. exists 0%nat. reflexivity.
  - intros self a l tr1 self1 tr2 self2 _ (n1 & H1) _ (n2 & H2).
    exists (n1 `max` n2)%nat. intros fuel Hle. simpl.
    rewrite H1 by lia. simpl. apply H2; lia.
Qed.

(** The whole effect of a flush: the names of the trace are recorded in
    order, and exactly their alias lists are dropped. *)
Lemma resolves_effect v :
  (forall self name tr self', resolves v self name tr self' ->
     self' = VkEnum.set_name_to_alias_list (registers v tr self)
               (foldr delete (pending self) tr)) /\
  (forall self alias_list tr self', resolves_all v self alias_list tr self' ->
     self' = VkEnum.set_name_to_alias_list (registers v tr self)
               (foldr delete (pending self) tr)).
Proof.
  apply resolves_mutind.
  - intros self name Hp. simpl. rewrite delete_id by exact Hp.
    rewrite <- (record_value_pending self name v).
    symmetry. apply set_pending_id.
  - intros self name l tr self2 self3 Hp _ IH Hdel.
    unfold VkEnum.del_alias_list in Hdel.
    destruct (pending self2 !! name); [|discriminate].
    injection Hdel as <-. rewrite IH. simpl.
    rewrite record_value_pending. reflexivity.
  - intros self. simpl. symmetry. apply set_pending_id.
  - intros self a l tr1 self1 tr2 self2 _ IH1 _ IH2.
    rewrite IH2, IH1. simpl.
    rewrite registers_set_pending, set_pending_twice, foldr_delete_twice.
    rewrite registers_app. reflexivity.
Qed.

Lemma resolves_n2v v self name tr self' (y : string) :
  resolves v self name tr self' ->
  n2v self' !! y = if decide (y ∈ tr) then Some v else n2v self !! y.
Proof.
  intros H. apply (proj1 (resolves_effect v)) in H. subst self'. simpl.
  apply registers_n2v.
Qed.

Lemma resolves_pending v self name tr self' (y : string) :
  resolves v self name tr self' ->
  pending self' !! y = if decide (y ∈ tr) then None else pending self !! y.
Proof.
  intros H. apply (proj1 (resolves_effect v)) in H. subst self'. simpl.
  apply foldr_delete_lookup.
Qed.

Lemma resolves_all_pending v self l tr self' (y : string) :
  resolves_all v self l tr self' ->
  pending self' !! y = if decide (y ∈ tr) then None else pending self !! y.
Proof.
  intros H. apply (proj2 (resolves_effect v)) in H. subst self'. simpl.
  apply foldr_delete_lookup.
Qed.

Lemma resolves_head v self name tr self' :
  resolves v self name tr self' -> name ∈ tr.
Proof. intros H; inversion H; subst; left. Qed.

(** The trace is closed under the alias lists of its members. *)
Lemma resolves_closed v :
  (forall self name tr self', resolves v self name tr self' ->
     forall (y : string) l a, y ∈ tr -> pending self !! y = Some l -> a ∈ l -> a ∈ tr) /\
  (forall self alias_list tr self', resolves_all v self alias_list tr self' ->
     (forall a, a ∈ alias_list -> a ∈ tr) /\
     forall (y : string) l a, y ∈ tr -> pending self !! y = Some l -> a ∈ l -> a ∈ tr).
Proof.
  apply resolves_mutind.
  - intros self name Hp y l a Hy Hl _.
    apply list_elem_of_singleton in Hy as ->. congruence.
  - intros self name l0 tr self2 self3 Hp _ [IHa IHc] _ y l a Hy Hl Ha.
    apply elem_of_cons in Hy as [->|Hy].
    + right. apply IHa. congruence.
    + right. apply (IHc y l a Hy); [|exact Ha].
      rewrite record_value_pending. exact Hl.
  - intros self. split; intros; exfalso; eapply not_elem_of_nil; eassumption.
  - intros self a0 l0 tr1 self1 tr2 self2 H1 IH1 H2 [IHa IHc]. split.
    + intros a Ha. apply elem_of_app. apply elem_of_cons in Ha as [->|Ha].
      * left. eapply resolves_head; eassumption.
      * right. apply IHa, Ha.
    + intros y l a Hy Hl Ha. apply elem_of_app.
      destruct (decide (y ∈ tr1)) as [Hin|Hnin].
      * left. eapply IH1; eassumption.
      * right. apply elem_of_app in Hy as [Hy|Hy]; [tauto|].
        apply (IHc y l a Hy); [|exact Ha].
        rewrite (resolves_pending v self a0 tr1 self1 y H1).
        rewrite decide_False by exact Hnin. exact Hl.
Qed.

(** Every name of the trace is reached from the first one through alias
    lists: a property of the first name that alias lists carry along holds
    all over the trace. *)
Lemma resolves_origin v (P : string -> Prop) :
  (forall self name tr self', resolves v self name tr self' ->
     (forall (y : string) l a, y ∈ tr -> P y -> pending self !! y = Some l -> a ∈ l -> P a) ->
     P name -> forall a, a ∈ tr -> P a) /\
  (forall self alias_list tr self', resolves_all v self alias_list tr self' ->
     (forall (y : string) l a, y ∈ tr -> P y -> pending self !! y = Some l -> a ∈ l -> P a) ->
     (forall a, a ∈ alias_list -> P a) -> forall a, a ∈ tr -> P a).
Proof.
  apply resolves_mutind.
  - intros self name Hp _ Hn a Ha. apply list_elem_of_singleton in Ha as ->. exact Hn.
  - intros self name l0 tr self2 self3 Hp _ IH _ Hcl Hn a Ha.
    apply elem_of_cons in Ha as [->|Ha]; [exact Hn|].
    apply IH; [| |exact Ha].
    + intros y l b Hy HPy Hl Hb. rewrite record_value_pending in Hl.
      apply (Hcl y l b); [right|..]; assumption.
    + intros b Hb. apply (Hcl name l0 b); [left|..]; assumption.
  - intros self _ _ a Ha. exfalso; eapply not_elem_of_nil; eassumption.
  - intros self a0 l0 tr1 self1 tr2 self2 H1 IH1 H2 IH2 Hcl Hl a Ha.
    apply elem_of_app in Ha as [Ha|Ha].
    + apply IH1; [| |exact Ha].
      * intros y l b Hy HPy Hpl Hb.
        apply (Hcl y l b); [apply elem_of_app; left|..]; assumption.
      * apply Hl. left.
    + apply IH2; [| |exact Ha].
      * intros y l b Hy HPy Hpl Hb.
        rewrite (resolves_pending v self a0 tr1 self1 y H1) in Hpl.
        destruct (decide (y ∈ tr1)); [discriminate|].
        apply (Hcl y l b); [apply elem_of_app; right|..]; assumption.
      * intros b Hb. apply Hl. right. exact Hb.
Qed.

(** One name leads to another through the alias lists. *)
Inductive reaches (self : VkEnum.t) : string -> string -> Prop :=
| reaches_one x l y : pending self !! x = Some l -> y ∈ l -> reaches self x y
| reaches_more x l y z :
    pending self !! x = Some l -> y ∈ l -> reaches self y z -> reaches self x z.

Lemma reaches_trace self (tr : list string) :
  (forall (y : string) l a, y ∈ tr -> pending self !! y = Some l -> a ∈ l -> a ∈ tr) ->
  forall x z, reaches self x z -> x ∈ tr -> z ∈ tr.
Proof.
  intros Hcl x z H. induction H as [x l y Hl Hy|x l y z Hl Hy _ IH]; intros Hx.
  - eapply Hcl; eassumption.
  - apply IH. eapply Hcl; eassumption.
Qed.

(** A flush that ends has given the value to every name that the first
    one leads to, and has emptied their lists. *)
Lemma resolves_reaches v self name tr self' :
  resolves v self name tr self' ->
  forall a, a = name \/ reaches self name a ->
    n2v self' !! a = Some v /\ pending self' !! a = None.
Proof.
  intros Hres a Ha.
  assert (Hin : a ∈ tr).
  { destruct Ha as [->|Ha]; [eapply resolves_head, Hres|].
    apply (reaches_trace self tr) with (x := name);
      [|exact Ha|eapply resolves_head, Hres].
    exact (proj1 (resolves_closed v) self name tr self' Hres). }
  rewrite (resolves_n2v v self name tr self' a Hres),
    (resolves_pending v self name tr self' a Hres).
  rewrite !decide_True by exact Hin. auto.
Qed.

(** ** What one call of [add_value] does *)

Lemma add_value_Ok fuel self name value extnum offset alias error self' :
  VkEnum.add_value fuel self name value extnum offset alias error = Ok self' ->
  (exists b, alias = Some b /\ n2v self !! b = None /\
             self' = VkEnum.defer_alias self b name) \/
  (exists v tr, resolves v self name tr self' /\
     match alias with
     | Some b => n2v self !! b = Some v
     | None => VkEnum.compute_value value extnum offset error = Ok v
     end).
Proof.
  destruct fuel as [|fuel]; [rewrite add_value_0; discriminate|].
  rewrite add_value_S. destruct alias as [b|].
  - destruct (negb _); [discriminate|].
    destruct (n2v self !! b) as [v|] eqn:Hb.
    + rewrite <- flush_S. intros H. apply flush_resolves in H as (tr & H).
      right. exists v, tr. split; [exact H | reflexivity].
    + intros H. injection H as <-. left. exists b. auto.
  - intros H. apply bind_Ok in H as (v & Hv & H).
    rewrite <- flush_S in H. apply flush_resolves in H as (tr & H).
    right. exists v, tr. split; assumption.
Qed.

(** The states an enum goes through: made by [__init__], changed by
    [add_value], [set_guard] and the assignment to [extension]. *)
Inductive reachable : VkEnum.t -> Prop :=
| reachable_init name bitwidth values : reachable (VkEnum.init name bitwidth values)
| reachable_add_value self fuel name value extnum offset alias error self' :
    reachable self ->
    VkEnum.add_value fuel self name value extnum offset alias error = Ok self' ->
    reachable self'
| reachable_set_guard self g : reachable self -> reachable (VkEnum.set_guard self g)
| reachable_set_extension self x :
    reachable self -> reachable (VkEnum.set_extension self x).

(** A value that a name resolves to has a canonical name, no longer than
    that name. *)
Definition canonical_covers (self : VkEnum.t) : Prop :=
  forall name v, n2v self !! name = Some v ->
    exists c, VkEnum.values self !! v = Some c /\
              (String.length c <= String.length name)%nat.

(** A resolved name holds no pending aliases. *)
Definition resolved_not_pending (self : VkEnum.t) : Prop :=
  forall name : string, is_Some (n2v self !! name) -> pending self !! name = None.

Lemma record_value_covers self name v :
  canonical_covers self -> canonical_covers (VkEnum.record_value self name v).
Proof.
  intros Hc n w. rewrite record_value_n2v, record_value_values.
  intros Hn. destruct (decide (w = v)) as [->|Hwv].
  - destruct (VkEnum.values self !! v) as [old|] eqn:Hold.
    + destruct (String.length name <? String.length old)%nat eqn:Hlt.
      * apply Nat.ltb_lt in Hlt. exists name. rewrite lookup_insert_eq.
        split; [reflexivity|].
        destruct (decide (name = n)) as [->|Hne]; [lia|].
        rewrite lookup_insert_ne in Hn by exact Hne.
        destruct (Hc n v Hn) as (c & Hcv & Hlen). rewrite Hold in Hcv.
        injection Hcv as ->. lia.
      * apply Nat.ltb_ge in Hlt. exists old. split; [exact Hold|].
        destruct (decide (name = n)) as [->|Hne]; [lia|].
        rewrite lookup_insert_ne in Hn by exact Hne.
        destruct (Hc n v Hn) as (c & Hcv & Hlen). rewrite Hold in Hcv.
        injection Hcv as ->. lia.
    + exists name. rewrite lookup_insert_eq. split; [reflexivity|].
      destruct (decide (name = n)) as [->|Hne]; [lia|].
      rewrite lookup_insert_ne in Hn by exact Hne.
      destruct (Hc n v Hn) as (c & Hcv & _). congruence.
  - assert (Hn' : n2v self !! n = Some w).
    { destruct (decide (name = n)) as [->|Hne].
      - rewrite lookup_insert_eq in Hn. congruence.
      - rewrite lookup_insert_ne in Hn by exact Hne. exact Hn. }
    destruct (Hc n w Hn') as (c & Hcv & Hlen). exists c. split; [|exact Hlen].
    destruct (VkEnum.values self !! v) as [old|].
    + destruct (_ <? _)%nat; [|exact Hcv].
      rewrite lookup_insert_ne by congruence. exact Hcv.
    + rewrite lookup_insert_ne by congruence. exact Hcv.
Qed.

Lemma registers_covers v tr : forall self,
  canonical_covers self -> canonical_covers (registers v tr self).
Proof.
  induction tr as [|a tr IH]; intros self Hc; simpl; [exact Hc|].
  apply IH, record_value_covers, Hc.
Qed.

Lemma reachable_invariants self :
  reachable self -> canonical_covers self /\ resolved_not_pending self.
Proof.
  induction 1 as [name bw vals | self fuel name value extnum offset alias error self' _ [IHc IHp] Hadd
                  | self g _ IH | self x _ IH].
  - split.
    + intros n v Hn. simpl in Hn. rewrite lookup_empty in Hn. discriminate.
    + intros n [v Hn]. simpl in Hn. rewrite lookup_empty in Hn. discriminate.
  - apply add_value_Ok in Hadd as [(b & -> & Hb & ->)|(v & tr & Hres & _)].
    + split; [exact IHc|].
      intros n Hn. simpl in *. destruct (decide (b = n)) as [->|Hne].
      * rewrite Hb in Hn. destruct Hn; discriminate.
      * rewrite lookup_insert_ne by exact Hne. apply IHp, Hn.
    + split.
      * pose proof (proj1 (resolves_effect v) _ _ _ _ Hres) as ->.
        intros n w Hn. simpl in *.
        exact (registers_covers v tr self IHc n w Hn).
      * intros n Hn. rewrite (resolves_pending v self name tr self' n Hres).
        rewrite (resolves_n2v v self name tr self' n Hres) in Hn.
        destruct (decide (n ∈ tr)); [reflexivity|]. apply IHp, Hn.
  - exact IH.
  - exact IH.
Qed.

(** * Properties *)

(** ** Extension-relative values *)

Lemma add_value_offset_Ok fuel self name extnum offset error self' :
  VkEnum.add_value fuel self name None (Some extnum) (Some offset) None error = Ok self' ->
  n2v self' !! name = Some (VkEnum.extension_value extnum offset error).
Proof.
  intros H. apply add_value_Ok in H as [(b & Hb & _)|(v & tr & Hres & Hv)];
    [discriminate|].
  simpl in Hv. injection Hv as <-.
  rewrite (resolves_n2v _ _ _ _ _ name Hres).
  rewrite decide_True by (eapply resolves_head; eassumption). reflexivity.
Qed.

(** C3. A constant given by an extension number and an offset resolves to
    [1000000000 + (extnum - 1) * 1000 + offset], and to the negation of
    that number when the error flag is set: the call ends with the pair
    recorded when the name has no aliases waiting, and whenever the call
    ends the name has that value.  Extension 5 with offset 3 gives
    1000004003, and -1000004003 when negated. *)
Theorem extension_offset_value :
  (forall fuel self name extnum offset error,
     pending self !! name = None ->
     VkEnum.add_value (S fuel) self name None (Some extnum) (Some offset) None error =
     Ok (VkEnum.record_value self name
           (if error then - (1000000000 + (extnum - 1) * 1000 + offset)
            else 1000000000 + (extnum - 1) * 1000 + offset))) /\
  (forall fuel self name extnum offset error self',
     VkEnum.add_value fuel self name None (Some extnum) (Some offset) None error = Ok self' ->
     n2v self' !! name =
     Some (if error then - (1000000000 + (extnum - 1) * 1000 + offset)
           else 1000000000 + (extnum - 1) * 1000 + offset)) /\
  (forall fuel name bitwidth,
     (e <- VkEnum.add_value (S fuel) (VkEnum.init name bitwidth None) "A"
             None (Some 5) (Some 3) None false ;; Ok (n2v e !! "A")) =
     Ok (Some 1000004003) /\
     (e <- VkEnum.add_value (S fuel) (VkEnum.init name bitwidth None) "A"
             None (Some 5) (Some 3) None true ;; Ok (n2v e !! "A")) =
     Ok (Some (-1000004003))).
Proof.
  split; [|split].
  - intros fuel self name extnum offset error Hp.
    rewrite add_value_S. simpl. unfold flush_aliases.
    rewrite record_value_pending, Hp. reflexivity.
  - intros fuel self name extnum offset error self' H.
    apply add_value_offset_Ok in H. exact H.
  - intros fuel name bitwidth. rewrite !add_value_S. simpl.
    unfold flush_aliases. rewrite !record_value_pending. simpl.
    rewrite lookup_empty. simpl. rewrite !record_value_n2v.
    rewrite !lookup_insert_eq. split; reflexivity.
Qed.

Lemma extension_offset_value_witness :
  pending (VkEnum.init "VkResult" 32 None) !! "VK_ERROR_X" = None /\
  VkEnum.add_value 1 (VkEnum.init "VkResult" 32 None) "VK_ERROR_X"
    None (Some 5) (Some 3) None true =
  Ok (VkEnum.record_value (VkEnum.init "VkResult" 32 None) "VK_ERROR_X" (-1000004003)) /\
  n2v (VkEnum.record_value (VkEnum.init "VkResult" 32 None) "VK_ERROR_X" (-1000004003))
    !! "VK_ERROR_X" = Some (-1000004003).
Proof.
  assert (Hp : pending (VkEnum.init "VkResult" 32 None) !! "VK_ERROR_X" = None)
    by reflexivity.
  split; [exact Hp|].
  pose proof (proj1 extension_offset_value 0%nat (VkEnum.init "VkResult" 32 None)
                "VK_ERROR_X" 5 3 true Hp) as H1.
  split; [exact H1|].
  exact (proj1 (proj2 extension_offset_value) 1%nat (VkEnum.init "VkResult" 32 None)
           "VK_ERROR_X" 5 3 true _ H1).
Defined.

(** ** Re-declaration *)

Lemma record_value_same self name v :
  canonical_covers self -> n2v self !! name = Some v ->
  VkEnum.record_value self name v = self.
Proof.
  intros Hc Hn. destruct (Hc name v Hn) as (c & Hcv & Hlen).
  unfold VkEnum.record_value, VkEnum.set_name_to_value.
  destruct self as [nm mx bw ex vals ntv ord g pend]. simpl in *.
  rewrite Hn, (insert_id _ _ _ Hn), Hcv.
  destruct (String.length name <? String.length c)%nat eqn:Hlt; [|reflexivity].
  apply Nat.ltb_lt in Hlt. lia.
Qed.

(** C9. In every state an enum can be in, adding again a pair
    [(name, value)] that is already there returns the enum as it was: the
    name-to-value map, the canonical names and the pending aliases are
    unchanged. *)
Theorem add_value_same_pair_noop self name v fuel :
  reachable self ->
  n2v self !! name = Some v ->
  VkEnum.add_value (S fuel) self name (Some v) None None None false = Ok self.
Proof.
  intros Hr Hn. destruct (reachable_invariants self Hr) as [Hc Hp].
  rewrite add_value_S. simpl. rewrite (record_value_same self name v Hc Hn).
  unfold flush_aliases. rewrite (Hp name) by (rewrite Hn; eauto). reflexivity.
Qed.

Lemma add_value_same_pair_noop_witness :
  VkEnum.add_value 1 (VkEnum.record_value (VkEnum.init "VkX" 32 None) "A" 1) "A"
    (Some 1) None None None false =
  Ok (VkEnum.record_value (VkEnum.init "VkX" 32 None) "A" 1).
Proof.
  apply add_value_same_pair_noop.
  - apply (reachable_add_value (VkEnum.init "VkX" 32 None) 1 "A" (Some 1) None None None false).
    + apply reachable_init.
    + vm_compute. reflexivity.
  - vm_compute. reflexivity.
Defined.

(** ** Canonical names *)

(** One call of [add_value], as [add_value_from_xml] or any other caller
    makes it. *)
Record call : Type := mk_call {
  c_name : string;
  c_value : option Z;
  c_extnum : option Z;
  c_offset : option Z;
  c_alias : option string;
  c_error : bool
}.

Definition do_call (fuel : nat) (self : VkEnum.t) (c : call) : result VkEnum.t :=
  VkEnum.add_value fuel self (c_name c) (c_value c) (c_extnum c) (c_offset c)
                   (c_alias c) (c_error c).

(** What the generator does to an enum once it is made: a call of
    [add_value], a call of [set_guard], an assignment to [extension]. *)
Inductive op : Type :=
| Add (c : call)
| SetGuard (g : string)
| SetExtension (x : option VkExtension.t).

Definition do_op (fuel : nat) (self : VkEnum.t) (o : op) : result VkEnum.t :=
  match o with
  | Add c => do_call fuel self c
  | SetGuard g => Ok (VkEnum.set_guard self g)
  | SetExtension x => Ok (VkEnum.set_extension self x)
  end.

(** The pairs that one operation registers, by the assignment of line 311,
    in the order in which it registers them: none for an alias that is put
    aside and for the two assignments; else the name of the call and then
    the aliases that its flush reaches, all with the value of the call. *)
Inductive op_registers : VkEnum.t -> op -> list (string * Z) -> VkEnum.t -> Prop :=
| op_defer self c b :
    c_alias c = Some b -> n2v self !! b = None ->
    op_registers self (Add c) [] (VkEnum.defer_alias self b (c_name c))
| op_resolve self c v tr self' :
    match c_alias c with
    | Some b => n2v self !! b = Some v
    | None =>
        VkEnum.compute_value (c_value c) (c_extnum c) (c_offset c) (c_error c) = Ok v
    end ->
    resolves v self (c_name c) tr self' ->
    op_registers self (Add c) (map (fun n => (n, v)) tr) self'
| op_guard self g : op_registers self (SetGuard g) [] (VkEnum.set_guard self g)
| op_extension self x :
    op_registers self (SetExtension x) [] (VkEnum.set_extension self x).

Inductive run_registers : VkEnum.t -> list op -> list (string * Z) -> VkEnum.t -> Prop :=
| run_nil self : run_registers self [] [] self
| run_cons self o regs1 self1 ops regs2 self2 :
    op_registers self o regs1 self1 ->
    run_registers self1 ops regs2 self2 ->
    run_registers self (o :: ops) (regs1 ++ regs2) self2.

(** The pairs recorded one after the other, each by lines 311-315. *)
Definition records (regs : list (string * Z)) (self : VkEnum.t) : VkEnum.t :=
  foldl (fun self p => VkEnum.record_value self p.1 p.2) self regs.

Lemma records_snoc regs p self :
  records (regs ++ [p]) self = VkEnum.record_value (records regs self) p.1 p.2.
Proof. unfold records. rewrite foldl_app. reflexivity. Qed.

Lemma registers_records v tr self :
  registers v tr self = records (map (fun n => (n, v)) tr) self.
Proof.
  revert self; induction tr as [|a tr IH]; intros self; simpl; [reflexivity|].
  apply IH.
Qed.

Lemma record_value_values_other self name v w :
  w <> v -> VkEnum.values (VkEnum.record_value self name v) !! w = VkEnum.values self !! w.
Proof.
  intros Hne. rewrite record_value_values.
  destruct (VkEnum.values self !! v) as [old|].
  - destruct (_ <? _)%nat; [|reflexivity]. apply lookup_insert_ne. congruence.
  - apply lookup_insert_ne. congruence.
Qed.

(** What the canonical-name map holds for [v] after the pairs [regs]:
    nothing when no pair has the value [v]; else the name of a pair
    [(c, v)], at a position [i], such that no name registered with [v] is
    shorter than [c] and none of the same length was registered before
    position [i]. *)
Definition canonical_choice (regs : list (string * Z)) (v : Z) (o : option string) : Prop :=
  match o with
  | Some c =>
      exists i : nat, regs !! i = Some (c, v) /\
        forall (j : nat) n, regs !! j = Some (n, v) ->
          (String.length c <= String.length n)%nat /\
          (String.length n = String.length c -> (i <= j)%nat)
  | None => forall n, (n, v) ∉ regs
  end.

(** The value of the last pair registered for a name. *)
Definition last_value (regs : list (string * Z)) (n : string) : option Z :=
  foldl (fun o p => if decide (p.1 = n) then Some p.2 else o) None regs.

(** No name is registered with two values. *)
Definition one_value_per_name (regs : list (string * Z)) : Prop :=
  forall n v w, (n, v) ∈ regs -> (n, w) ∈ regs -> v = w.

(** The claim as the specification states it, on the names that resolve to
    a value: the canonical name of the value is one of them, and none of
    them is shorter. *)
Definition canonical_is_shortest_name (self : VkEnum.t) : Prop :=
  forall v c, VkEnum.values self !! v = Some c ->
    n2v self !! c = Some v /\
    forall n, n2v self !! n = Some v -> (String.length c <= String.length n)%nat.

(** Lines 311-315 choose again with each pair. *)
Lemma record_value_canonical_choice regs self n0 v0 v :
  canonical_choice regs v (VkEnum.values self !! v) ->
  canonical_choice (regs ++ [(n0, v0)]) v
    (VkEnum.values (VkEnum.record_value self n0 v0) !! v).
Proof.
  intros IH. destruct (decide (v = v0)) as [->|Hne].
  - rewrite record_value_values.
    destruct (VkEnum.values self !! v0) as [c|] eqn:Hc.
    + destruct IH as (i & Hi & Hmin).
      destruct (String.length n0 <? String.length c)%nat eqn:Hlt.
      * apply Nat.ltb_lt in Hlt. rewrite lookup_insert_eq.
        exists (length regs). split.
        -- apply lookup_snoc_Some. right. auto.
        -- intros j n Hj. apply lookup_snoc_Some in Hj as [[_ Hj]|[-> Hj]].
           ++ destruct (Hmin j n Hj) as [Hle _]. lia.
           ++ injection Hj as <-. lia.
      * apply Nat.ltb_ge in Hlt. rewrite Hc.
        exists i. split; [apply lookup_app_l_Some, Hi|].
        intros j n Hj. apply lookup_snoc_Some in Hj as [[_ Hj]|[-> Hj]].
        -- apply Hmin, Hj.
        -- injection Hj as <-. split; [lia|].
           intros _. apply lookup_lt_Some in Hi. lia.
    + rewrite lookup_insert_eq. exists (length regs). split.
      * apply lookup_snoc_Some. right. auto.
      * intros j n Hj. apply lookup_snoc_Some in Hj as [[_ Hj]|[-> Hj]].
        -- exfalso. apply (IH n). eapply list_elem_of_lookup_2, Hj.
        -- injection Hj as <-. lia.
  - rewrite record_value_values_other by exact Hne.
    destruct (VkEnum.values self !! v) as [c|].
    + destruct IH as (i & Hi & Hmin). exists i.
      split; [apply lookup_app_l_Some, Hi|].
      intros j n Hj. apply lookup_snoc_Some in Hj as [[_ Hj]|[_ Hj]].
      * apply Hmin, Hj.
      * congruence.
    + intros n Hn. apply elem_of_app in Hn as [Hn|Hn].
      * exact (IH n Hn).
      * apply list_elem_of_singleton in Hn. congruence.
Qed.

Lemma last_value_snoc regs n0 v0 n :
  last_value (regs ++ [(n0, v0)]) n =
  if decide (n0 = n) then Some v0 else last_value regs n.
Proof. unfold last_value. rewrite foldl_app. reflexivity. Qed.

Lemma last_value_elem regs n v : last_value regs n = Some v -> (n, v) ∈ regs.
Proof.
  induction regs as [|[n0 v0] regs IH] using rev_ind; [discriminate|].
  rewrite last_value_snoc. intros H. apply elem_of_app.
  destruct (decide (n0 = n)) as [->|Hne].
  - injection H as ->. right. left.
  - left. apply IH, H.
Qed.

Lemma elem_last_value regs n v : (n, v) ∈ regs -> is_Some (last_value regs n).
Proof.
  induction regs as [|[n0 v0] regs IH] using rev_ind; intros H; [inversion H|].
  rewrite last_value_snoc. destruct (decide (n0 = n)) as [->|Hne]; [eauto|].
  apply IH. apply elem_of_app in H as [H|H]; [exact H|].
  apply list_elem_of_singleton in H. congruence.
Qed.

(** The two maps of an enum are those of the pairs [regs]. *)
Definition holds_pairs (regs : list (string * Z)) (self : VkEnum.t) : Prop :=
  (forall v, canonical_choice regs v (VkEnum.values self !! v)) /\
  (forall n, n2v self !! n = last_value regs n).

Lemma record_value_holds_pairs regs self n v :
  holds_pairs regs self ->
  holds_pairs (regs ++ [(n, v)]) (VkEnum.record_value self n v).
Proof.
  intros [Hc Hn]. split.
  - intros w. apply record_value_canonical_choice, Hc.
  - intros m. rewrite record_value_n2v, last_value_snoc.
    destruct (decide (n = m)) as [->|Hne].
    + apply lookup_insert_eq.
    + rewrite lookup_insert_ne by exact Hne. apply Hn.
Qed.

Lemma registers_holds_pairs v tr : forall regs self,
  holds_pairs regs self ->
  holds_pairs (regs ++ map (fun n => (n, v)) tr) (registers v tr self).
Proof.
  induction tr as [|a tr IH]; intros regs self H; simpl.
  - rewrite app_nil_r. exact H.
  - change ((a, v) :: map (fun n => (n, v)) tr)
      with ([(a, v)] ++ map (fun n => (n, v)) tr).
    rewrite app_assoc. apply IH, record_value_holds_pairs, H.
Qed.

Lemma op_registers_holds_pairs regs self o regs1 self1 :
  holds_pairs regs self -> op_registers self o regs1 self1 ->
  holds_pairs (regs ++ regs1) self1.
Proof.
  intros H Hop. destruct Hop as [self c b _ _|self c v tr self' _ Hres|self g|self x];
    try (rewrite app_nil_r; exact H).
  pose proof (proj1 (resolves_effect v) _ _ _ _ Hres) as ->.
  exact (registers_holds_pairs v tr regs self H).
Qed.

Lemma run_registers_holds_pairs self ops regs' self' :
  run_registers self ops regs' self' ->
  forall regs, holds_pairs regs self -> holds_pairs (regs ++ regs') self'.
Proof.
  induction 1 as [self|self o regs1 self1 ops regs2 self2 Hop _ IH]; intros regs H.
  - rewrite app_nil_r. exact H.
  - rewrite app_assoc. apply IH. eapply op_registers_holds_pairs; eassumption.
Qed.

Lemma init_holds_pairs name bitwidth : holds_pairs [] (VkEnum.init name bitwidth None).
Proof.
  split.
  - intros v. simpl. rewrite lookup_empty. intros n Hn. inversion Hn.
  - intros n. simpl. apply lookup_empty.
Qed.

(** Every operation that returns registers its pairs in this way. *)
Lemma do_op_registers fuel self o self' :
  do_op fuel self o = Ok self' -> exists regs, op_registers self o regs self'.
Proof.
  destruct o as [c|g|x]; simpl; intros H.
  - apply add_value_Ok in H as [(b & Hal & Hb & ->)|(v & tr & Hres & Hv)].
    + exists []. apply op_defer; assumption.
    + exists (map (fun n => (n, v)) tr). apply op_resolve; assumption.
  - injection H as <-. exists []. constructor.
  - injection H as <-. exists []. constructor.
Qed.

Lemma run_do_op_registers fuel : forall ops self self',
  for_each (do_op fuel) self ops = Ok self' ->
  exists regs, run_registers self ops regs self'.
Proof.
  induction ops as [|o ops IH]; intros self self' H; simpl in H.
  - injection H as <-. exists []. constructor.
  - apply bind_Ok in H as (self1 & Ho & H).
    apply do_op_registers in Ho as (regs1 & Ho). apply IH in H as (regs2 & H).
    exists (regs1 ++ regs2). econstructor; eassumption.
Qed.

(** When no name is registered with two values, the names that resolve to
    a value are those registered with it. *)
Lemma holds_pairs_one_value regs self :
  holds_pairs regs self -> one_value_per_name regs ->
  (forall n v, n2v self !! n = Some v <-> (n, v) ∈ regs) /\
  canonical_is_shortest_name self.
Proof.
  intros [Hc Hn] Hone.
  assert (Hiff : forall n v, n2v self !! n = Some v <-> (n, v) ∈ regs).
  { intros n v. rewrite Hn. split; [apply last_value_elem|].
    intros Hin. destruct (elem_last_value regs n v Hin) as [w Hw].
    rewrite Hw. f_equal. apply (Hone n w v); [apply last_value_elem, Hw|exact Hin]. }
  split; [exact Hiff|].
  intros v c Hv. specialize (Hc v). rewrite Hv in Hc. destruct Hc as (i & Hi & Hmin).
  split; [apply Hiff; eapply list_elem_of_lookup_2, Hi|].
  intros n Hnv. apply Hiff, list_elem_of_lookup_1 in Hnv as (j & Hj).
  apply (Hmin j n Hj).
Qed.

(** What a run of operations on a new enum leaves. *)
Lemma run_canonical fuel name bitwidth ops self' :
  for_each (do_op fuel) (VkEnum.init name bitwidth None) ops = Ok self' ->
  exists regs,
    run_registers (VkEnum.init name bitwidth None) ops regs self' /\
    holds_pairs regs self'.
Proof.
  intros H. apply run_do_op_registers in H as (regs & H). exists regs.
  split; [exact H|].
  exact (run_registers_holds_pairs _ _ _ _ H [] (init_holds_pairs name bitwidth)).
Qed.

(** ** The all-bits mask *)

Lemma map_fold_lor_testbit (m : gmap Z string) (i : Z) :
  Z.testbit (map_fold (fun (b : Z) (_ : string) (a : Z) => Z.lor a b) 0 m) i = true <->
  exists value c, m !! value = Some c /\ Z.testbit value i = true.
Proof.
  apply (map_fold_weak_ind
           (fun (r : Z) (m : gmap Z string) =>
              Z.testbit r i = true <->
              exists value c, m !! value = Some c /\ Z.testbit value i = true)).
  - rewrite Z.bits_0. split; [discriminate|].
    intros (value & c & Hl & _). rewrite lookup_empty in Hl. discriminate.
  - intros k x m' r Hk IH. rewrite Z.lor_spec, orb_true_iff, IH. split.
    + intros [(value & c & Hl & Hb)|Hb].
      * exists value, c. split; [|exact Hb].
        rewrite lookup_insert_ne by congruence. exact Hl.
      * exists k, x. rewrite lookup_insert_eq. auto.
    + intros (value & c & Hl & Hb).
      destruct (decide (k = value)) as [->|Hne]; [right; exact Hb|].
      left. exists value, c. rewrite lookup_insert_ne in Hl by exact Hne. auto.
Qed.

(** ** Alias chains *)

(** A declaration of a constant, by a value or as the alias of another
    constant. *)
Inductive decl : Type :=
| Literal (name : string) (value : Z)
| AliasOf (name base : string).

Definition declare (fuel : nat) (self : VkEnum.t) (d : decl) : result VkEnum.t :=
  match d with
  | Literal name value =>
      VkEnum.add_value fuel self name (Some value) None None None false
  | AliasOf name base =>
      VkEnum.add_value fuel self name None None None (Some base) false
  end.

(** The declarations of a chain: each name is the alias of the next one,
    the last name has the value [v]. *)
Fixpoint chain_decls (ns : list string) (v : Z) : list decl :=
  match ns with
  | [] => []
  | a :: rest =>
      match rest with
      | [] => [Literal a v]
      | b :: _ => AliasOf a b :: chain_decls rest v
      end
  end.

Fixpoint index_of (x : string) (ns : list string) : nat :=
  match ns with
  | [] => O
  | y :: ns' => if decide (x = y) then O else S (index_of x ns')
  end.

Lemma index_of_lt x ns : x ∈ ns -> (index_of x ns < length ns)%nat.
Proof.
  induction ns as [|y ns IH]; intros Hx; [inversion Hx|]. simpl.
  destruct (decide (x = y)); [lia|].
  apply elem_of_cons in Hx as [?|Hx]; [congruence|]. specialize (IH Hx). lia.
Qed.

Lemma chain_decls_literal ns v t w :
  Literal t w ∈ chain_decls ns v -> t ∈ ns /\ w = v.
Proof.
  induction ns as [|a [|b rest] IH]; simpl; intros H.
  - inversion H.
  - apply list_elem_of_singleton in H. injection H as -> ->. split; [left|reflexivity].
  - apply elem_of_cons in H as [H|H]; [discriminate|].
    destruct (IH H) as [Ht ->]. split; [right; exact Ht|reflexivity].
Qed.

Lemma index_of_head x ns : index_of x (x :: ns) = O.
Proof. simpl. rewrite decide_True by reflexivity. reflexivity. Qed.

Lemma index_of_tail x y ns : x <> y -> index_of x (y :: ns) = S (index_of x ns).
Proof. intros H. simpl. rewrite decide_False by exact H. reflexivity. Qed.

Lemma chain_decls_alias ns v a b :
  NoDup ns -> AliasOf a b ∈ chain_decls ns v ->
  a ∈ ns /\ b ∈ ns /\ (index_of a ns < index_of b ns)%nat.
Proof.
  induction ns as [|a0 [|b0 rest] IH]; intros Hnd H; simpl in H.
  - inversion H.
  - apply list_elem_of_singleton in H. discriminate.
  - apply NoDup_cons in Hnd as [Hnotin Hnd].
    apply elem_of_cons in H as [H|H].
    + injection H as -> ->. split; [left|]. split; [right; left|].
      rewrite index_of_head.
      rewrite index_of_tail by (intros ->; apply Hnotin; left). lia.
    + destruct (IH Hnd H) as (Ha & Hb & Hlt).
      split; [right; exact Ha|]. split; [right; exact Hb|].
      assert (Hane : a <> a0) by (intros ->; tauto).
      assert (Hbne : b <> a0) by (intros ->; tauto).
      rewrite (index_of_tail a a0) by exact Hane.
      rewrite (index_of_tail b a0) by exact Hbne. lia.
Qed.

(** *** The flush ends when the alias lists go down a rank *)

Section Ranked.

Variable C : list string.
Variable rank : string -> nat.
Variable v : Z.

Definition ranked (self : VkEnum.t) : Prop :=
  forall (y : string) l a, y ∈ C -> pending self !! y = Some l -> a ∈ l ->
    a ∈ C /\ (rank a < rank y)%nat.

Lemma resolves_ranked self name tr self' :
  ranked self -> name ∈ C -> resolves v self name tr self' ->
  ranked self' /\ forall a, a ∈ tr -> a ∈ C /\ (rank a <= rank name)%nat.
Proof.
  intros Hrk Hname Hres. split.
  - intros y l a Hy Hl Ha.
    rewrite (resolves_pending v self name tr self' y Hres) in Hl.
    destruct (decide (y ∈ tr)); [discriminate|]. eapply Hrk; eassumption.
  - apply (proj1 (resolves_origin v (fun a => a ∈ C /\ (rank a <= rank name)%nat))
             self name tr self' Hres).
    + intros y l a _ [Hy Hle] Hl Ha. destruct (Hrk y l a Hy Hl Ha). split; [assumption|lia].
    + split; [exact Hname|lia].
Qed.

Lemma flush_ranked_Ok : forall fuel self name,
  name ∈ C -> (rank name < fuel)%nat -> ranked self ->
  exists self', flush fuel self name v = Ok self'.
Proof.
  induction fuel as [|fuel IH]; intros self name Hname Hfuel Hrk; [lia|].
  rewrite flush_S. unfold flush_aliases. rewrite record_value_pending.
  destruct (pending self !! name) as [alias_list|] eqn:Hp; [|eauto].
  assert (Hloop : forall l s,
             (forall a, a ∈ l -> a ∈ C /\ (rank a < rank name)%nat) ->
             ranked s -> is_Some (pending s !! name) ->
             exists s2, for_each (fun self alias => flush fuel self alias v) s l = Ok s2 /\
                        is_Some (pending s2 !! name)).
  { induction l as [|a l IHl]; intros s Hl Hs Hsome; simpl; [eauto|].
    destruct (Hl a) as [HaC Harank]; [left|].
    destruct (IH s a HaC) as (s1 & Hs1); [lia|exact Hs|].
    rewrite Hs1. simpl.
    destruct (flush_resolves v fuel s a s1 Hs1) as (tr & Hres).
    destruct (resolves_ranked s a tr s1 Hs HaC Hres) as [Hs1rk Htr].
    apply IHl; [intros b Hb; apply Hl; right; exact Hb|exact Hs1rk|].
    rewrite (resolves_pending v s a tr s1 name Hres).
    destruct (decide (name ∈ tr)) as [Hin|_]; [|exact Hsome].
    destruct (Htr name Hin). lia. }
  destruct (Hloop alias_list (VkEnum.record_value self name v)) as (s2 & Hs2 & Hsome).
  - intros a Ha. eapply Hrk; eassumption.
  - intros y l a. rewrite record_value_pending. apply Hrk.
  - rewrite record_value_pending, Hp. eauto.
  - rewrite Hs2. simpl. unfold VkEnum.del_alias_list.
    destruct Hsome as [l' ->]. eauto.
Qed.

End Ranked.

(** *** The state of an enum while a chain is being declared *)

Section Chain.

Variable ns : list string.
Variable v : Z.
Hypothesis ns_NoDup : NoDup ns.

Record chain_inv (done : list decl) (self : VkEnum.t) : Prop := {
  ci_values : forall n, n ∈ ns -> n2v self !! n = None \/ n2v self !! n = Some v;
  ci_alias : forall a b, AliasOf a b ∈ done ->
    n2v self !! a = Some v \/
    (n2v self !! b = None /\ exists l, pending self !! b = Some l /\ a ∈ l);
  ci_literal : forall t w, Literal t w ∈ done -> n2v self !! t = Some v;
  ci_pending : forall (b : string) l, b ∈ ns -> pending self !! b = Some l ->
    n2v self !! b = None /\ forall a, a ∈ l -> AliasOf a b ∈ chain_decls ns v
}.

Lemma chain_inv_ranked done self :
  chain_inv done self -> ranked ns (fun x => index_of x ns) self.
Proof.
  intros Hinv y l a Hy Hl Ha.
  destruct (ci_pending done self Hinv y l Hy Hl) as [_ Hal].
  destruct (chain_decls_alias ns v a y ns_NoDup (Hal a Ha)) as (HaC & _ & Hlt).
  split; assumption.
Qed.

Lemma chain_inv_flush done self x fuel :
  chain_inv done self -> x ∈ ns -> (length ns <= fuel)%nat ->
  exists self', flush fuel self x v = Ok self' /\
                chain_inv done self' /\ n2v self' !! x = Some v.
Proof.
  intros Hinv Hx Hfuel.
  pose proof (chain_inv_ranked done self Hinv) as Hrk.
  destruct (flush_ranked_Ok ns (fun x => index_of x ns) v fuel self x Hx) as (self' & Hflush);
    [pose proof (index_of_lt x ns Hx); lia | exact Hrk |].
  exists self'. split; [exact Hflush|].
  destruct (flush_resolves v fuel self x self' Hflush) as (tr & Hres).
  pose proof (fun y => resolves_n2v v self x tr self' y Hres) as Hn.
  pose proof (fun y => resolves_pending v self x tr self' y Hres) as Hp.
  pose proof (proj1 (resolves_closed v) self x tr self' Hres) as Hclosed.
  split; [split|].
  - intros n Hnin. rewrite Hn. destruct (decide (n ∈ tr)); [right; reflexivity|].
    apply (ci_values done self Hinv n Hnin).
  - intros a b Hab. rewrite !Hn.
    destruct (ci_alias done self Hinv a b Hab) as [Ha|(Hb & l & Hl & Hal)].
    + left. destruct (decide (a ∈ tr)); [reflexivity|exact Ha].
    + destruct (decide (b ∈ tr)) as [Hbtr|Hbtr].
      * left. rewrite decide_True by (eapply Hclosed; eassumption). reflexivity.
      * destruct (decide (a ∈ tr)); [left; reflexivity|]. right.
        split; [exact Hb|]. exists l. rewrite Hp, decide_False by exact Hbtr. auto.
  - intros t w Ht. rewrite Hn. destruct (decide (t ∈ tr)); [reflexivity|].
    apply (ci_literal done self Hinv t w Ht).
  - intros b l Hb Hl. rewrite Hp in Hl. rewrite Hn.
    destruct (decide (b ∈ tr)); [discriminate|].
    apply (ci_pending done self Hinv b l Hb Hl).
  - rewrite Hn, decide_True by (eapply resolves_head; eassumption). reflexivity.
Qed.

Lemma chain_inv_extend done self d :
  chain_inv done self ->
  match d with
  | Literal t _ => n2v self !! t = Some v
  | AliasOf a _ => n2v self !! a = Some v
  end ->
  chain_inv (done ++ [d]) self.
Proof.
  intros Hinv Hd. split.
  - apply (ci_values done self Hinv).
  - intros a b Hab. apply elem_of_app in Hab as [Hab|Hab].
    + apply (ci_alias done self Hinv a b Hab).
    + apply list_elem_of_singleton in Hab. subst d. left. exact Hd.
  - intros t w Ht. apply elem_of_app in Ht as [Ht|Ht].
    + apply (ci_literal done self Hinv t w Ht).
    + apply list_elem_of_singleton in Ht. subst d. exact Hd.
  - apply (ci_pending done self Hinv).
Qed.

Lemma chain_inv_declare done self d fuel :
  chain_inv done self -> d ∈ chain_decls ns v -> (length ns <= fuel)%nat ->
  exists self', declare fuel self d = Ok self' /\ chain_inv (done ++ [d]) self'.
Proof.
  intros Hinv Hd Hfuel. destruct d as [t w|a b]; simpl.
  - destruct (chain_decls_literal ns v t w Hd) as [Ht ->].
    destruct (chain_inv_flush done self t fuel Hinv Ht Hfuel) as (self' & Hf & Hinv' & Hn).
    exists self'. split; [exact Hf|]. apply chain_inv_extend; assumption.
  - destruct (chain_decls_alias ns v a b ns_NoDup Hd) as (Ha & Hb & _).
    destruct fuel as [|fuel]; [destruct ns; [inversion Ha|simpl in Hfuel; lia]|].
    rewrite add_value_S. simpl.
    destruct (n2v self !! b) as [w|] eqn:Hbv.
    + destruct (ci_values done self Hinv b Hb) as [Hnone|Hsome]; [congruence|].
      assert (w = v) as -> by congruence.
      rewrite <- flush_S.
      destruct (chain_inv_flush done self a (S fuel) Hinv Ha Hfuel)
        as (self' & Hf & Hinv' & Hn).
      exists self'. split; [exact Hf|]. apply chain_inv_extend; assumption.
    + eexists. split; [reflexivity|]. split; simpl.
      * apply (ci_values done self Hinv).
      * intros a' b' Hab. apply elem_of_app in Hab as [Hab|Hab].
        -- destruct (ci_alias done self Hinv a' b' Hab) as [?|(Hb' & l & Hl & Hal)];
             [left; assumption|].
           right. split; [exact Hb'|].
           destruct (decide (b = b')) as [->|Hne].
           ++ rewrite lookup_insert_eq, Hl. simpl. eexists. split; [reflexivity|].
              apply elem_of_app. left. exact Hal.
           ++ rewrite lookup_insert_ne by exact Hne. eauto.
        -- apply list_elem_of_singleton in Hab. injection Hab as -> ->.
           right. split; [exact Hbv|]. rewrite lookup_insert_eq.
           eexists. split; [reflexivity|]. apply elem_of_app. right. left.
      * intros t w Ht. apply elem_of_app in Ht as [Ht|Ht].
        -- apply (ci_literal done self Hinv t w Ht).
        -- apply list_elem_of_singleton in Ht. discriminate.
      * intros b' l Hb' Hl. destruct (decide (b = b')) as [->|Hne].
        -- rewrite lookup_insert_eq in Hl. injection Hl as <-.
           split; [exact Hbv|]. intros a' Ha'.
           apply elem_of_app in Ha' as [Ha'|Ha'].
           ++ destruct (pending self !! b') as [l0|] eqn:Hl0; simpl in Ha'.
              ** apply (ci_pending done self Hinv b' l0 Hb' Hl0). exact Ha'.
              ** inversion Ha'.
           ++ apply list_elem_of_singleton in Ha' as ->. exact Hd.
        -- rewrite lookup_insert_ne in Hl by exact Hne.
           apply (ci_pending done self Hinv b' l Hb' Hl).
Qed.

Lemma chain_inv_run fuel : forall todo done self,
  chain_inv done self -> (forall d, d ∈ todo -> d ∈ chain_decls ns v) ->
  (length ns <= fuel)%nat ->
  exists self', for_each (declare fuel) self todo = Ok self' /\
                chain_inv (done ++ todo) self'.
Proof.
  induction todo as [|d todo IH]; intros done self Hinv Hsub Hfuel; simpl.
  - exists self. rewrite app_nil_r. auto.
  - destruct (chain_inv_declare done self d fuel Hinv) as (self1 & Hd & Hinv1);
      [apply Hsub; left|exact Hfuel|].
    rewrite Hd. simpl.
    destruct (IH (done ++ [d]) self1 Hinv1) as (self' & Hrun & Hinv');
      [intros d' Hd'; apply Hsub; right; exact Hd'|exact Hfuel|].
    exists self'. split; [exact Hrun|]. rewrite <- app_assoc in Hinv'. exact Hinv'.
Qed.

End Chain.

Lemma chain_resolved_all v self : forall ns,
  (forall a b, AliasOf a b ∈ chain_decls ns v ->
     n2v self !! a = Some v \/ n2v self !! b = None) ->
  (forall t w, Literal t w ∈ chain_decls ns v -> n2v self !! t = Some v) ->
  forall n, n ∈ ns -> n2v self !! n = Some v.
Proof.
  induction ns as [|a [|b rest] IH]; intros Hal Hlit n Hn.
  - inversion Hn.
  - apply list_elem_of_singleton in Hn as ->. apply (Hlit a v). left.
  - assert (Hrest : forall n, n ∈ b :: rest -> n2v self !! n = Some v).
    { apply IH.
      - intros a' b' H. apply Hal. right. exact H.
      - intros t w H. apply (Hlit t w). right. exact H. }
    apply elem_of_cons in Hn as [->|Hn]; [|apply Hrest, Hn].
    destruct (Hal a b) as [H|H]; [left|exact H|].
    rewrite Hrest in H by left. discriminate.
Qed.

(** *** Flushing all that waits *)

(** The call [c] gives its name the value [v]: the value it carries, the
    one computed from its offset, or the value of its base. *)
Definition gives_value (self : VkEnum.t) (c : call) (v : Z) : Prop :=
  match c_alias c with
  | Some b => c_value c = None /\ c_offset c = None /\ n2v self !! b = Some v
  | None =>
      VkEnum.compute_value (c_value c) (c_extnum c) (c_offset c) (c_error c) = Ok v
  end.

Lemma do_call_flush fuel self c v :
  gives_value self c v -> do_call fuel self c = flush fuel self (c_name c) v.
Proof.
  unfold gives_value, do_call. intros H.
  destruct fuel as [|fuel]; [rewrite add_value_0, flush_0; reflexivity|].
  rewrite add_value_S, flush_S. destruct (c_alias c) as [b|].
  - destruct H as (-> & -> & ->). reflexivity.
  - rewrite H. reflexivity.
Qed.

Lemma do_call_flushes_all C rank fuel self c v :
  ranked C rank self -> c_name c ∈ C -> (rank (c_name c) < fuel)%nat ->
  gives_value self c v ->
  exists self', do_call fuel self c = Ok self' /\
    forall a, a = c_name c \/ reaches self (c_name c) a ->
      n2v self' !! a = Some v /\ pending self' !! a = None.
Proof.
  intros Hrk Hname Hfuel Hv. rewrite (do_call_flush fuel self c v Hv).
  destruct (flush_ranked_Ok C rank v fuel self (c_name c) Hname Hfuel Hrk) as (self' & H).
  exists self'. split; [exact H|].
  apply flush_resolves in H as (tr & Hres). eapply resolves_reaches, Hres.
Qed.

(** *** A chain that is longer than the recursion goes deep *)

(** A descent through the alias lists: each name has the next one at the
    head of its list. *)
Fixpoint descends (self : VkEnum.t) (x : string) (path : list string) : Prop :=
  match path with
  | [] => True
  | y :: path' => (exists l, pending self !! x = Some (y :: l)) /\ descends self y path'
  end.

Lemma descends_ext s1 s2 : forall path x,
  (forall n, n ∈ x :: path -> pending s1 !! n = pending s2 !! n) ->
  descends s1 x path -> descends s2 x path.
Proof.
  induction path as [|y path IH]; intros x Heq H; simpl in *; [exact I|].
  destruct H as [(l & Hl) H]. split.
  - exists l. rewrite <- Heq by left. exact Hl.
  - apply IH; [|exact H]. intros n Hn. apply Heq. right. exact Hn.
Qed.

Lemma flush_descends_Raise v : forall fuel self x path,
  descends self x path -> (fuel <= length path)%nat ->
  flush fuel self x v = Raise RecursionError.
Proof.
  induction fuel as [|fuel IH]; intros self x path Hd Hlen; [apply flush_0|].
  destruct path as [|y path]; [simpl in Hlen; lia|].
  destruct Hd as [(l & Hl) Hd]. simpl in Hlen.
  rewrite flush_S. unfold flush_aliases. rewrite record_value_pending, Hl. simpl.
  rewrite (IH (VkEnum.record_value self x v) y path); [reflexivity| |lia].
  apply (descends_ext self); [|exact Hd].
  intros n _. rewrite record_value_pending. reflexivity.
Qed.

Lemma chain_too_long_Raise v fuel : forall rest x path self,
  NoDup (x :: rest) ->
  (forall n, n ∈ x :: path -> n ∉ rest) ->
  (forall n, n ∈ x :: rest -> n2v self !! n = None) ->
  (forall n, n ∈ rest -> pending self !! n = None) ->
  descends self x path ->
  (fuel <= length path + length rest)%nat ->
  for_each (declare fuel) self (chain_decls (x :: rest) v) = Raise RecursionError.
Proof.
  induction rest as [|y rest IH]; intros x path self Hnd Hdisj Hn2v Hpend Hd Hlen.
  - simpl. change (VkEnum.add_value fuel self x (Some v) None None None false)
      with (flush fuel self x v).
    rewrite (flush_descends_Raise v fuel self x path Hd); [reflexivity|].
    simpl in Hlen. lia.
  - change (chain_decls (x :: y :: rest) v)
      with (AliasOf x y :: chain_decls (y :: rest) v).
    simpl for_each. destruct fuel as [|fuel]; [rewrite add_value_0; reflexivity|].
    rewrite add_value_S. simpl. rewrite (Hn2v y) by (right; left). simpl.
    apply NoDup_cons in Hnd as [Hx Hnd]. pose proof Hnd as Hnd'.
    apply NoDup_cons in Hnd' as [Hy _].
    apply (IH y (x :: path)).
    + exact Hnd.
    + intros n Hn Hin. apply elem_of_cons in Hn as [->|Hn]; [tauto|].
      apply (Hdisj n Hn). right. exact Hin.
    + intros n Hn. simpl. apply Hn2v. right. exact Hn.
    + intros n Hn. simpl. rewrite lookup_insert_ne by (intros ->; tauto).
      apply Hpend. right. exact Hn.
    + simpl. split.
      * rewrite lookup_insert_eq, (Hpend y) by left. simpl. eauto.
      * apply (descends_ext self); [|exact Hd].
        intros n Hn. simpl. symmetry. apply lookup_insert_ne.
        intros ->. apply (Hdisj n Hn). left.
    + simpl in *. lia.
Qed.

(** The claim as the specification states it, for one order [ds] of the
    declarations of the chain [ns]: the run ends with every member at the
    value of the last one. *)
Definition chain_resolves (fuel : nat) (self : VkEnum.t) (ns : list string) (v : Z)
    (ds : list decl) : Prop :=
  exists self', for_each (declare fuel) self ds = Ok self' /\
                forall n, n ∈ ns -> n2v self' !! n = Some v.

(** C2, as amended.  The members of an alias chain that is not longer than
    the recursion goes deep, declared in any order in an enum that does not
    know them yet, all resolve to the value of the last member, and none
    of them is left waiting.  An alias whose base has no value yet is put
    at the end of the list kept under the name of the base, and nothing
    else changes.  When a call gives a name its value, every alias that
    waits under the name, and every alias that waits under one of these,
    gets the value and waits no longer, provided that the lists that wait
    go down a rank that stays below the depth of the recursion.  A chain
    that is longer than the recursion goes deep, declared from its first
    alias to its last member, ends in a [RecursionError]. *)
Theorem alias_chain_resolves :
  (forall ns v ds self fuel,
     NoDup ns ->
     ds ≡ₚ chain_decls ns v ->
     (forall n, n ∈ ns -> n2v self !! n = None /\ pending self !! n = None) ->
     (length ns <= fuel)%nat ->
     exists self', for_each (declare fuel) self ds = Ok self' /\
       forall n, n ∈ ns -> n2v self' !! n = Some v /\ pending self' !! n = None) /\
  (forall fuel self a b,
     n2v self !! b = None ->
     declare (S fuel) self (AliasOf a b) = Ok (VkEnum.defer_alias self b a) /\
     pending (VkEnum.defer_alias self b a) !! b =
       Some (default [] (pending self !! b) ++ [a]) /\
     n2v (VkEnum.defer_alias self b a) = n2v self /\
     VkEnum.values (VkEnum.defer_alias self b a) = VkEnum.values self) /\
  (forall C rank fuel self c v,
     ranked C rank self -> c_name c ∈ C -> (rank (c_name c) < fuel)%nat ->
     gives_value self c v ->
     exists self', do_call fuel self c = Ok self' /\
       forall a, a = c_name c \/ reaches self (c_name c) a ->
         n2v self' !! a = Some v /\ pending self' !! a = None) /\
  (forall ns v self fuel,
     ns <> [] -> NoDup ns ->
     (forall n, n ∈ ns -> n2v self !! n = None /\ pending self !! n = None) ->
     (fuel < length ns)%nat ->
     for_each (declare fuel) self (chain_decls ns v) = Raise RecursionError).
Proof.
  split; [|split; [|split]].
  - intros ns v ds self fuel Hnd Hperm Hfresh Hfuel.
    assert (Hinit : chain_inv ns v [] self).
    { split.
      - intros n Hn. left. apply Hfresh, Hn.
      - intros a b H. inversion H.
      - intros t w H. inversion H.
      - intros b l Hb Hl. destruct (Hfresh b Hb) as [_ Hnone]. congruence. }
    destruct (chain_inv_run ns v Hnd fuel ds [] self Hinit) as (self' & Hrun & Hinv).
    { intros d Hd. rewrite <- Hperm. exact Hd. }
    { exact Hfuel. }
    exists self'. split; [exact Hrun|]. simpl in Hinv.
    assert (Hall : forall n, n ∈ ns -> n2v self' !! n = Some v).
    { apply chain_resolved_all.
      - intros a b Hab. rewrite <- Hperm in Hab.
        destruct (ci_alias ns v ds self' Hinv a b Hab) as [?|[? _]]; auto.
      - intros t w Ht. rewrite <- Hperm in Ht.
        apply (ci_literal ns v ds self' Hinv t w Ht). }
    intros n Hn. split; [apply Hall, Hn|].
    destruct (pending self' !! n) as [l|] eqn:Hl; [|reflexivity].
    destruct (ci_pending ns v ds self' Hinv n l Hn Hl) as [Hnone _].
    rewrite Hall in Hnone by exact Hn. discriminate.
  - intros fuel self a b Hb. simpl. rewrite add_value_S. simpl. rewrite Hb.
    split; [reflexivity|]. simpl. rewrite lookup_insert_eq. auto.
  - apply do_call_flushes_all.
  - intros ns v self fuel Hne Hnd Hfresh Hfuel.
    destruct ns as [|x rest]; [congruence|].
    apply (chain_too_long_Raise v fuel rest x []).
    + exact Hnd.
    + intros n Hn. apply list_elem_of_singleton in Hn as ->.
      apply NoDup_cons in Hnd as [Hx _]. exact Hx.
    + intros n Hn. apply Hfresh, Hn.
    + intros n Hn. apply Hfresh. right. exact Hn.
    + exact I.
    + simpl in *. lia.
Qed.

(** ** Aliases whose base never gets a value *)

Lemma registers_values_from v tr : forall self w c,
  VkEnum.values (registers v tr self) !! w = Some c ->
  c ∈ tr \/ VkEnum.values self !! w = Some c.
Proof.
  induction tr as [|a tr IH]; intros self w c H; simpl in H; [right; exact H|].
  apply IH in H as [H|H]; [left; right; exact H|].
  rewrite record_value_values in H.
  destruct (VkEnum.values self !! v) as [old|] eqn:Hold.
  - destruct (_ <? _)%nat; [|right; exact H].
    destruct (decide (v = w)) as [->|Hne].
    + rewrite lookup_insert_eq in H. injection H as <-. left. left.
    + rewrite lookup_insert_ne in H by exact Hne. right. exact H.
  - destruct (decide (v = w)) as [->|Hne].
    + rewrite lookup_insert_eq in H. injection H as <-. left. left.
    + rewrite lookup_insert_ne in H by exact Hne. right. exact H.
Qed.

Lemma do_call_n2v_mono fuel self c self' (y : string) :
  do_call fuel self c = Ok self' -> is_Some (n2v self !! y) -> is_Some (n2v self' !! y).
Proof.
  intros H Hy. apply add_value_Ok in H as [(b & _ & _ & ->)|(v & tr & Hres & _)].
  - exact Hy.
  - rewrite (resolves_n2v v self _ tr self' y Hres).
    destruct (decide (y ∈ tr)); [eauto|exact Hy].
Qed.

Lemma run_n2v_mono fuel (y : string) : forall calls self self',
  for_each (do_call fuel) self calls = Ok self' ->
  is_Some (n2v self !! y) -> is_Some (n2v self' !! y).
Proof.
  induction calls as [|c calls IH]; intros self self' H Hy; simpl in H.
  - injection H as <-. exact Hy.
  - apply bind_Ok in H as (s1 & Hc & Hrest).
    eapply IH; [exact Hrest|]. eapply do_call_n2v_mono; eassumption.
Qed.

Section Omitted.

Variables a b : string.

(** [a] has no value, is no canonical name, and waits under [b] only. *)
Definition omitted (self : VkEnum.t) : Prop :=
  n2v self !! a = None /\
  (forall v, VkEnum.values self !! v <> Some a) /\
  (forall (y : string) l, pending self !! y = Some l -> a ∈ l -> y = b).

Definition waits (self : VkEnum.t) : Prop :=
  exists l, pending self !! b = Some l /\ a ∈ l.

Lemma omitted_step fuel self c self' :
  omitted self ->
  do_call fuel self c = Ok self' ->
  (c_name c = a -> c_alias c = Some b) ->
  n2v self' !! b = None ->
  omitted self' /\ (c_name c = a \/ waits self -> waits self').
Proof.
  intros (Hn & Hv & Hp) Hcall Honly Hb.
  apply add_value_Ok in Hcall as [(b' & Hal & Hb' & ->)|(v & tr & Hres & Hval)].
  - split; [split; [exact Hn|split; [exact Hv|]]|].
    + intros y l Hl Ha. simpl in Hl.
      destruct (decide (b' = y)) as [->|Hne].
      * rewrite lookup_insert_eq in Hl. injection Hl as <-.
        apply elem_of_app in Ha as [Ha|Ha].
        -- destruct (pending self !! y) as [l0|] eqn:Hl0; simpl in Ha.
           ++ eapply Hp; eassumption.
           ++ inversion Ha.
        -- apply list_elem_of_singleton in Ha. symmetry in Ha.
           specialize (Honly Ha). congruence.
      * rewrite lookup_insert_ne in Hl by exact Hne. eapply Hp; eassumption.
    + intros [Hname|(l & Hl & Ha)]; unfold waits; simpl.
      * specialize (Honly Hname). assert (b' = b) as -> by congruence.
        rewrite lookup_insert_eq. eexists. split; [reflexivity|].
        apply elem_of_app. right. rewrite Hname. left.
      * destruct (decide (b' = b)) as [->|Hne].
        -- rewrite lookup_insert_eq, Hl. simpl. eexists. split; [reflexivity|].
           apply elem_of_app. left. exact Ha.
        -- rewrite lookup_insert_ne by exact Hne. eauto.
  - pose proof (fun y => resolves_n2v v self _ tr self' y Hres) as Hn'.
    pose proof (fun y => resolves_pending v self _ tr self' y Hres) as Hp'.
    assert (Hbtr : b ∉ tr).
    { intros Hin. rewrite Hn', decide_True in Hb by exact Hin. discriminate. }
    assert (Hname : c_name c <> a).
    { intros Hname. rewrite (Honly Hname) in Hval.
      rewrite Hn' in Hb. destruct (decide (b ∈ tr)); congruence. }
    assert (Hatr : a ∉ tr).
    { intros Hin.
      apply (proj1 (resolves_origin v (fun x => x <> a)) self _ tr self' Hres)
        with (a := a); [|exact Hname|exact Hin|reflexivity].
      intros y l x Hy _ Hl Hx ->. apply Hbtr.
      rewrite <- (Hp y l Hl Hx). exact Hy. }
    split; [split; [|split]|].
    + rewrite Hn', decide_False by exact Hatr. exact Hn.
    + intros w Hw.
      pose proof (proj1 (resolves_effect v) _ _ _ _ Hres) as Heff.
      rewrite Heff in Hw. simpl in Hw.
      apply registers_values_from in Hw as [Hw|Hw]; [tauto|]. exact (Hv w Hw).
    + intros y l Hl Ha. rewrite Hp' in Hl.
      destruct (decide (y ∈ tr)); [discriminate|]. eapply Hp; eassumption.
    + intros [?|(l & Hl & Ha)]; [tauto|]. exists l.
      rewrite Hp', decide_False by exact Hbtr. auto.
Qed.

Lemma omitted_run fuel : forall calls self self',
  omitted self ->
  for_each (do_call fuel) self calls = Ok self' ->
  (forall c, c ∈ calls -> c_name c = a -> c_alias c = Some b) ->
  n2v self' !! b = None ->
  omitted self' /\
  ((exists c, c ∈ calls /\ c_name c = a) \/ waits self -> waits self').
Proof.
  induction calls as [|c calls IH]; intros self self' Hom Hrun Honly Hb; simpl in Hrun.
  - injection Hrun as <-. split; [exact Hom|].
    intros [(c & Hc & _)|Hw]; [inversion Hc|exact Hw].
  - apply bind_Ok in Hrun as (s1 & Hc & Hrest).
    assert (Hb1 : n2v s1 !! b = None).
    { destruct (n2v s1 !! b) as [w|] eqn:Hw; [|reflexivity].
      destruct (run_n2v_mono fuel b calls s1 self' Hrest) as [w' Hw'];
        [rewrite Hw; eauto|congruence]. }
    destruct (omitted_step fuel self c s1 Hom Hc) as [Hom1 Hw1];
      [apply Honly; left|exact Hb1|].
    destruct (IH s1 self' Hom1 Hrest) as [Hom' Hw'];
      [intros c' Hc'; apply Honly; right; exact Hc'|exact Hb|].
    split; [exact Hom'|].
    intros [(c' & Hc' & Hname)|Hw]; apply Hw'.
    + apply elem_of_cons in Hc' as [->|Hc'].
      * right. apply Hw1. left. exact Hname.
      * left. eauto.
    + right. apply Hw1. right. exact Hw.
Qed.

End Omitted.

(** C10. An alias of a base that has no value is put aside without any
    error: the call returns, and the two maps of resolved values are as
    before.  When in a whole run the name [a] is declared only as an alias
    of [b], and [b] has no value at the end, then [a] has no value, is the
    canonical name of no value, and is still on the list kept under
    [b]. *)
Theorem alias_of_unresolved_base_omitted :
  (forall fuel self a b extnum error,
     n2v self !! b = None ->
     VkEnum.add_value (S fuel) self a None extnum None (Some b) error =
       Ok (VkEnum.defer_alias self b a) /\
     n2v (VkEnum.defer_alias self b a) = n2v self /\
     VkEnum.values (VkEnum.defer_alias self b a) = VkEnum.values self) /\
  (forall fuel calls name bitwidth self' a b,
     for_each (do_call fuel) (VkEnum.init name bitwidth None) calls = Ok self' ->
     (forall c, c ∈ calls -> c_name c = a -> c_alias c = Some b) ->
     (exists c, c ∈ calls /\ c_name c = a) ->
     n2v self' !! b = None ->
     n2v self' !! a = None /\
     (forall v, VkEnum.values self' !! v <> Some a) /\
     exists l, pending self' !! b = Some l /\ a ∈ l).
Proof.
  split.
  - intros fuel self a b extnum error Hb. rewrite add_value_S. simpl. rewrite Hb.
    auto.
  - intros fuel calls name bitwidth self' a b Hrun Honly Hdecl Hb.
    destruct (omitted_run a b fuel calls (VkEnum.init name bitwidth None) self')
      as [(Hn & Hv & _) Hw]; try assumption.
    + split; [reflexivity|]. split.
      * intros v H. simpl in H. rewrite lookup_empty in H. discriminate.
      * intros y l H. simpl in H. rewrite lookup_empty in H. discriminate.
    + split; [exact Hn|]. split; [exact Hv|]. apply Hw. left. exact Hdecl.
Qed.

Lemma alias_of_unresolved_base_omitted_witness :
  VkEnum.add_value 1 (VkEnum.init "VkX" 32 None) "A" None None None (Some "B") false =
    Ok (VkEnum.defer_alias (VkEnum.init "VkX" 32 None) "B" "A") /\
  exists self',
    for_each (do_call 2) (VkEnum.init "VkX" 32 None)
      [mk_call "A" None None None (Some "B") false;
       mk_call "C" (Some 1) None None None false] = Ok self' /\
    n2v self' !! "A" = None /\
    (forall v, VkEnum.values self' !! v <> Some "A") /\
    exists l, pending self' !! "B" = Some l /\ "A" ∈ l.
Proof.
  split.
  - apply (proj1 alias_of_unresolved_base_omitted 0%nat (VkEnum.init "VkX" 32 None)
             "A" "B" None false).
    reflexivity.
  - eexists. split; [vm_compute; reflexivity|].
    apply (proj2 alias_of_unresolved_base_omitted 2%nat
             [mk_call "A" None None None (Some "B") false;
              mk_call "C" (Some 1) None None None false] "VkX" 32 _ "A" "B").
    + vm_compute. reflexivity.
    + intros c Hc Hn. apply elem_of_cons in Hc as [->|Hc]; [reflexivity|].
      apply list_elem_of_singleton in Hc as ->. discriminate Hn.
    + eexists. split; [left|reflexivity].
    + vm_compute. reflexivity.
Defined.

(** ** The sentinel name *)

(** The conversion as the specification words it: an underscore goes before
    each capital that is not preceded by a capital; the first character has
    nothing before it to be separated from. *)
Fixpoint snake_from (prev : ascii) (s : string) : string :=
  match s with
  | EmptyString => EmptyString
  | String c s' =>
      if is_upper c && negb (is_upper prev)
      then String "_" (String c (snake_from c s'))
      else String c (snake_from c s')
  end.

Definition upper_snake_case (s : string) : string :=
  match s with
  | EmptyString => EmptyString
  | String c s' => upper (String c (snake_from c s'))
  end.

(** The sentinel as the specification words it. *)
Definition sentinel_spec (s : string) : string :=
  let u := upper_snake_case s in
  let segments := split_underscore u in
  let tag := List.last segments EmptyString in
  if bool_decide (tag ∈ vendor_tags)
  then join_underscore (removelast segments) +:+ "_MAX_ENUM_" +:+ tag
  else u +:+ "_MAX_ENUM".

Definition two_leading_capitals (s : string) : bool :=
  match s with
  | String c0 (String c1 _) => is_upper c0 && is_upper c1
  | _ => false
  end.

Fixpoint has_underscore (s : string) : bool :=
  match s with
  | EmptyString => false
  | String c s' => Ascii.eqb c "_" || has_underscore s'
  end.

Lemma re_sub_caps_snake_from s : forall c,
  re_sub_caps (is_upper c) s = snake_from c s.
Proof.
  induction s as [|c' s IH]; intros c; simpl; [reflexivity|].
  destruct (is_upper c' && negb (is_upper c)) eqn:H.
  - apply andb_true_iff in H as [Hc' _].
    rewrite <- IH, Hc'. reflexivity.
  - rewrite IH. reflexivity.
Qed.

Lemma CamelCase_to_SHOUT_CASE_spec s :
  two_leading_capitals s = false ->
  CamelCase_to_SHOUT_CASE s = upper_snake_case s.
Proof.
  unfold CamelCase_to_SHOUT_CASE, upper_snake_case.
  destruct s as [|c0 s]; [reflexivity|]. simpl slice_to_1. simpl slice_from_1.
  intros H. change (String c0 EmptyString +:+ ?t) with (String c0 t).
  f_equal. f_equal. rewrite <- re_sub_caps_snake_from.
  destruct (is_upper c0) eqn:Hc0; [|reflexivity].
  destruct s as [|c1 s]; [reflexivity|]. simpl in H. rewrite Hc0 in H. simpl in H.
  simpl. rewrite H. reflexivity.
Qed.

Lemma split_underscore_nonempty s : split_underscore s <> [].
Proof.
  destruct s as [|c s]; simpl; [discriminate|].
  destruct (Ascii.eqb c "_"); [discriminate|].
  destruct (split_underscore s); discriminate.
Qed.

Lemma join_underscore_cons_char c seg segs :
  join_underscore (String c seg :: segs) = String c (join_underscore (seg :: segs)).
Proof. destruct segs; reflexivity. Qed.

Lemma join_split_underscore s : join_underscore (split_underscore s) = s.
Proof.
  induction s as [|c s IH]; [reflexivity|]. simpl.
  pose proof (split_underscore_nonempty s) as Hne.
  destruct (split_underscore s) as [|seg segs]; [congruence|].
  destruct (Ascii.eqb c "_") eqn:Hc.
  - apply Ascii.eqb_eq in Hc as ->.
    change (join_underscore (EmptyString :: seg :: segs))
      with (String "_" (join_underscore (seg :: segs))).
    rewrite IH. reflexivity.
  - rewrite join_underscore_cons_char, IH. reflexivity.
Qed.

Lemma split_underscore_plain tag :
  has_underscore tag = false -> split_underscore tag = [tag].
Proof.
  induction tag as [|c tag IH]; simpl; [reflexivity|].
  intros H. apply orb_false_iff in H as [Hc Htag].
  rewrite Hc, (IH Htag). reflexivity.
Qed.

Lemma split_underscore_snoc tag : has_underscore tag = false ->
  forall p, split_underscore (p +:+ "_" +:+ tag) = split_underscore p ++ [tag].
Proof.
  intros Htag. induction p as [|c p IH].
  - change (EmptyString +:+ "_" +:+ tag) with (String "_" tag). simpl.
    rewrite (split_underscore_plain tag Htag). reflexivity.
  - change (String c p +:+ "_" +:+ tag) with (String c (p +:+ "_" +:+ tag)).
    simpl. rewrite IH.
    pose proof (split_underscore_nonempty p) as Hne.
    destruct (split_underscore p) as [|seg segs]; [congruence|].
    destruct (Ascii.eqb c "_"); reflexivity.
Qed.

Lemma string_app_cons c a b : String c a +:+ b = String c (a +:+ b).
Proof. reflexivity. Qed.

Lemma string_app_assoc a b c : (a +:+ b) +:+ c = a +:+ (b +:+ c).
Proof.
  induction a as [|x a IH]; [reflexivity|].
  rewrite !string_app_cons, IH. reflexivity.
Qed.

Lemma join_underscore_snoc l x :
  join_underscore (l ++ [x]) =
  match l with
  | [] => x
  | _ => join_underscore l +:+ "_" +:+ x
  end.
Proof.
  induction l as [|a l IH]; [reflexivity|].
  destruct l as [|b l]; [reflexivity|].
  change (join_underscore ((a :: b :: l) ++ [x]))
    with (a +:+ "_" +:+ join_underscore ((b :: l) ++ [x])).
  rewrite IH.
  change (join_underscore (a :: b :: l)) with (a +:+ "_" +:+ join_underscore (b :: l)).
  rewrite !string_app_assoc. reflexivity.
Qed.

Lemma last_rsplit_underscore_1 u :
  List.last (rsplit_underscore_1 u) EmptyString =
  List.last (split_underscore u) EmptyString.
Proof.
  unfold rsplit_underscore_1.
  pose proof (split_underscore_nonempty u) as Hne.
  destruct (split_underscore u) as [|seg [|seg' segs]]; [congruence|reflexivity|].
  reflexivity.
Qed.

Lemma compute_max_enum_name_unfold s :
  compute_max_enum_name s =
  let u := CamelCase_to_SHOUT_CASE s in
  let segments := split_underscore u in
  let tag := List.last segments EmptyString in
  if bool_decide (tag ∈ vendor_tags)
  then join_underscore (removelast segments) +:+ "_MAX_ENUM_" +:+ tag
  else u +:+ "_MAX_ENUM".
Proof.
  unfold compute_max_enum_name. cbv zeta. rewrite last_rsplit_underscore_1.
  reflexivity.
Qed.

Lemma vendor_tags_plain tag : tag ∈ vendor_tags -> has_underscore tag = false.
Proof.
  unfold vendor_tags. intros H.
  repeat (apply elem_of_cons in H as [->|H]; [reflexivity|]).
  inversion H.
Qed.

Lemma last_split_underscore u tag :
  List.last (split_underscore u) EmptyString = tag ->
  u = tag \/ exists p, u = p +:+ "_" +:+ tag.
Proof.
  intros Hlast. pose proof (split_underscore_nonempty u) as Hne.
  pose proof (join_split_underscore u) as Hjoin.
  rewrite (app_removelast_last EmptyString Hne), Hlast in Hjoin.
  rewrite join_underscore_snoc in Hjoin.
  destruct (removelast (split_underscore u)) as [|a l]; [left; congruence|].
  right. eexists. symmetry. exact Hjoin.
Qed.

(** C5, as amended.  For every identifier that does not begin with two
    capitals (so for every identifier in [Vk...]) the sentinel name is the
    one the specification describes: the identifier in upper snake case,
    then the vendor tag, when the last segment is one, moved behind
    [_MAX_ENUM_], else [_MAX_ENUM] appended.  What [compute_max_enum_name]
    does with the segments is given on the text itself: [p_TAG] becomes
    [p_MAX_ENUM_TAG], a lone [TAG] becomes [_MAX_ENUM_TAG], any other text
    gets [_MAX_ENUM] appended. *)
Theorem sentinel_name_amended :
  (forall s, two_leading_capitals s = false ->
     compute_max_enum_name s = sentinel_spec s) /\
  (forall s p tag, tag ∈ vendor_tags ->
     CamelCase_to_SHOUT_CASE s = p +:+ "_" +:+ tag ->
     compute_max_enum_name s = p +:+ "_MAX_ENUM_" +:+ tag) /\
  (forall s tag, tag ∈ vendor_tags ->
     CamelCase_to_SHOUT_CASE s = tag ->
     compute_max_enum_name s = "_MAX_ENUM_" +:+ tag) /\
  (forall s,
     (forall tag, tag ∈ vendor_tags ->
        CamelCase_to_SHOUT_CASE s <> tag /\
        forall p, CamelCase_to_SHOUT_CASE s <> p +:+ "_" +:+ tag) ->
     compute_max_enum_name s = CamelCase_to_SHOUT_CASE s +:+ "_MAX_ENUM") /\
  compute_max_enum_name "VkResult" = "VK_RESULT_MAX_ENUM" /\
  compute_max_enum_name "VkDebugReportObjectTypeEXT" =
    "VK_DEBUG_REPORT_OBJECT_TYPE_MAX_ENUM_EXT".
Proof.
  split; [|split; [|split; [|split; [|split]]]].
  - intros s Hs. rewrite compute_max_enum_name_unfold. unfold sentinel_spec.
    rewrite (CamelCase_to_SHOUT_CASE_spec s Hs). reflexivity.
  - intros s p tag Htag Hu. rewrite compute_max_enum_name_unfold. cbv zeta.
    rewrite Hu, (split_underscore_snoc tag (vendor_tags_plain tag Htag) p).
    rewrite last_last, removelast_last, join_split_underscore.
    rewrite bool_decide_eq_true_2 by exact Htag. reflexivity.
  - intros s tag Htag Hu. rewrite compute_max_enum_name_unfold. cbv zeta.
    rewrite Hu, (split_underscore_plain tag (vendor_tags_plain tag Htag)). simpl.
    rewrite bool_decide_eq_true_2 by exact Htag. reflexivity.
  - intros s Hno. rewrite compute_max_enum_name_unfold. cbv zeta.
    rewrite bool_decide_eq_false_2; [reflexivity|].
    intros Htag. destruct (Hno _ Htag) as [H1 H2].
    destruct (last_split_underscore (CamelCase_to_SHOUT_CASE s) _ eq_refl) as [H|[p H]].
    + exact (H1 H).
    + exact (H2 p H).
  - vm_compute. reflexivity.
  - vm_compute. reflexivity.
Qed.

Lemma sentinel_name_amended_witness :
  two_leading_capitals "VkResult" = false /\
  compute_max_enum_name "VkResult" = sentinel_spec "VkResult" /\
  compute_max_enum_name "VkFooEXT" = "VK_FOO" +:+ "_MAX_ENUM_" +:+ "EXT" /\
  compute_max_enum_name "Ext" = "_MAX_ENUM_" +:+ "EXT" /\
  compute_max_enum_name "VkResult" = CamelCase_to_SHOUT_CASE "VkResult" +:+ "_MAX_ENUM".
Proof.
  split; [reflexivity|]. split; [|split; [|split]].
  - apply (proj1 sentinel_name_amended "VkResult"). reflexivity.
  - apply (proj1 (proj2 sentinel_name_amended) "VkFooEXT" "VK_FOO" "EXT").
    + apply (bool_decide_unpack _). vm_compute. exact I.
    + vm_compute. reflexivity.
  - apply (proj1 (proj2 (proj2 sentinel_name_amended)) "Ext" "EXT").
    + apply (bool_decide_unpack _). vm_compute. exact I.
    + vm_compute. reflexivity.
  - apply (proj1 (proj2 (proj2 (proj2 sentinel_name_amended))) "VkResult").
    intros tag Htag.
    assert (Hlast : forall u, u = tag \/ (exists p, u = p +:+ "_" +:+ tag) ->
                              List.last (split_underscore u) EmptyString = tag).
    { intros u [->|[p ->]].
      - rewrite (split_underscore_plain tag (vendor_tags_plain tag Htag)). reflexivity.
      - rewrite (split_underscore_snoc tag (vendor_tags_plain tag Htag)).
        apply last_last. }
    assert (Hno : List.last (split_underscore (CamelCase_to_SHOUT_CASE "VkResult"))
                    EmptyString = tag -> False).
    { intros H. rewrite <- H in Htag. vm_compute in Htag.
      repeat (apply elem_of_cons in Htag as [Htag|Htag]; [discriminate Htag|]).
      inversion Htag. }
    split.
    + intros H. apply Hno, Hlast. left. exact H.
    + intros p H. apply Hno, Hlast. right. exists p. exact H.
Defined.

(** The claim as the specification states it, for every identifier, fails
    on an identifier with two leading capitals: the code puts an underscore
    between them. *)
Lemma sentinel_name_counterexample :
  compute_max_enum_name "ABc" = "A_BC_MAX_ENUM" /\
  sentinel_spec "ABc" = "ABC_MAX_ENUM" /\
  ~ (forall s, compute_max_enum_name s = sentinel_spec s).
Proof.
  split; [vm_compute; reflexivity|]. split; [vm_compute; reflexivity|].
  intros H. specialize (H "ABc"). vm_compute in H. discriminate H.
Qed.

(** ** The order of emission *)

Section Sorted.

Context {T : Type} (leb : T -> T -> bool).
Hypothesis leb_total : forall x y, leb x y = true \/ leb y x = true.
Hypothesis leb_trans : forall x y z, leb x y = true -> leb y z = true -> leb x z = true.

Lemma insert_sorted_Permutation x l : insert_sorted leb x l ≡ₚ x :: l.
Proof.
  induction l as [|y l IH]; simpl; [reflexivity|].
  destruct (leb x y); [reflexivity|]. rewrite IH. apply perm_swap.
Qed.

Lemma sorted_Permutation l : sorted leb l ≡ₚ l.
Proof.
  induction l as [|x l IH]; simpl; [reflexivity|].
  unfold sorted in IH. rewrite insert_sorted_Permutation, IH. reflexivity.
Qed.

Lemma insert_sorted_StronglySorted x l :
  StronglySorted (fun a b => leb a b = true) l ->
  StronglySorted (fun a b => leb a b = true) (insert_sorted leb x l).
Proof.
  induction 1 as [|y l Hl IH Hy]; simpl.
  - repeat constructor.
  - destruct (leb x y) eqn:Hxy.
    + constructor; [constructor; assumption|].
      constructor; [exact Hxy|].
      eapply Forall_impl; [exact Hy|]. intros z Hz. eapply leb_trans; eassumption.
    + constructor; [exact IH|].
      rewrite insert_sorted_Permutation. constructor; [|exact Hy].
      destruct (leb_total x y); congruence.
Qed.

Lemma sorted_StronglySorted l :
  StronglySorted (fun a b => leb a b = true) (sorted leb l).
Proof.
  induction l as [|x l IH]; simpl; [constructor|].
  apply insert_sorted_StronglySorted, IH.
Qed.

End Sorted.

Lemma string_leb_total s1 s2 : String.leb s1 s2 = true \/ String.leb s2 s1 = true.
Proof. apply String.leb_total. Qed.

Lemma string_leb_trans s1 s2 s3 :
  String.leb s1 s2 = true -> String.leb s2 s3 = true -> String.leb s1 s3 = true.
Proof.
  intros H1 H2. apply Is_true_true. apply Is_true_true in H1, H2.
  exact (transitivity (R := String.le) H1 H2).
Qed.

Lemma sorted_by_name_StronglySorted {T : Type} (key : T -> string) l :
  StronglySorted (fun x y => String.leb (key x) (key y) = true) (sorted_by_name key l).
Proof.
  apply (sorted_StronglySorted (fun x y => String.leb (key x) (key y))).
  - intros x y. apply string_leb_total.
  - intros x y z. apply string_leb_trans.
Qed.

Lemma sorted_by_name_names {T : Type} (key : T -> string) l :
  StronglySorted (fun a b => String.leb a b = true) (map key (sorted_by_name key l)).
Proof.
  apply (StronglySorted_fmap key (fun x y => String.leb (key x) (key y) = true));
    [auto|]. apply sorted_by_name_StronglySorted.
Qed.

Lemma sorted_by_name_unique {T : Type} (key : T -> string) l1 l2 :
  NoDup (map key l1) -> l1 ≡ₚ l2 -> sorted_by_name key l1 = sorted_by_name key l2.
Proof.
  intros Hnd Hperm.
  apply (StronglySorted_unique_strong (fun x y => String.leb (key x) (key y) = true)).
  - intros x1 x2 Hx1 Hx2 H12 H21.
    unfold sorted_by_name in Hx1, Hx2. rewrite sorted_Permutation in Hx1, Hx2.
    rewrite <- Hperm in Hx2.
    pose proof (String.leb_antisym _ _ H12 H21) as Hkey.
    clear H12 H21 Hperm. induction l1 as [|y l1 IH]; [inversion Hx1|].
    simpl in Hnd. apply NoDup_cons in Hnd as [Hy Hnd].
    apply elem_of_cons in Hx1 as [->|Hx1]; apply elem_of_cons in Hx2 as [->|Hx2].
    + reflexivity.
    + exfalso. apply Hy. rewrite Hkey. apply list_elem_of_fmap_2. exact Hx2.
    + exfalso. apply Hy. rewrite <- Hkey. apply list_elem_of_fmap_2. exact Hx1.
    + apply IH; assumption.
  - apply sorted_by_name_StronglySorted.
  - apply sorted_by_name_StronglySorted.
  - unfold sorted_by_name. rewrite !sorted_Permutation. exact Hperm.
Qed.

Lemma StronglySorted_List_filter {A : Type} (R : A -> A -> Prop) (f : A -> bool) l :
  StronglySorted R l -> StronglySorted R (List.filter f l).
Proof.
  induction 1 as [|x l Hl IH Hx]; simpl; [constructor|].
  destruct (f x); [|exact IH]. constructor; [exact IH|].
  apply List.Forall_forall. intros y Hy. apply List.filter_In in Hy as [Hy _].
  rewrite List.Forall_forall in Hx. apply Hx, Hy.
Qed.

Lemma StronglySorted_le_lt (l : list Z) :
  NoDup l -> StronglySorted (fun a b => Z.leb a b = true) l -> StronglySorted Z.lt l.
Proof.
  intros Hnd H. induction H as [|x l Hl IH Hx]; [constructor|].
  apply NoDup_cons in Hnd as [Hnotin Hnd]. constructor; [apply IH, Hnd|].
  apply Forall_forall. intros y Hy. rewrite Forall_forall in Hx.
  specialize (Hx y Hy). apply Z.leb_le in Hx.
  assert (x <> y) by (intros ->; exact (Hnotin Hy)). lia.
Qed.

Lemma sorted_keys_lt {A : Type} (m : gmap Z A) :
  StronglySorted Z.lt (sorted Z.leb (map_to_list m).*1).
Proof.
  apply StronglySorted_le_lt.
  - rewrite sorted_Permutation. apply NoDup_fst_map_to_list.
  - apply sorted_StronglySorted.
    + intros x y. rewrite !Z.leb_le. lia.
    + intros x y z. rewrite !Z.leb_le. lia.
Qed.

Lemma omap_lookup_keys {A : Type} (m : gmap Z A) (ks : list Z) :
  (forall v, v ∈ ks -> is_Some (m !! v)) ->
  (omap (fun v => (fun n => (v, n)) <$> (m !! v)) ks).*1 = ks.
Proof.
  induction ks as [|k ks IH]; intros Hks; [reflexivity|].
  destruct (Hks k) as [n Hn]; [left|].
  change (omap ?f (k :: ks)) with (match f k with Some y => y :: omap f ks | None => omap f ks end).
  cbv beta. rewrite Hn. simpl. f_equal. apply IH. intros v Hv. apply Hks. right. exact Hv.
Qed.

Lemma sorted_keys_cases {A : Type} (m : gmap Z A) :
  (omap (fun v => (fun n => (v, n)) <$> (m !! v)) (sorted Z.leb (map_to_list m).*1)).*1 =
  sorted Z.leb (map_to_list m).*1.
Proof.
  apply omap_lookup_keys. intros v Hv. rewrite sorted_Permutation in Hv.
  apply list_elem_of_fmap in Hv as ([k n] & -> & Hkn).
  apply elem_of_map_to_list in Hkn. simpl. eauto.
Qed.

Lemma fn_cases_sorted enum :
  StronglySorted Z.lt (fn_cases (render_to_str_function enum)).*1.
Proof. simpl. rewrite sorted_keys_cases. apply sorted_keys_lt. Qed.

(** A case [v] with the name [n] is emitted exactly when [n] is the
    canonical name of [v]: one case for each value. *)
Lemma fn_cases_canonical enum v n :
  (v, n) ∈ fn_cases (render_to_str_function enum) <-> VkEnum.values enum !! v = Some n.
Proof.
  simpl. rewrite list_elem_of_omap. split.
  - intros (k & _ & Hk). destruct (VkEnum.values enum !! k) as [n'|] eqn:Hn';
      simpl in Hk; [|discriminate]. injection Hk as -> ->. exact Hn'.
  - intros Hn. exists v. rewrite Hn. split; [|reflexivity].
    rewrite sorted_Permutation. apply list_elem_of_fmap.
    exists (v, n). split; [reflexivity|]. apply elem_of_map_to_list. exact Hn.
Qed.

(** * The generator as a whole *)

Lemma for_each_ext {S A : Type} (body1 body2 : S -> A -> result S) l :
  (forall a, a ∈ l -> forall s, body1 s a = body2 s a) ->
  forall s, for_each body1 s l = for_each body2 s l.
Proof.
  induction l as [|a l IH]; intros H s; simpl; [reflexivity|].
  rewrite (H a) by left. destruct (body2 s a) as [s'|x]; simpl; [|reflexivity].
  apply IH. intros a' Ha'. apply H. right. exact Ha'.
Qed.

Lemma for_each_Raise_elem {S A : Type} (body : S -> A -> result S) l a :
  a ∈ l -> (forall s, exists x, body s a = Raise x) ->
  forall s, exists x, for_each body s l = Raise x.
Proof.
  induction l as [|a' l IH]; intros Ha Hraise s; [inversion Ha|]. simpl.
  apply elem_of_cons in Ha as [->|Ha].
  - destruct (Hraise s) as (x & ->). simpl. eauto.
  - destruct (body s a') as [s'|x]; simpl; [|eauto]. apply IH; assumption.
Qed.

Lemma for_each_flat_map {S A B : Type} (body : S -> A -> B -> result S)
    (inner : A -> list B) l :
  forall s,
    for_each (fun s a => for_each (fun s b => body s a b) s (inner a)) s l =
    for_each (fun s p => body s p.1 p.2) s
             (flat_map (fun a => map (fun b => (a, b)) (inner a)) l).
Proof.
  induction l as [|a l IH]; intros s; simpl; [reflexivity|].
  rewrite for_each_app.
  assert (Hin : forall bs s0, for_each (fun s b => body s a b) s0 bs =
                         for_each (fun s p => body s p.1 p.2) s0
                                  (map (fun b => (a, b)) bs)).
  { induction bs as [|b bs IHb]; intros s0; simpl; [reflexivity|].
    destruct (body s0 a b); simpl; [apply IHb|reflexivity]. }
  rewrite <- Hin. destruct (for_each _ s (inner a)) as [s'|x]; simpl; [apply IH|reflexivity].
Qed.

Lemma for_each_inv {S A : Type} (P : S -> Prop) (body : S -> A -> result S) l :
  (forall s a s', a ∈ l -> P s -> body s a = Ok s' -> P s') ->
  forall s s', P s -> for_each body s l = Ok s' -> P s'.
Proof.
  induction l as [|a l IH]; intros Hbody s s' Hs H; simpl in H.
  - injection H as <-. exact Hs.
  - apply bind_Ok in H as (s1 & Ha & Hl).
    apply (IH (fun s0 a0 s0' Ha0 => Hbody s0 a0 s0' (list_elem_of_further _ _ _ Ha0)) s1 s');
      [|exact Hl].
    eapply Hbody; [left|exact Hs|exact Ha].
Qed.

Lemma factory_call_inv {T : Type} (registry : gmap string T) name make registry' n :
  factory_call registry name make = (registry', n) ->
  (registry !! name = Some n /\ registry' = registry) \/
  (registry !! name = None /\ registry' = <[name := make]> registry /\ n = make).
Proof.
  unfold factory_call. destruct (registry !! name) as [n0|]; intros H; injection H as <- <-; auto.
Qed.

Lemma factory_call_all {T : Type} (P : string -> T -> Prop) (registry : gmap string T)
    name make registry' n :
  factory_call registry name make = (registry', n) ->
  (forall k e, registry !! k = Some e -> P k e) -> P name make ->
  (forall k e, registry' !! k = Some e -> P k e) /\ P name n.
Proof.
  intros H Hall Hmake. apply factory_call_inv in H as [[Hn ->]|(Hn & -> & ->)].
  - split; [exact Hall|]. apply Hall, Hn.
  - split; [|exact Hmake]. intros k e Hk. destruct (decide (name = k)) as [->|Hne].
    + rewrite lookup_insert_eq in Hk. injection Hk as <-. exact Hmake.
    + rewrite lookup_insert_ne in Hk by exact Hne. apply Hall, Hk.
Qed.

Lemma insert_all {T : Type} (P : string -> T -> Prop) (registry : gmap string T) name n :
  (forall k e, registry !! k = Some e -> P k e) -> P name n ->
  forall k e, <[name := n]> registry !! k = Some e -> P k e.
Proof.
  intros Hall Hn k e Hk. destruct (decide (name = k)) as [->|Hne].
  - rewrite lookup_insert_eq in Hk. injection Hk as <-. exact Hn.
  - rewrite lookup_insert_ne in Hk by exact Hne. apply Hall, Hk.
Qed.

Section GeneratorFacts.

Variable int_base0 : string -> result Z.
Variable int_ : string -> result Z.
Variable et_parse : string -> result Element.
Variable recursion_limit : nat.
Variable os_open : string -> bool.
Variable os_write : string -> artifact -> bool.

Abbreviation parse_xml' := (parse_xml int_base0 int_ et_parse recursion_limit).
Abbreviation write_files' := (write_files os_open os_write).
Abbreviation main' := (main int_base0 int_ et_parse recursion_limit os_open os_write).
Abbreviation add_value_from_xml' := (add_value_from_xml int_base0 int_ recursion_limit).
Abbreviation extend_enums' := (extend_enums int_base0 int_ recursion_limit).

Lemma add_value_from_xml_Ok self elem extension self' :
  add_value_from_xml' self elem extension = Ok self' ->
  exists name value extnum offset alias error,
    VkEnum.add_value recursion_limit (VkEnum.set_extension self extension)
      name value extnum offset alias error = Ok self'.
Proof.
  unfold add_value_from_xml. intros H.
  destruct (attrib_has elem "value").
  { apply bind_Ok in H as (name & _ & H). apply bind_Ok in H as (s & _ & H).
    apply bind_Ok in H as (v & _ & H). eauto 8. }
  destruct (attrib_has elem "bitpos").
  { apply bind_Ok in H as (name & _ & H). apply bind_Ok in H as (s & _ & H).
    apply bind_Ok in H as (n & _ & H). apply bind_Ok in H as (v & _ & H). eauto 8. }
  destruct (attrib_has elem "alias").
  { apply bind_Ok in H as (name & _ & H). apply bind_Ok in H as (al & _ & H). eauto 8. }
  apply bind_Ok in H as (extnum & _ & H). apply bind_Ok in H as (name & _ & H).
  apply bind_Ok in H as (s & _ & H). apply bind_Ok in H as (o & _ & H). eauto 8.
Qed.


(** The enum of the object types and the handles of a document. *)
Definition handles_of (xml : Element) : list Element :=
  findall [("types", Any); ("type", AttrEq "category" "handle")] xml.

Definition names_of (object_type : Element) : list Element :=
  findall [("name", Any)] object_type.

(** The value that the [objtypeenum] of a handle resolves to in the plain
    enum [VkObjectType], when it does. *)
Definition discriminant (f : factories) (object_type : Element) : option Z :=
  match attrib object_type !! "objtypeenum" with
  | None => None
  | Some enum =>
      match enum_factory f !! "VkObjectType" with
      | None => None
      | Some e => VkEnum.name_to_value e !! enum
      end
  end.

Lemma add_object_name_Some f object_type obj_types object_name v :
  discriminant f object_type = Some v ->
  add_object_name f object_type obj_types object_name =
  Ok (VkObjectType.mk (VkObjectType.name obj_types)
        (<[v := text object_name]> (VkObjectType.enum_to_name obj_types))).
Proof.
  unfold discriminant, add_object_name, attrib_item.
  destruct (attrib object_type !! "objtypeenum") as [enum|]; [|discriminate]. simpl.
  destruct (enum_factory f !! "VkObjectType") as [e|]; [|discriminate]. simpl.
  intros ->. reflexivity.
Qed.

Lemma add_object_name_None f object_type obj_types object_name :
  discriminant f object_type = None ->
  exists x, add_object_name f object_type obj_types object_name = Raise x.
Proof.
  unfold discriminant, add_object_name, attrib_item.
  destruct (attrib object_type !! "objtypeenum") as [enum|]; simpl; [|eauto].
  destruct (enum_factory f !! "VkObjectType") as [e|]; simpl; [|eauto].
  intros ->. simpl. eauto.
Qed.

(** A value has a display name on record, that of one of the handles. *)
Definition recorded (f : factories) (handles : list Element)
    (obj_types : VkObjectType.t) (v : Z) : Prop :=
  exists object_type object_name,
    object_type ∈ handles /\ object_name ∈ names_of object_type /\
    discriminant f object_type = Some v /\
    VkObjectType.enum_to_name obj_types !! v = Some (text object_name).

Lemma add_object_pairs_recorded f handles : forall pairs obj_types obj_types',
  (forall p, p ∈ pairs -> p.1 ∈ handles /\ p.2 ∈ names_of p.1) ->
  for_each (fun o (p : Element * Element) => add_object_name f p.1 o p.2)
           obj_types pairs = Ok obj_types' ->
  forall p, p ∈ pairs ->
    exists v, discriminant f p.1 = Some v /\ recorded f handles obj_types' v.
Proof.
  induction pairs as [|[h n] pairs IH] using rev_ind;
    intros o o' Hsub Hrun p Hp; [inversion Hp|].
  rewrite for_each_app in Hrun. apply bind_Ok in Hrun as (o1 & Hrun1 & Hlast).
  simpl in Hlast. apply bind_Ok in Hlast as (o2 & Hlast & Ho2).
  injection Ho2 as <-.
  destruct (discriminant f h) as [v|] eqn:Hv.
  2:{ destruct (add_object_name_None f h o1 n Hv) as (x & Hx). simpl in Hlast. congruence. }
  rewrite (add_object_name_Some f h o1 n v Hv) in Hlast. injection Hlast as <-.
  destruct (Hsub (h, n)) as [Hh Hn]; [apply elem_of_app; right; left|]. simpl in Hh, Hn.
  assert (Hnew : recorded f handles
                   (VkObjectType.mk (VkObjectType.name o1)
                      (<[v := text n]> (VkObjectType.enum_to_name o1))) v).
  { exists h, n. simpl. rewrite lookup_insert_eq. auto. }
  apply elem_of_app in Hp as [Hp|Hp].
  - destruct (IH o o1) with (p := p) as (v0 & Hv0 & Hrec); try assumption.
    { intros q Hq. apply Hsub. apply elem_of_app. left. exact Hq. }
    exists v0. split; [exact Hv0|].
    destruct (decide (v0 = v)) as [->|Hne]; [exact Hnew|].
    destruct Hrec as (h' & n' & Hh' & Hn' & Hd' & Hl').
    exists h', n'. simpl. rewrite lookup_insert_ne by congruence. auto.
  - apply list_elem_of_singleton in Hp as ->. exists v. auto.
Qed.

Lemma add_object_types_recorded f handles obj_types obj_types' :
  add_object_types f handles obj_types = Ok obj_types' ->
  forall object_type object_name,
    object_type ∈ handles -> object_name ∈ names_of object_type ->
    exists v, discriminant f object_type = Some v /\ recorded f handles obj_types' v.
Proof.
  unfold add_object_types. intros Hrun h n Hh Hn.
  rewrite (for_each_flat_map (fun o h n => add_object_name f h o n)
             (fun h => findall [("name", Any)] h)) in Hrun.
  eapply (add_object_pairs_recorded f handles _ obj_types obj_types') with (p := (h, n));
    [|exact Hrun|].
  - intros [h' n'] Hp. apply list_elem_of_In, List.in_flat_map in Hp as (h0 & Hh0 & Hp).
    apply List.in_map_iff in Hp as (n0 & Heq & Hn0). injection Heq as -> ->.
    simpl. split; apply list_elem_of_In; assumption.
  - apply list_elem_of_In, List.in_flat_map. exists h.
    split; [apply list_elem_of_In, Hh|].
    apply List.in_map_iff. exists n. split; [reflexivity|apply list_elem_of_In, Hn].
Qed.


Lemma parse_object_types_Ok f xml f' :
  parse_object_types f xml = Ok f' ->
  exists obj_types',
    enum_factory f' = enum_factory f /\
    bitmask_factory f' = bitmask_factory f /\
    obj_type_factory f' !! "VkObjectType" = Some obj_types' /\
    forall object_type object_name,
      object_type ∈ handles_of xml -> object_name ∈ names_of object_type ->
      exists v, discriminant f' object_type = Some v /\
                recorded f' (handles_of xml) obj_types' v.
Proof.
  unfold parse_object_types.
  destruct (factory_call (obj_type_factory f) "VkObjectType" _) as [registry o].
  intros H. apply bind_Ok in H as (o' & Hadd & Hf'). injection Hf' as <-.
  exists o'. simpl. split; [reflexivity|]. split; [reflexivity|].
  split; [apply lookup_insert_eq|].
  intros h n Hh Hn.
  destruct (add_object_types_recorded _ _ _ _ Hadd h n Hh Hn) as (v & Hv & Hrec).
  exists v. split; [exact Hv|].
  destruct Hrec as (h' & n' & Hh' & Hn' & Hd' & Hl'). exists h', n'. auto.
Qed.

Lemma parse_xml_Ok f filename f' :
  parse_xml' f filename = Ok f' ->
  exists xml f6, et_parse filename = Ok xml /\ parse_object_types f6 xml = Ok f'.
Proof.
  unfold parse_xml. intros H.
  apply bind_Ok in H as (xml & Hxml & H).
  apply bind_Ok in H as (f1 & _ & H).
  apply bind_Ok in H as (f2 & _ & H).
  apply bind_Ok in H as (f3 & _ & H).
  apply bind_Ok in H as (f4 & _ & H).
  apply bind_Ok in H as (pd & _ & H).
  apply bind_Ok in H as (f6 & _ & H).
  exists xml, f6. auto.
Qed.

Lemma parse_all_object_types : forall xml_files filename f f',
  for_each parse_xml' f (filename :: xml_files) = Ok f' ->
  is_Some (obj_type_factory f' !! "VkObjectType").
Proof.
  induction xml_files as [|g l IH]; intros filename f f' H; simpl in H.
  - apply bind_Ok in H as (f1 & H1 & Hf). injection Hf as <-.
    apply parse_xml_Ok in H1 as (xml & f6 & _ & H6).
    apply parse_object_types_Ok in H6 as (o & _ & _ & Ho & _). eauto.
  - apply bind_Ok in H as (f1 & _ & H). exact (IH g f1 f' H).
Qed.

Lemma registry_values_nonempty {T : Type} (registry : gmap string T) (k : string) :
  is_Some (registry !! k) -> registry_values registry <> [].
Proof.
  intros [x Hx] Hnil. apply elem_of_map_to_list in Hx.
  unfold registry_values in Hnil.
  apply (list_elem_of_fmap_2 snd) in Hx. rewrite Hnil in Hx. inversion Hx.
Qed.

Lemma sorted_nonempty {T : Type} (leb : T -> T -> bool) l : l <> [] -> sorted leb l <> [].
Proof.
  intros Hne Hnil. apply Hne. apply Permutation_nil_r.
  rewrite <- Hnil. symmetry. apply sorted_Permutation.
Qed.

Definition c_path (outdir : string) : string := path_join outdir "vk_enum_to_str.c".
Definition h_path (outdir : string) : string := path_join outdir "vk_enum_to_str.h".
Definition defines_path (outdir : string) : string := path_join outdir "vk_enum_defines.h".

Lemma templates_shape f :
  is_Some (obj_type_factory f !! "VkObjectType") ->
  exists a1 a2 r3,
    templates f = [("vk_enum_to_str.c", Ok a1); ("vk_enum_to_str.h", Ok a2);
                   ("vk_enum_defines.h", r3)] /\
    r3 = render_H_DEFINE_TEMPLATE
           (sorted_by_name VkExtension.name (registry_values (ext_factory f)))
           (sorted_by_name VkEnum.name (registry_values (bitmask_factory f))).
Proof.
  intros Hobj. unfold templates, render_C_TEMPLATE, render_H_TEMPLATE, render_object_names.
  assert (Hsorted : sorted_by_name VkObjectType.name
                      (registry_values (obj_type_factory f)) <> []).
  { apply sorted_nonempty. eapply registry_values_nonempty, Hobj. }
  destruct (sorted_by_name VkObjectType.name (registry_values (obj_type_factory f)))
    as [|o os]; [congruence|].
  simpl. eauto.
Qed.

Lemma path_join_inj outdir a b : path_join outdir a = path_join outdir b -> a = b.
Proof.
  unfold path_join. destruct (bool_decide (outdir = EmptyString)); [auto|].
  destruct (ends_with_slash outdir); intros H.
  - exact (String.app_inj outdir a b H).
  - apply (String.app_inj outdir) in H. injection H as H. exact H.
Qed.

(** *** Writing the files *)

(** The path of a template of [main]. *)
Definition path_of (outdir : string) (t : string * result artifact) : string :=
  path_join outdir t.1.

(** The file of the template [t] is written in full. *)
Definition written_in_full (outdir : string) (t : string * result artifact)
    (outcome : gmap string file * result unit) : Prop :=
  exists a, t.2 = Ok a /\ outcome.1 !! path_of outdir t = Some (Written a).

(** The loop stops at the template [t]: its file cannot be opened and is as
    it was; or its rendering raises and the file is empty; or the write
    fails and the file holds a part of the text. *)
Definition stopped_at (outdir : string) (fs : gmap string file)
    (t : string * result artifact) (outcome : gmap string file * result unit) : Prop :=
  (os_open (path_of outdir t) = false /\ outcome.2 = Raise OSError /\
   outcome.1 !! path_of outdir t = fs !! path_of outdir t) \/
  (os_open (path_of outdir t) = true /\
   exists x, t.2 = Raise x /\ outcome.2 = Raise x /\
             outcome.1 !! path_of outdir t = Some Truncated) \/
  (os_open (path_of outdir t) = true /\
   exists a, t.2 = Ok a /\ os_write (path_of outdir t) a = false /\
             outcome.2 = Raise OSError /\
             outcome.1 !! path_of outdir t = Some (Partial a)).

(** How far [write_files] gets: the templates [done] are written in full,
    the loop has stopped at the first of [rest], if there is one, and no
    other path is touched. *)
Definition written_up_to (outdir : string) (fs : gmap string file)
    (l done rest : list (string * result artifact))
    (outcome : gmap string file * result unit) : Prop :=
  l = done ++ rest /\
  (forall p, (forall t, t ∈ l -> p <> path_of outdir t) -> outcome.1 !! p = fs !! p) /\
  (forall t, t ∈ done -> written_in_full outdir t outcome) /\
  match rest with
  | [] => outcome.2 = Ok tt
  | t :: rest' =>
      stopped_at outdir fs t outcome /\
      forall t', t' ∈ rest' -> outcome.1 !! path_of outdir t' = fs !! path_of outdir t'
  end.

Lemma write_files_outcome outdir : forall l fs,
  NoDup (map (path_of outdir) l) ->
  exists done rest, written_up_to outdir fs l done rest (write_files' outdir fs l).
Proof.
  unfold written_up_to, written_in_full, stopped_at, path_of.
  induction l as [|[file_name rendered] l IH]; intros fs Hnd.
  - exists [], []. split; [reflexivity|]. split; [reflexivity|].
    split; [|reflexivity]. intros t Ht. inversion Ht.
  - simpl in Hnd. apply NoDup_cons in Hnd as [Hfresh Hnd]. simpl.
    set (file_ := path_join outdir file_name) in *.
    assert (Hother : forall t' : string * result artifact, t' ∈ l ->
              path_join outdir t'.1 <> file_).
    { intros t' Ht' Heq. apply Hfresh. rewrite <- Heq.
      apply list_elem_of_In, (List.in_map (fun t => path_join outdir t.1)),
        list_elem_of_In, Ht'. }
    destruct (os_open file_) eqn:Hopen; simpl.
    2:{ exists [], ((file_name, rendered) :: l). split; [reflexivity|].
        split; [reflexivity|]. split; [intros t Ht; inversion Ht|].
        split; [|reflexivity]. left. simpl. fold file_. auto. }
    destruct rendered as [a|x].
    2:{ exists [], ((file_name, Raise x) :: l). split; [reflexivity|].
        split; [|split; [intros t Ht; inversion Ht|split]].
        - intros p Hp. simpl. apply lookup_insert_ne. intros Heq.
          apply (Hp (file_name, Raise x)); [left|]. symmetry. exact Heq.
        - right. left. simpl. fold file_. split; [exact Hopen|]. exists x.
          rewrite lookup_insert_eq. auto.
        - intros t' Ht'. simpl. apply lookup_insert_ne.
          intros Heq. apply (Hother t' Ht'). symmetry. exact Heq. }
    destruct (os_write file_ a) eqn:Hwrite.
    2:{ exists [], ((file_name, Ok a) :: l). split; [reflexivity|].
        split; [|split; [intros t Ht; inversion Ht|split]].
        - intros p Hp. simpl. rewrite !lookup_insert_ne; [reflexivity| |];
            intros Heq; apply (Hp (file_name, Ok a)); try left; symmetry; exact Heq.
        - right. right. simpl. fold file_. split; [exact Hopen|]. exists a.
          rewrite lookup_insert_eq. auto.
        - intros t' Ht'. simpl. rewrite !lookup_insert_ne; [reflexivity| |];
            intros Heq; apply (Hother t' Ht'); symmetry; exact Heq. }
    destruct (IH (<[file_ := Written a]> (<[file_ := Truncated]> fs)) Hnd)
      as (done & rest & -> & Hframe & Hdone & Hrest).
    assert (Hkeep : (write_files' outdir
                       (<[file_ := Written a]> (<[file_ := Truncated]> fs))
                       (done ++ rest)).1 !! file_ = Some (Written a)).
    { rewrite Hframe; [apply lookup_insert_eq|].
      intros t Ht Heq. apply (Hother t Ht). symmetry. exact Heq. }
    exists ((file_name, Ok a) :: done), rest. split; [reflexivity|].
    split; [|split].
    + intros p Hp. rewrite Hframe.
      * rewrite !lookup_insert_ne; [reflexivity| |];
          intros Heq; apply (Hp (file_name, Ok a)); try left; symmetry; exact Heq.
      * intros t Ht. apply Hp. right. exact Ht.
    + intros t Ht. apply elem_of_cons in Ht as [->|Ht]; [|apply Hdone, Ht].
      exists a. split; [reflexivity|exact Hkeep].
    + destruct rest as [|t rest']; [exact Hrest|].
      destruct Hrest as [Hstop Hlater].
      assert (Hin : forall t', t' ∈ t :: rest' -> t' ∈ done ++ t :: rest')
        by (intros t' Ht'; apply elem_of_app; right; exact Ht').
      assert (Hold : forall t' : string * result artifact, t' ∈ t :: rest' ->
                <[file_ := Written a]> (<[file_ := Truncated]> fs) !! path_join outdir t'.1 =
                fs !! path_join outdir t'.1).
      { intros t' Ht'. rewrite !lookup_insert_ne; [reflexivity| |];
          intros Heq; apply (Hother t' (Hin t' Ht')); symmetry; exact Heq. }
      split.
      * destruct Hstop as [(Ho & Hr & Hl)|[(Ho & x & Hx & Hr & Hl)|(Ho & b & Hb & Hw & Hr & Hl)]].
        -- left. rewrite Hl, Hold by left. auto.
        -- right. left. split; [exact Ho|]. exists x. auto.
        -- right. right. split; [exact Ho|]. exists b. auto.
      * intros t' Ht'. rewrite Hlater by exact Ht'. apply Hold. right. exact Ht'.
Qed.

Lemma main_paths_NoDup outdir :
  NoDup [c_path outdir; h_path outdir; defines_path outdir].
Proof.
  unfold c_path, h_path, defines_path.
  apply NoDup_cons. split.
  - intros H. apply elem_of_cons in H as [H|H];
      [|apply list_elem_of_singleton in H]; apply path_join_inj in H; discriminate H.
  - apply NoDup_cons. split; [|apply NoDup_singleton].
    intros H. apply list_elem_of_singleton in H. apply path_join_inj in H. discriminate H.
Qed.

(** The outcomes of [main] on at least one input file. *)
Lemma main_outcomes xml_files outdir fs :
  xml_files <> [] ->
  (exists x, for_each parse_xml' no_factories xml_files = Raise x /\
             main' xml_files outdir fs = (fs, Raise x)) \/
  (exists f a1 a2 r3 done rest,
     for_each parse_xml' no_factories xml_files = Ok f /\
     templates f = [("vk_enum_to_str.c", Ok a1); ("vk_enum_to_str.h", Ok a2);
                    ("vk_enum_defines.h", r3)] /\
     written_up_to outdir fs (templates f) done rest (main' xml_files outdir fs)).
Proof.
  intros Hne. unfold main.
  destruct (for_each parse_xml' no_factories xml_files) as [f|x] eqn:Hparse;
    [|left; eauto].
  right.
  destruct xml_files as [|filename l]; [congruence|].
  pose proof (parse_all_object_types l filename no_factories f Hparse) as Hobj.
  destruct (templates_shape f Hobj) as (a1 & a2 & r3 & Ht & _).
  destruct (write_files_outcome outdir (templates f) fs) as (done & rest & H).
  { rewrite Ht. apply main_paths_NoDup. }
  exists f, a1, a2, r3, done, rest. auto.
Qed.

(** C7, as amended.  The artifacts are opened, rendered and written one
    after the other, each to a file of its own, and nothing is undone.  On
    at least one input file [main] ends in one of these ways.  Loading or
    resolving fails: no file is opened and the files are as they were.
    Or the registries are there, the first two templates render, and the
    loop over the three templates gets as far as it gets: the files of the
    templates [done] are written in full; when none is left the run ends
    normally; else the run ends with the exception of the template it
    stops at, whose file could not be opened and is as it was, or is empty
    because the rendering failed, or holds a part of its text because the
    write failed; the files of the templates after it, and all other
    paths, are as they were. *)
Theorem main_writes_in_sequence xml_files outdir fs :
  xml_files <> [] ->
  NoDup [c_path outdir; h_path outdir; defines_path outdir] /\
  ((exists x, for_each parse_xml' no_factories xml_files = Raise x /\
              main' xml_files outdir fs = (fs, Raise x)) \/
   (exists f a1 a2 r3 done rest,
      for_each parse_xml' no_factories xml_files = Ok f /\
      templates f = [("vk_enum_to_str.c", Ok a1); ("vk_enum_to_str.h", Ok a2);
                     ("vk_enum_defines.h", r3)] /\
      templates f = done ++ rest /\
      (forall p, p ∉ [c_path outdir; h_path outdir; defines_path outdir] ->
         (main' xml_files outdir fs).1 !! p = fs !! p) /\
      (forall t, t ∈ done -> written_in_full outdir t (main' xml_files outdir fs)) /\
      match rest with
      | [] => (main' xml_files outdir fs).2 = Ok tt
      | t :: rest' =>
          stopped_at outdir fs t (main' xml_files outdir fs) /\
          forall t', t' ∈ rest' ->
            (main' xml_files outdir fs).1 !! path_of outdir t' = fs !! path_of outdir t'
      end)).
Proof.
  intros Hne. split; [apply main_paths_NoDup|].
  destruct (main_outcomes xml_files outdir fs Hne)
    as [H|(f & a1 & a2 & r3 & done & rest & Hf & Ht & Hsplit & Hframe & Hdone & Hrest)];
    [left; exact H|right].
  exists f, a1, a2, r3, done, rest.
  split; [exact Hf|]. split; [exact Ht|]. split; [exact Hsplit|].
  split; [|split; [exact Hdone|exact Hrest]].
  intros p Hp. apply Hframe. intros t Hin Heq. apply Hp. rewrite Ht in Hin.
  rewrite Heq. repeat (apply elem_of_cons in Hin as [->|Hin]; [set_solver|]).
  inversion Hin.
Qed.


(** *** The enums of the registries *)

Section RegistryEnums.

Variable P : VkEnum.t -> Prop.
Hypothesis P_init : forall name bitwidth, P (VkEnum.init name bitwidth None).
Hypothesis P_add : forall self elem extension self',
  P self -> add_value_from_xml' self elem extension = Ok self' -> P self'.
Hypothesis P_guard : forall self g, P self -> P (VkEnum.set_guard self g).

(** Every enum and every bitmask of the registries has the property. *)
Definition enums_all (f : factories) : Prop :=
  (forall k e, enum_factory f !! k = Some e -> P e) /\
  (forall k e, bitmask_factory f !! k = Some e -> P e).

Lemma values_loop_all extension values enum enum' :
  for_each (fun enum value => add_value_from_xml' enum value extension) enum values =
    Ok enum' ->
  P enum -> P enum'.
Proof.
  intros H Hp. apply (fun Hstep => for_each_inv P _ _ Hstep _ _ Hp H).
  intros s a s' _ Hs Ha. eapply P_add; eassumption.
Qed.

Lemma extend_enums_all extension f value f' :
  enums_all f -> extend_enums' extension f value = Ok f' -> enums_all f'.
Proof.
  intros Hf H. unfold extend_enums in H.
  apply bind_Ok in H as (extends & _ & H).
  apply bind_Ok in H as (f1 & H1 & H).
  assert (Hf1 : enums_all f1).
  { destruct (enum_factory f !! extends) as [enum|] eqn:He.
    - apply bind_Ok in H1 as (enum' & Hadd & H1). injection H1 as <-.
      split; simpl; [|apply Hf].
      apply (insert_all (fun _ e => P e)); [apply Hf|].
      eapply P_add; [|exact Hadd]. eapply (proj1 Hf), He.
    - injection H1 as <-. exact Hf. }
  destruct (bitmask_factory f1 !! extends) as [enum|] eqn:Hb.
  - apply bind_Ok in H as (enum' & Hadd & H). injection H as <-.
    split; simpl; [apply Hf1|].
    apply (insert_all (fun _ e => P e)); [apply Hf1|].
    eapply P_add; [|exact Hadd]. eapply (proj2 Hf1), Hb.
  - injection H as <-. exact Hf1.
Qed.

Lemma parse_xml_enums_all f filename f' :
  enums_all f -> parse_xml' f filename = Ok f' -> enums_all f'.
Proof.
  intros Hf H. unfold parse_xml in H.
  apply bind_Ok in H as (xml & _ & H).
  apply bind_Ok in H as (f1 & H1 & H).
  assert (Hf1 : enums_all f1).
  { unfold parse_enums in H1.
    apply (fun Hstep => for_each_inv enums_all _ _ Hstep _ _ Hf H1).
    intros s enum_type s' _ Hs Hb.
    apply bind_Ok in Hb as (name & _ & Hb).
    destruct (factory_call (enum_factory s) name (VkEnum.init name 32 None))
      as [registry enum] eqn:Hfc.
    apply bind_Ok in Hb as (enum' & Hloop & Hb). injection Hb as <-.
    destruct (factory_call_all (fun _ e => P e) _ _ _ _ _ Hfc (proj1 Hs) (P_init _ _))
      as [Hreg Henum].
    split; simpl; [|apply Hs].
    apply (insert_all (fun _ e => P e)); [exact Hreg|].
    eapply values_loop_all; eassumption. }
  apply bind_Ok in H as (f2 & H2 & H).
  assert (Hf2 : enums_all f2).
  { unfold parse_bitmasks in H2.
    apply (fun Hstep => for_each_inv enums_all _ _ Hstep _ _ Hf1 H2).
    intros s enum_type s' _ Hs Hb.
    apply bind_Ok in Hb as (bitwidth & _ & Hb).
    apply bind_Ok in Hb as (name & _ & Hb).
    destruct (factory_call (bitmask_factory s) name (VkEnum.init name bitwidth None))
      as [registry enum] eqn:Hfc.
    apply bind_Ok in Hb as (enum' & Hloop & Hb). injection Hb as <-.
    destruct (factory_call_all (fun _ e => P e) _ _ _ _ _ Hfc (proj2 Hs) (P_init _ _))
      as [Hreg Henum].
    split; simpl; [apply Hs|].
    apply (insert_all (fun _ e => P e)); [exact Hreg|].
    eapply values_loop_all; eassumption. }
  apply bind_Ok in H as (f3 & H3 & H).
  assert (Hf3 : enums_all f3).
  { unfold parse_features in H3.
    apply (fun Hstep => for_each_inv enums_all _ _ Hstep _ _ Hf2 H3).
    intros s a s' _ Hs Ha. eapply extend_enums_all; eassumption. }
  apply bind_Ok in H as (f4 & H4 & H).
  assert (Hf4 : enums_all f4).
  { unfold parse_structs in H4.
    apply (fun Hstep => for_each_inv enums_all _ _ Hstep _ _ Hf3 H4).
    intros s struct_type s' _ Hs Hb.
    apply bind_Ok in Hb as (name & _ & Hb).
    destruct (struct_get_stype struct_type); injection Hb as <-; [|exact Hs].
    split; simpl; apply Hs. }
  apply bind_Ok in H as (pd & _ & H).
  apply bind_Ok in H as (f6 & H6 & H).
  assert (Hf6 : enums_all f6).
  { unfold parse_extensions in H6.
    apply (fun Hstep => for_each_inv enums_all _ _ Hstep _ _ Hf4 H6).
    intros s ext_elem s' _ Hs Hb.
    apply bind_Ok in Hb as (define & _ & Hb).
    apply bind_Ok in Hb as (name & _ & Hb).
    apply bind_Ok in Hb as (num & _ & Hb).
    apply bind_Ok in Hb as (number & _ & Hb).
    destruct (factory_call (ext_factory s) name _) as [registry extension].
    assert (Hs0 : enums_all (set_ext_factory s registry)) by (split; simpl; apply Hs).
    apply bind_Ok in Hb as (s1 & Hb1 & Hb).
    assert (Hs1 : enums_all s1).
    { apply (fun Hstep => for_each_inv enums_all _ _ Hstep _ _ Hs0 Hb1).
      intros s2 a s2' _ Hs2 Ha. eapply extend_enums_all; eassumption. }
    apply bind_Ok in Hb as (s2 & Hb2 & Hb).
    assert (Hs2 : enums_all s2).
    { apply (fun Hstep => for_each_inv enums_all _ _ Hstep _ _ Hs1 Hb2).
      intros s3 t s3' _ Hs3 Ht. apply bind_Ok in Ht as (n & _ & Ht).
      destruct (struct_factory s3 !! n); injection Ht as <-; [|exact Hs3].
      split; simpl; apply Hs3. }
    destruct (guard_of define) as [d|]; [|injection Hb as <-; exact Hs2].
    apply (fun Hstep => for_each_inv enums_all _ _ Hstep _ _ Hs2 Hb).
    intros s3 value s3' _ Hs3 Hv. apply bind_Ok in Hv as (n & _ & Hv).
    destruct (enum_factory s3 !! n) as [enum|] eqn:He; injection Hv as <-; [|exact Hs3].
    split; simpl; [|apply Hs3].
    apply (insert_all (fun _ e => P e)); [apply Hs3|].
    apply P_guard. eapply (proj1 Hs3), He. }
  apply parse_object_types_Ok in H as (o & He & Hb & _).
  split; [rewrite He|rewrite Hb]; apply Hf6.
Qed.

Lemma parse_all_enums xml_files f :
  for_each parse_xml' no_factories xml_files = Ok f -> enums_all f.
Proof.
  intros H.
  apply (fun Hstep Hinit => for_each_inv enums_all _ _ Hstep _ _ Hinit H).
  - intros s a s' _. apply parse_xml_enums_all.
  - split; intros k e Hk; simpl in Hk; rewrite lookup_empty in Hk; discriminate.
Qed.

End RegistryEnums.

(** The enum is a new enum that has been through some operations. *)
Definition made_by_ops (e : VkEnum.t) : Prop :=
  exists name bitwidth ops,
    for_each (do_op recursion_limit) (VkEnum.init name bitwidth None) ops = Ok e.

Lemma made_by_ops_snoc e o e' :
  made_by_ops e -> do_op recursion_limit e o = Ok e' -> made_by_ops e'.
Proof.
  intros (name & bitwidth & ops & H) Ho. exists name, bitwidth, (ops ++ [o]).
  rewrite for_each_app, H. simpl. rewrite Ho. reflexivity.
Qed.

(** The enums and the bitmasks that [main] has parsed are new enums that
    have been through operations. *)
Lemma parsed_enums_made_by_ops xml_files f :
  for_each parse_xml' no_factories xml_files = Ok f -> enums_all made_by_ops f.
Proof.
  apply parse_all_enums.
  - intros name bitwidth. exists name, bitwidth, []. reflexivity.
  - intros self elem extension self' Hs H.
    apply add_value_from_xml_Ok in H
      as (name & value & extnum & offset & alias & error & H).
    apply (made_by_ops_snoc (VkEnum.set_extension self extension)
             (Add (mk_call name value extnum offset alias error))); [|exact H].
    apply (made_by_ops_snoc self (SetExtension extension)); [exact Hs|reflexivity].
  - intros self g Hs. apply (made_by_ops_snoc self (SetGuard g)); [exact Hs|reflexivity].
Qed.

(** C1, as amended.  The canonical name of a value is chosen among the
    pairs registered for the value, a pair being registered when line 311
    puts it on record (an alias that was put aside, when it is flushed):
    it is a shortest name among them, and of the shortest the one that was
    registered first.  Lines 311-315 choose again with every pair.  This
    holds of every enum that has been through calls of [add_value],
    of whatever kind, through [set_guard] and assignments to [extension];
    the name-to-value map holds for each name the value of its last pair.
    When no name was registered with two values, the pairs registered for
    a value are the names that resolve to it, and the canonical name is
    the shortest of these.  The enums and bitmasks that [main] has parsed
    are such enums. *)
Theorem canonical_name_among_registered :
  (forall regs self n v,
     (forall w, canonical_choice regs w (VkEnum.values self !! w)) ->
     forall w, canonical_choice (regs ++ [(n, v)]) w
                 (VkEnum.values (VkEnum.record_value self n v) !! w)) /\
  (forall fuel name bitwidth ops self',
     for_each (do_op fuel) (VkEnum.init name bitwidth None) ops = Ok self' ->
     exists regs,
       run_registers (VkEnum.init name bitwidth None) ops regs self' /\
       (forall v, canonical_choice regs v (VkEnum.values self' !! v)) /\
       (forall n, n2v self' !! n = last_value regs n) /\
       (one_value_per_name regs ->
        (forall n v, n2v self' !! n = Some v <-> (n, v) ∈ regs) /\
        canonical_is_shortest_name self')) /\
  (forall xml_files f k e,
     for_each parse_xml' no_factories xml_files = Ok f ->
     enum_factory f !! k = Some e \/ bitmask_factory f !! k = Some e ->
     exists name bitwidth ops,
       for_each (do_op recursion_limit) (VkEnum.init name bitwidth None) ops = Ok e).
Proof.
  split; [|split].
  - intros regs self n v H w. apply record_value_canonical_choice, H.
  - intros fuel name bitwidth ops self' H.
    destruct (run_canonical fuel name bitwidth ops self' H) as (regs & Hrun & Hp).
    exists regs. split; [exact Hrun|]. split; [apply Hp|]. split; [apply Hp|].
    apply holds_pairs_one_value, Hp.
  - intros xml_files f k e H [He|He];
      destruct (parsed_enums_made_by_ops xml_files f H) as [Henums Hbitmasks].
    + exact (Henums k e He).
    + exact (Hbitmasks k e He).
Qed.

(** ** The all-bits constants of the third artifact *)

Lemma render_all_bits_spec : forall bitmasks defs,
  render_all_bits bitmasks = Ok defs ->
  Forall2 (fun enum d =>
             ab_value d = VkEnum.all_bits_value enum /\
             VkEnum.all_bits_name enum = Ok (ab_name d) /\
             ab_guard d = guard_of (VkEnum.guard enum))
          (List.filter (fun enum => negb (32 <? VkEnum.bitwidth enum)) bitmasks) defs.
Proof.
  induction bitmasks as [|enum bitmasks IH]; intros defs H; simpl in H.
  - injection H as <-. constructor.
  - simpl. destruct (32 <? VkEnum.bitwidth enum); simpl; [apply IH, H|].
    apply bind_Ok in H as (n & Hn & H). apply bind_Ok in H as (rest & Hrest & H).
    injection H as <-. constructor; [simpl; auto|apply IH, Hrest].
Qed.

(** The claim as the specification states it: the bitwise OR of every
    distinct value that a name resolves to. *)
Definition resolved_values (self : VkEnum.t) : list Z :=
  remove_dups (map_to_list (n2v self)).*2.

Definition or_of_resolved (self : VkEnum.t) : Z :=
  foldr Z.lor 0 (resolved_values self).

Lemma foldr_lor_testbit (l : list Z) (i : Z) :
  Z.testbit (foldr Z.lor 0 l) i = true <-> exists v, v ∈ l /\ Z.testbit v i = true.
Proof.
  induction l as [|a l IH]; simpl.
  - rewrite Z.bits_0. split; [discriminate|]. intros (v & Hv & _). inversion Hv.
  - rewrite Z.lor_spec, orb_true_iff, IH. split.
    + intros [H|(v & Hv & H)]; [exists a; split; [left|exact H]|].
      exists v. split; [right; exact Hv|exact H].
    + intros (v & Hv & H). apply elem_of_cons in Hv as [->|Hv]; [left; exact H|].
      right. eauto.
Qed.

Lemma resolved_values_elem self v :
  v ∈ resolved_values self <-> exists n, n2v self !! n = Some v.
Proof.
  unfold resolved_values. rewrite elem_of_remove_dups, list_elem_of_fmap. split.
  - intros ([n w] & -> & H). exists n. apply elem_of_map_to_list, H.
  - intros (n & H). exists (n, v). split; [reflexivity|]. apply elem_of_map_to_list, H.
Qed.

(** The values that have a canonical name are those of the pairs. *)
Lemma holds_pairs_values regs self v :
  holds_pairs regs self ->
  is_Some (VkEnum.values self !! v) <-> exists n, (n, v) ∈ regs.
Proof.
  intros [Hc _]. specialize (Hc v). split.
  - intros [c Hv]. rewrite Hv in Hc. destruct Hc as (i & Hi & _).
    exists c. eapply list_elem_of_lookup_2, Hi.
  - intros (n & Hn). destruct (VkEnum.values self !! v) as [c|]; [eauto|].
    destruct (Hc n Hn).
Qed.

Lemma holds_pairs_all_bits regs self :
  holds_pairs regs self ->
  (forall i, Z.testbit (VkEnum.all_bits_value self) i = true <->
             exists n v, (n, v) ∈ regs /\ Z.testbit v i = true) /\
  (one_value_per_name regs -> VkEnum.all_bits_value self = or_of_resolved self).
Proof.
  intros Hp.
  assert (Hbits : forall i, Z.testbit (VkEnum.all_bits_value self) i = true <->
                            exists n v, (n, v) ∈ regs /\ Z.testbit v i = true).
  { intros i. unfold VkEnum.all_bits_value. rewrite map_fold_lor_testbit. split.
    - intros (v & c & Hv & Hb).
      destruct (proj1 (holds_pairs_values regs self v Hp)) as (n & Hn); [eauto|].
      eauto.
    - intros (n & v & Hn & Hb).
      destruct (proj2 (holds_pairs_values regs self v Hp)) as (c & Hc); [eauto|].
      eauto. }
  split; [exact Hbits|].
  intros Hone. destruct (holds_pairs_one_value regs self Hp Hone) as [Hiff _].
  apply Z.bits_inj. intros i. apply eq_true_iff_eq.
  unfold or_of_resolved. rewrite Hbits, foldr_lor_testbit. split.
  - intros (n & v & Hn & Hb). exists v. split; [|exact Hb].
    apply resolved_values_elem. exists n. apply Hiff, Hn.
  - intros (v & Hv & Hb). apply resolved_values_elem in Hv as (n & Hn).
    exists n, v. split; [apply Hiff, Hn|exact Hb].
Qed.

(** C4, as amended.  The all-bits value of an enum is the bitwise OR of
    the values that have a canonical name, each taken once: a bit is set
    in it exactly when it is set in one of them; it is 0 when there is
    none.  In an enum that has been through operations these are the
    values of the pairs that were registered, whether or not a name still
    resolves to them; when no name was registered with two values, they
    are the values that the names resolve to, and the all-bits value is
    the OR of every distinct resolved value.  The constants of the third
    artifact are the all-bits values of the bitmasks of at most 32 bits,
    taken from the registries as they are when all the input has been
    parsed and resolved, and these bitmasks have been through the
    operations of the whole of it. *)
Theorem all_bits_value_is_or :
  (forall self i,
     Z.testbit (VkEnum.all_bits_value self) i = true <->
     exists value c, VkEnum.values self !! value = Some c /\ Z.testbit value i = true) /\
  (forall self, VkEnum.values self = ∅ -> VkEnum.all_bits_value self = 0) /\
  (forall fuel name bitwidth ops self',
     for_each (do_op fuel) (VkEnum.init name bitwidth None) ops = Ok self' ->
     exists regs,
       run_registers (VkEnum.init name bitwidth None) ops regs self' /\
       (forall i, Z.testbit (VkEnum.all_bits_value self') i = true <->
                  exists n v, (n, v) ∈ regs /\ Z.testbit v i = true) /\
       (one_value_per_name regs ->
        VkEnum.all_bits_value self' = or_of_resolved self')) /\
  (forall xml_files outdir fs fs',
     xml_files <> [] ->
     main' xml_files outdir fs = (fs', Ok tt) ->
     exists f a,
       for_each parse_xml' no_factories xml_files = Ok f /\
       fs' !! defines_path outdir = Some (Written (Defines_file a)) /\
       Forall2 (fun enum d =>
                  ab_value d = VkEnum.all_bits_value enum /\
                  VkEnum.all_bits_name enum = Ok (ab_name d) /\
                  ab_guard d = guard_of (VkEnum.guard enum))
               (List.filter (fun enum => negb (32 <? VkEnum.bitwidth enum))
                  (sorted_by_name VkEnum.name (registry_values (bitmask_factory f))))
               (d_all_bits a) /\
       forall k enum, bitmask_factory f !! k = Some enum ->
         exists name bitwidth ops,
           for_each (do_op recursion_limit) (VkEnum.init name bitwidth None) ops =
             Ok enum).
Proof.
  split; [|split; [|split]].
  - intros self i. apply map_fold_lor_testbit.
  - intros self H. unfold VkEnum.all_bits_value. rewrite H. apply map_fold_empty.
  - intros fuel name bitwidth ops self' H.
    destruct (run_canonical fuel name bitwidth ops self' H) as (regs & Hrun & Hp).
    exists regs. split; [exact Hrun|]. apply holds_pairs_all_bits, Hp.
  - intros xml_files outdir fs fs' Hne Hmain.
    destruct (main_outcomes xml_files outdir fs Hne)
      as [(x & _ & H)|(f & a1 & a2 & r3 & done & rest & Hf & Ht & Hsplit & _ & Hdone & Hrest)].
    { rewrite H in Hmain. discriminate. }
    rewrite Hmain in Hdone, Hrest. simpl in Hrest.
    destruct rest as [|t rest'].
    2:{ destruct Hrest as [[(_ & Hr & _)|[(_ & x & _ & Hr & _)|(_ & a & _ & _ & Hr & _)]] _];
          discriminate Hr. }
    rewrite app_nil_r in Hsplit. subst done.
    destruct (Hdone ("vk_enum_defines.h", r3)) as (a & Hr3 & Hfile).
    { rewrite Ht. right. right. left. }
    simpl in Hr3, Hfile. subst r3.
    pose proof Ht as Hd. unfold templates in Hd. injection Hd as _ _ Hd.
    unfold render_H_DEFINE_TEMPLATE in Hd.
    apply bind_Ok in Hd as (all_bits & Hall & Hd). injection Hd as <-.
    eexists f, _. split; [exact Hf|]. split; [exact Hfile|].
    split; [simpl; apply render_all_bits_spec, Hall|].
    intros k enum Hk. exact (proj2 (parsed_enums_made_by_ops xml_files f Hf) k enum Hk).
Qed.

End GeneratorFacts.

(** * Examples

    The parameters of the generator are given values here: a reading of
    plain decimal numerals stands for Python's [int] (on these strings the
    two agree; the other strings that [int] reads are not needed), small
    registries stand for the input, and a file system that always opens
    and writes for the one of a run without trouble. *)

Definition digit_value (c : ascii) : option Z :=
  let n := nat_of_ascii c in
  if (48 <=? n)%nat && (n <=? 57)%nat then Some (Z.of_nat (n - 48)) else None.

Fixpoint decimal_digits (acc : Z) (s : string) : result Z :=
  match s with
  | EmptyString => Ok acc
  | String c s' =>
      match digit_value c with
      | Some d => decimal_digits (10 * acc + d) s'
      | None => Raise ValueError
      end
  end.

Definition decimal_int (s : string) : result Z :=
  match s with
  | EmptyString => Raise ValueError
  | String c s' =>
      if Ascii.eqb c "-" then
        if bool_decide (s' = EmptyString) then Raise ValueError
        else z <- decimal_digits 0 s' ;; Ok (- z)
      else decimal_digits 0 s
  end.

Definition element (tag : string) (attributes : list (string * string))
    (text : option string) (children : list Element) : Element :=
  Elem tag (list_to_map attributes) text children.

(** A registry with the enum of the object types, a bitmask of two bits
    and a third bit from an extension, and one handle. *)
Definition small_registry : Element :=
  element "registry" [] None
    [element "types" [] None
       [element "type" [("category", "handle"); ("objtypeenum", "VK_OBJECT_TYPE_INSTANCE")]
          None [element "name" [] (Some "VkInstance") []]];
     element "enums" [("name", "VkObjectType"); ("type", "enum")] None
       [element "enum" [("value", "1"); ("name", "VK_OBJECT_TYPE_INSTANCE")] None []];
     element "enums" [("name", "VkAccessFlagBits"); ("type", "bitmask")] None
       [element "enum" [("bitpos", "0"); ("name", "VK_ACCESS_A_BIT")] None [];
        element "enum" [("bitpos", "2"); ("name", "VK_ACCESS_C_BIT")] None []];
     element "extensions" [] None
       [element "extension" [("name", "VK_EXT_b"); ("number", "7"); ("supported", "vulkan")]
          None
          [element "require" [] None
             [element "enum" [("extends", "VkAccessFlagBits"); ("bitpos", "4");
                              ("name", "VK_ACCESS_E_BIT_EXT")] None []]]]].

(** A registry whose bitmask has no [FlagBits] in its name. *)
Definition odd_registry : Element :=
  element "registry" [] None
    [element "enums" [("name", "VkFoo"); ("type", "bitmask")] None
       [element "enum" [("bitpos", "1"); ("name", "VK_FOO_B")] None []]].

(** A registry whose bitmask declares one name twice, with two bits. *)
Definition redeclared_registry : Element :=
  element "registry" [] None
    [element "enums" [("name", "VkXFlagBits"); ("type", "bitmask")] None
       [element "enum" [("bitpos", "0"); ("name", "VK_X_A_BIT")] None [];
        element "enum" [("bitpos", "1"); ("name", "VK_X_A_BIT")] None []]].

(** A registry with a handle that has no display name and whose
    [objtypeenum] is not a name of [VkObjectType]. *)
Definition nameless_handle : Element :=
  element "type" [("category", "handle"); ("objtypeenum", "VK_OBJECT_TYPE_QUEUE")]
    None [].

Definition nameless_registry : Element :=
  element "registry" [] None
    [element "types" [] None [nameless_handle];
     element "enums" [("name", "VkObjectType"); ("type", "enum")] None
       [element "enum" [("value", "1"); ("name", "VK_OBJECT_TYPE_INSTANCE")] None []]].

Definition example_parse (filename : string) : result Element :=
  if bool_decide (filename = "vk.xml") then Ok small_registry
  else if bool_decide (filename = "odd.xml") then Ok odd_registry
  else if bool_decide (filename = "redeclared.xml") then Ok redeclared_registry
  else if bool_decide (filename = "nameless.xml") then Ok nameless_registry
  else Raise ParseError.

Definition always_opens (path : string) : bool := true.
Definition always_writes (path : string) (a : artifact) : bool := true.

Definition example_main (xml_files : list string) (outdir : string)
    (fs : gmap string file) : gmap string file * result unit :=
  main decimal_int decimal_int example_parse 1000 always_opens always_writes
       xml_files outdir fs.

Example example_main_defines :
  exists a, (example_main ["vk.xml"] "out" ∅).1 !! "out/vk_enum_defines.h" =
              Some (Written (Defines_file a)) /\
            d_all_bits a = [mk_all_bits_define None "VK_ALL_ACCESS_FLAG_BITS" 21] /\
            d_ext_numbers a = [("VK_EXT_b", Some 7)].
Proof. eexists. split; [vm_compute; reflexivity|]. split; reflexivity. Qed.

(** A directory that is not there: the first [open] raises, and nothing is
    written.  A header that cannot be opened: the source file is written,
    the header and the defines are not. *)
Example main_cannot_open :
  main decimal_int decimal_int example_parse 1000 (fun _ => false) always_writes
       ["vk.xml"] "out" ∅ = (∅, Raise OSError) /\
  exists a,
    main decimal_int decimal_int example_parse 1000
         (fun path => negb (bool_decide (path = "out/vk_enum_to_str.h"))) always_writes
         ["vk.xml"] "out" ∅ = ({[ "out/vk_enum_to_str.c" := Written a ]}, Raise OSError).
Proof. split; [vm_compute; reflexivity|]. eexists. vm_compute. reflexivity. Qed.

(** ** Canonical names *)

Definition literal (name : string) (value : Z) : op :=
  Add (mk_call name (Some value) None None None false).

Definition alias_of (name base : string) : op :=
  Add (mk_call name None None None (Some base) false).

Lemma canonical_name_among_registered_witness :
  canonical_choice ([] ++ [("A", 1)]) 1
    (VkEnum.values (VkEnum.record_value (VkEnum.init "VkX" 32 None) "A" 1) !! 1) /\
  (exists self',
     for_each (do_op 2) (VkEnum.init "VkX" 32 None)
       [alias_of "XX" "YYY"; literal "ZZ" 5; literal "YYY" 5] = Ok self' /\
     VkEnum.values self' !! 5 = Some "ZZ" /\
     exists regs,
       run_registers (VkEnum.init "VkX" 32 None)
         [alias_of "XX" "YYY"; literal "ZZ" 5; literal "YYY" 5] regs self' /\
       (forall v, canonical_choice regs v (VkEnum.values self' !! v)) /\
       (forall n, n2v self' !! n = last_value regs n) /\
       (one_value_per_name regs ->
        (forall n v, n2v self' !! n = Some v <-> (n, v) ∈ regs) /\
        canonical_is_shortest_name self')) /\
  (exists f e,
     for_each (parse_xml decimal_int decimal_int example_parse 1000) no_factories
       ["vk.xml"] = Ok f /\
     bitmask_factory f !! "VkAccessFlagBits" = Some e /\
     exists name bitwidth ops,
       for_each (do_op 1000) (VkEnum.init name bitwidth None) ops = Ok e).
Proof.
  pose proof (canonical_name_among_registered decimal_int decimal_int example_parse 1000)
    as (Hstep & Hrun & Hparse).
  split; [|split].
  - apply (Hstep [] (VkEnum.init "VkX" 32 None) "A" 1).
    intros w. simpl. rewrite lookup_empty. intros n Hn. inversion Hn.
  - eexists. split; [vm_compute; reflexivity|]. split; [vm_compute; reflexivity|].
    apply (Hrun 2%nat "VkX" 32). vm_compute. reflexivity.
  - eexists. eexists. split; [vm_compute; reflexivity|].
    split; [vm_compute; reflexivity|].
    eapply (Hparse ["vk.xml"] _ "VkAccessFlagBits").
    + vm_compute. reflexivity.
    + right. vm_compute. reflexivity.
Defined.

(** A name that is declared again with another value stays the canonical
    name of the value it had: ["A"] is the canonical name of 1 while the
    names that resolve to 1 are ["BB"] and ["CCC"]. *)
Lemma canonical_name_counterexample :
  exists self',
    for_each (do_op 1) (VkEnum.init "VkX" 32 None)
      [literal "A" 1; literal "BB" 1; literal "CCC" 1; literal "A" 2] = Ok self' /\
    VkEnum.values self' !! 1 = Some "A" /\
    n2v self' !! "A" = Some 2 /\
    n2v self' !! "BB" = Some 1 /\
    n2v self' !! "CCC" = Some 1 /\
    ~ canonical_is_shortest_name self'.
Proof.
  eexists. split; [vm_compute; reflexivity|].
  split; [vm_compute; reflexivity|]. split; [vm_compute; reflexivity|].
  split; [vm_compute; reflexivity|]. split; [vm_compute; reflexivity|].
  intros H. destruct (H 1 "A") as [HA _]; [vm_compute; reflexivity|].
  vm_compute in HA. discriminate HA.
Qed.

(** ** Alias chains *)

Lemma alias_chain_resolves_witness :
  (exists self',
     for_each (declare 3) (VkEnum.init "VkX" 32 None)
       [AliasOf "A" "B"; Literal "C" 5; AliasOf "B" "C"] = Ok self' /\
     forall n, n ∈ ["A"; "B"; "C"] ->
       n2v self' !! n = Some 5 /\ pending self' !! n = None) /\
  declare 1 (VkEnum.init "VkX" 32 None) (AliasOf "A" "B") =
    Ok (VkEnum.defer_alias (VkEnum.init "VkX" 32 None) "B" "A") /\
  (exists self',
     do_call 2
       (VkEnum.defer_alias (VkEnum.defer_alias (VkEnum.init "VkX" 32 None) "B" "A1")
          "B" "A2")
       (mk_call "B" (Some 5) None None None false) = Ok self' /\
     forall a, a = "B" \/
               reaches (VkEnum.defer_alias
                          (VkEnum.defer_alias (VkEnum.init "VkX" 32 None) "B" "A1")
                          "B" "A2") "B" a ->
       n2v self' !! a = Some 5 /\ pending self' !! a = None) /\
  for_each (declare 3) (VkEnum.init "VkX" 32 None)
    (chain_decls ["A"; "B"; "C"; "D"] 5) = Raise RecursionError.
Proof.
  split; [|split; [|split]].
  - apply (proj1 alias_chain_resolves ["A"; "B"; "C"] 5).
    + apply (bool_decide_unpack _). vm_compute. exact I.
    + simpl. apply perm_skip. apply perm_swap.
    + intros n _. split; reflexivity.
    + simpl. lia.
  - apply (proj1 (proj2 alias_chain_resolves) 0%nat (VkEnum.init "VkX" 32 None) "A" "B").
    reflexivity.
  - apply (proj1 (proj2 (proj2 alias_chain_resolves)) ["B"; "A1"; "A2"]
             (fun x => if bool_decide (x = "B") then 1%nat else 0%nat) 2%nat
             _ (mk_call "B" (Some 5) None None None false) 5).
    + intros y l a Hy Hl Ha.
      apply elem_of_cons in Hy as [->|Hy].
      * vm_compute in Hl. injection Hl as <-.
        apply elem_of_cons in Ha as [->|Ha];
          [|apply list_elem_of_singleton in Ha as ->];
          (split; [set_solver|vm_compute; lia]).
      * apply elem_of_cons in Hy as [->|Hy];
          [|apply list_elem_of_singleton in Hy as ->]; vm_compute in Hl; discriminate Hl.
    + left.
    + vm_compute. lia.
    + reflexivity.
  - apply (proj2 (proj2 (proj2 alias_chain_resolves)) ["A"; "B"; "C"; "D"] 5).
    + discriminate.
    + apply (bool_decide_unpack _). vm_compute. exact I.
    + intros n _. split; reflexivity.
    + simpl. lia.
Defined.

(** At a recursion that goes 1000 deep, a chain of 1001 names declared
    from its first alias to its last member ends in a [RecursionError];
    declared from the last member to the first alias it resolves. *)
Definition chain_names (k : nat) : list string :=
  map (fun i : nat => "A" +:+ pretty i) (seq 0 k).

Definition all_resolved (r : result VkEnum.t) (ns : list string) (v : Z) : bool :=
  match r with
  | Ok self' => forallb (fun n => bool_decide (n2v self' !! n = Some v)) ns
  | Raise _ => false
  end.

Lemma all_resolved_chain_resolves fuel self ns v ds :
  all_resolved (for_each (declare fuel) self ds) ns v = true ->
  chain_resolves fuel self ns v ds.
Proof.
  unfold all_resolved, chain_resolves.
  destruct (for_each (declare fuel) self ds) as [self'|x]; [|discriminate].
  intros H. exists self'. split; [reflexivity|]. intros n Hn.
  rewrite forallb_forall in H. apply list_elem_of_In, H in Hn.
  apply bool_decide_eq_true_1 in Hn. exact Hn.
Qed.

Lemma alias_chain_counterexample :
  for_each (declare 1000) (VkEnum.init "VkX" 32 None)
    (chain_decls (chain_names 1001) 5) = Raise RecursionError /\
  ~ chain_resolves 1000 (VkEnum.init "VkX" 32 None) (chain_names 1001) 5
      (chain_decls (chain_names 1001) 5) /\
  rev (chain_decls (chain_names 1001) 5) ≡ₚ chain_decls (chain_names 1001) 5 /\
  chain_resolves 1000 (VkEnum.init "VkX" 32 None) (chain_names 1001) 5
    (rev (chain_decls (chain_names 1001) 5)).
Proof.
  assert (H : for_each (declare 1000) (VkEnum.init "VkX" 32 None)
                (chain_decls (chain_names 1001) 5) = Raise RecursionError)
    by (vm_compute; reflexivity).
  split; [exact H|]. split; [|split].
  - intros (self' & Hrun & _). rewrite H in Hrun. discriminate Hrun.
  - symmetry. apply Permutation_rev.
  - apply all_resolved_chain_resolves. vm_compute. reflexivity.
Qed.

(** ** The all-bits constants *)

Lemma all_bits_value_is_or_witness :
  VkEnum.all_bits_value (VkEnum.init "VkAccessFlagBits" 32 None) = 0 /\
  (exists self',
     for_each (do_op 2) (VkEnum.init "VkAccessFlagBits" 32 None)
       [alias_of "VK_ACCESS_C" "VK_ACCESS_C_BIT"; literal "VK_ACCESS_A_BIT" 1;
        literal "VK_ACCESS_C_BIT" 4] = Ok self' /\
     VkEnum.all_bits_value self' = 5 /\
     exists regs,
       run_registers (VkEnum.init "VkAccessFlagBits" 32 None)
         [alias_of "VK_ACCESS_C" "VK_ACCESS_C_BIT"; literal "VK_ACCESS_A_BIT" 1;
          literal "VK_ACCESS_C_BIT" 4] regs self' /\
       (forall i, Z.testbit (VkEnum.all_bits_value self') i = true <->
                  exists n v, (n, v) ∈ regs /\ Z.testbit v i = true) /\
       (one_value_per_name regs ->
        VkEnum.all_bits_value self' = or_of_resolved self')) /\
  exists f a,
    for_each (parse_xml decimal_int decimal_int example_parse 1000) no_factories ["vk.xml"] =
      Ok f /\
    (example_main ["vk.xml"] "out" ∅).1 !! defines_path "out" =
      Some (Written (Defines_file a)) /\
    Forall2 (fun enum d =>
               ab_value d = VkEnum.all_bits_value enum /\
               VkEnum.all_bits_name enum = Ok (ab_name d) /\
               ab_guard d = guard_of (VkEnum.guard enum))
            (List.filter (fun enum => negb (32 <? VkEnum.bitwidth enum))
               (sorted_by_name VkEnum.name (registry_values (bitmask_factory f))))
            (d_all_bits a) /\
    forall k enum, bitmask_factory f !! k = Some enum ->
      exists name bitwidth ops,
        for_each (do_op 1000) (VkEnum.init name bitwidth None) ops = Ok enum.
Proof.
  pose proof (all_bits_value_is_or decimal_int decimal_int example_parse 1000
                always_opens always_writes) as (_ & Hempty & Hrun & Hmain).
  split; [apply Hempty; reflexivity|]. split.
  - eexists. split; [vm_compute; reflexivity|]. split; [vm_compute; reflexivity|].
    apply (Hrun 2%nat "VkAccessFlagBits" 32). vm_compute. reflexivity.
  - apply (Hmain ["vk.xml"] "out" ∅).
    + discriminate.
    + vm_compute. reflexivity.
Defined.

(** A bitmask that declares one name twice, with the bits 0 and 1: the
    name resolves to 2, the only resolved value, and the constant that is
    emitted is 3. *)
Lemma all_bits_value_counterexample :
  exists f e a,
    for_each (parse_xml decimal_int decimal_int example_parse 1000) no_factories
      ["redeclared.xml"] = Ok f /\
    bitmask_factory f !! "VkXFlagBits" = Some e /\
    resolved_values e = [2] /\
    or_of_resolved e = 2 /\
    (example_main ["redeclared.xml"] "out" ∅).1 !! "out/vk_enum_defines.h" =
      Some (Written (Defines_file a)) /\
    d_all_bits a = [mk_all_bits_define None "VK_ALL_X_FLAG_BITS" 3] /\
    VkEnum.all_bits_value e <> or_of_resolved e.
Proof.
  eexists. eexists. eexists. split; [vm_compute; reflexivity|].
  split; [vm_compute; reflexivity|]. split; [vm_compute; reflexivity|].
  split; [vm_compute; reflexivity|]. split; [vm_compute; reflexivity|].
  split; [vm_compute; reflexivity|]. vm_compute. discriminate.
Qed.

(** ** The files that are written *)

Lemma main_writes_in_sequence_witness :
  NoDup [c_path "out"; h_path "out"; defines_path "out"] /\
  ((exists x,
      for_each (parse_xml decimal_int decimal_int example_parse 1000) no_factories
        ["odd.xml"] = Raise x /\
      example_main ["odd.xml"] "out" ∅ = (∅, Raise x)) \/
   (exists f a1 a2 r3 done rest,
      for_each (parse_xml decimal_int decimal_int example_parse 1000) no_factories
        ["odd.xml"] = Ok f /\
      templates f = [("vk_enum_to_str.c", Ok a1); ("vk_enum_to_str.h", Ok a2);
                     ("vk_enum_defines.h", r3)] /\
      templates f = done ++ rest /\
      (forall p, p ∉ [c_path "out"; h_path "out"; defines_path "out"] ->
         (example_main ["odd.xml"] "out" ∅).1 !! p = (∅ : gmap string file) !! p) /\
      (forall t, t ∈ done -> written_in_full "out" t (example_main ["odd.xml"] "out" ∅)) /\
      match rest with
      | [] => (example_main ["odd.xml"] "out" ∅).2 = Ok tt
      | t :: rest' =>
          stopped_at always_opens always_writes "out" ∅ t
            (example_main ["odd.xml"] "out" ∅) /\
          forall t', t' ∈ rest' ->
            (example_main ["odd.xml"] "out" ∅).1 !! path_of "out" t' =
            (∅ : gmap string file) !! path_of "out" t'
      end)).
Proof.
  apply (main_writes_in_sequence decimal_int decimal_int example_parse 1000
           always_opens always_writes ["odd.xml"] "out" ∅).
  discriminate.
Defined.

(** The claim as the specification states it: the three artifacts in full,
    or the files as they were. *)
Definition all_or_nothing (outdir : string) (fs : gmap string file)
    (outcome : gmap string file * result unit) : Prop :=
  (outcome.2 = Ok tt /\
   exists a1 a2 a3,
     outcome.1 !! c_path outdir = Some (Written a1) /\
     outcome.1 !! h_path outdir = Some (Written a2) /\
     outcome.1 !! defines_path outdir = Some (Written a3)) \/
  (outcome.2 <> Ok tt /\ outcome.1 = fs).

(** On the registry whose bitmask is not named [...FlagBits...], the run
    ends with an [AssertionError] while the third template is rendered: two
    artifacts are written and the third file is empty. *)
Lemma main_all_or_nothing_counterexample :
  (example_main ["odd.xml"] "out" ∅).2 = Raise AssertionError /\
  (example_main ["odd.xml"] "out" ∅).1 !! "out/vk_enum_to_str.c" =
    Some (Written (C_file (mk_c_artifact [] [] []))) /\
  (example_main ["odd.xml"] "out" ∅).1 !! "out/vk_enum_to_str.h" =
    Some (Written (H_file [])) /\
  (example_main ["odd.xml"] "out" ∅).1 !! "out/vk_enum_defines.h" = Some Truncated /\
  ~ all_or_nothing "out" ∅ (example_main ["odd.xml"] "out" ∅).
Proof.
  split; [vm_compute; reflexivity|]. split; [vm_compute; reflexivity|].
  split; [vm_compute; reflexivity|]. split; [vm_compute; reflexivity|].
  intros [[H _]|[_ H]].
  - vm_compute in H. discriminate H.
  - apply (f_equal (fun m : gmap string file => m !! "out/vk_enum_defines.h")) in H.
    vm_compute in H. discriminate H.
Qed.

(** ** Handles *)


Definition instance_handle : Element :=
  element "type" [("category", "handle"); ("objtypeenum", "VK_OBJECT_TYPE_INSTANCE")]
    None [element "name" [] (Some "VkInstance") []].

Definition object_type_enums : factories :=
  set_enum_factory no_factories
    {[ "VkObjectType" :=
         VkEnum.record_value (VkEnum.init "VkObjectType" 32 None)
           "VK_OBJECT_TYPE_INSTANCE" 1 ]}.



(** A handle with a display name whose [objtypeenum] is not a name of
    [VkObjectType] stops the run before any file is opened. *)
Example unresolved_handle_is_fatal :
  let xml :=
    element "registry" [] None
      [element "types" [] None
         [element "type" [("category", "handle"); ("objtypeenum", "VK_OBJECT_TYPE_QUEUE")]
            None [element "name" [] (Some "VkQueue") []]];
       element "enums" [("name", "VkObjectType"); ("type", "enum")] None
         [element "enum" [("value", "1"); ("name", "VK_OBJECT_TYPE_INSTANCE")] None []]] in
  main decimal_int decimal_int (fun _ => Ok xml) 1000 always_opens always_writes
       ["vk.xml"] "out" ∅ =
  (∅, Raise KeyError).
Proof. vm_compute. reflexivity. Qed.

(** * Further properties of the code *)

(** ** What [add_value] keeps *)

Lemma record_value_frame self name v :
  VkEnum.name (VkEnum.record_value self name v) = VkEnum.name self /\
  VkEnum.max_enum_name (VkEnum.record_value self name v) = VkEnum.max_enum_name self /\
  VkEnum.bitwidth (VkEnum.record_value self name v) = VkEnum.bitwidth self /\
  VkEnum.extension (VkEnum.record_value self name v) = VkEnum.extension self /\
  VkEnum.guard (VkEnum.record_value self name v) = VkEnum.guard self.
Proof.
  unfold VkEnum.record_value; simpl.
  destruct (VkEnum.values self !! v) as [old|]; [|auto].
  destruct (_ <? _)%nat; auto.
Qed.

Lemma registers_frame v tr : forall self,
  VkEnum.name (registers v tr self) = VkEnum.name self /\
  VkEnum.max_enum_name (registers v tr self) = VkEnum.max_enum_name self /\
  VkEnum.bitwidth (registers v tr self) = VkEnum.bitwidth self /\
  VkEnum.extension (registers v tr self) = VkEnum.extension self /\
  VkEnum.guard (registers v tr self) = VkEnum.guard self.
Proof.
  induction tr as [|a tr IH]; intros self; simpl; [auto|].
  destruct (IH (VkEnum.record_value self a v)) as (-> & -> & -> & -> & ->).
  apply record_value_frame.
Qed.

Lemma record_value_values_shorter self name v w c :
  VkEnum.values self !! w = Some c ->
  exists c', VkEnum.values (VkEnum.record_value self name v) !! w = Some c' /\
             (String.length c' <= String.length c)%nat.
Proof.
  intros Hc. destruct (decide (w = v)) as [->|Hne].
  - rewrite record_value_values, Hc.
    destruct (String.length name <? String.length c)%nat eqn:Hlt.
    + apply Nat.ltb_lt in Hlt. exists name. rewrite lookup_insert_eq. split; [reflexivity|lia].
    + exists c. auto.
  - rewrite record_value_values_other by exact Hne. eauto.
Qed.

Lemma registers_values_shorter v tr : forall self w c,
  VkEnum.values self !! w = Some c ->
  exists c', VkEnum.values (registers v tr self) !! w = Some c' /\
             (String.length c' <= String.length c)%nat.
Proof.
  induction tr as [|a tr IH]; intros self w c Hc; simpl; [eauto|].
  destruct (record_value_values_shorter self a v w c Hc) as (c1 & Hc1 & Hle1).
  destruct (IH _ w c1 Hc1) as (c' & Hc' & Hle'). exists c'. split; [exact Hc'|lia].
Qed.

Lemma add_value_frame fuel self name value extnum offset alias error self' :
  VkEnum.add_value fuel self name value extnum offset alias error = Ok self' ->
  VkEnum.name self' = VkEnum.name self /\
  VkEnum.max_enum_name self' = VkEnum.max_enum_name self /\
  VkEnum.bitwidth self' = VkEnum.bitwidth self /\
  VkEnum.extension self' = VkEnum.extension self /\
  VkEnum.guard self' = VkEnum.guard self.
Proof.
  intros H. apply add_value_Ok in H as [(b & _ & _ & ->)|(v & tr & Hres & _)].
  - simpl. auto.
  - pose proof (proj1 (resolves_effect v) _ _ _ _ Hres) as ->. simpl.
    apply registers_frame.
Qed.

(** X1. A call of [add_value] that returns changes nothing but the three
    maps, loses no name and no value, and leaves for each value a canonical
    name that is not longer than the one before. *)
Theorem add_value_keeps fuel self name value extnum offset alias error self' :
  VkEnum.add_value fuel self name value extnum offset alias error = Ok self' ->
  (VkEnum.name self' = VkEnum.name self /\
   VkEnum.max_enum_name self' = VkEnum.max_enum_name self /\
   VkEnum.bitwidth self' = VkEnum.bitwidth self /\
   VkEnum.extension self' = VkEnum.extension self /\
   VkEnum.guard self' = VkEnum.guard self) /\
  (forall n : string, is_Some (n2v self !! n) -> is_Some (n2v self' !! n)) /\
  (forall w c, VkEnum.values self !! w = Some c ->
     exists c', VkEnum.values self' !! w = Some c' /\
                (String.length c' <= String.length c)%nat).
Proof.
  intros H. split; [eapply add_value_frame, H|].
  apply add_value_Ok in H as [(b & _ & _ & ->)|(v & tr & Hres & _)].
  - simpl. split; [auto|eauto].
  - split.
    + intros n Hn. rewrite (resolves_n2v v self name tr self' n Hres).
      destruct (decide (n ∈ tr)); [eauto|exact Hn].
    + intros w c Hc. pose proof (proj1 (resolves_effect v) _ _ _ _ Hres) as ->.
      simpl. apply registers_values_shorter, Hc.
Qed.

Lemma add_value_keeps_witness :
  exists self',
    VkEnum.add_value 1 (VkEnum.record_value (VkEnum.init "VkX" 32 None) "LONGER" 1)
      "SHORT" (Some 1) None None None false = Ok self' /\
    is_Some (n2v self' !! "LONGER") /\
    exists c', VkEnum.values self' !! 1 = Some c' /\
               (String.length c' <= String.length "LONGER")%nat.
Proof.
  eexists. split; [vm_compute; reflexivity|].
  destruct (add_value_keeps 1 (VkEnum.record_value (VkEnum.init "VkX" 32 None) "LONGER" 1)
              "SHORT" (Some 1) None None None false _ ltac:(vm_compute; reflexivity))
    as (_ & Hn & Hv).
  split.
  - apply Hn. vm_compute. eauto.
  - apply Hv. vm_compute. reflexivity.
Defined.

(** ** The invariants of an enum *)

Definition pending_nonempty (self : VkEnum.t) : Prop :=
  forall (b : string) l, pending self !! b = Some l -> l <> [].

Lemma reachable_pending_nonempty self : reachable self -> pending_nonempty self.
Proof.
  induction 1 as [name bw vals | self fuel name value extnum offset alias error self' _ IH Hadd
                  | self g _ IH | self x _ IH].
  - intros b l H. simpl in H. rewrite lookup_empty in H. discriminate.
  - apply add_value_Ok in Hadd as [(b & _ & _ & ->)|(v & tr & Hres & _)].
    + intros b' l Hl. simpl in Hl. destruct (decide (b = b')) as [->|Hne].
      * rewrite lookup_insert_eq in Hl. injection Hl as <-.
        intros Hnil. apply app_eq_nil in Hnil as [_ Hnil]. discriminate.
      * rewrite lookup_insert_ne in Hl by exact Hne. eapply IH, Hl.
    + intros b l Hl. rewrite (resolves_pending v self name tr self' b Hres) in Hl.
      destruct (decide (b ∈ tr)); [discriminate|]. eapply IH, Hl.
  - exact IH.
  - exact IH.
Qed.

Lemma reachable_sentinel self :
  reachable self -> VkEnum.max_enum_name self = compute_max_enum_name (VkEnum.name self).
Proof.
  induction 1 as [name bw vals | self fuel name value extnum offset alias error self' _ IH Hadd
                  | self g _ IH | self x _ IH].
  - reflexivity.
  - destruct (add_value_frame _ _ _ _ _ _ _ _ _ Hadd) as (-> & -> & _). exact IH.
  - exact IH.
  - exact IH.
Qed.

(** X2. In every state an enum can reach: a name that waits for aliases has
    no value yet and its list is not empty; the value of every name has a
    canonical name, no longer than that name; so every resolved value is a
    case of the generated function. *)
Theorem enum_invariants self :
  reachable self ->
  (forall (b : string) l, pending self !! b = Some l -> n2v self !! b = None /\ l <> []) /\
  (forall name v, n2v self !! name = Some v ->
     exists c, VkEnum.values self !! v = Some c /\
               (String.length c <= String.length name)%nat /\
               (v, c) ∈ fn_cases (render_to_str_function self)).
Proof.
  intros Hr. destruct (reachable_invariants self Hr) as [Hc Hp]. split.
  - intros b l Hl. split; [|eapply reachable_pending_nonempty; eassumption].
    destruct (n2v self !! b) as [w|] eqn:Hw; [|reflexivity].
    rewrite (Hp b) in Hl by (rewrite Hw; eauto). discriminate.
  - intros name v Hn. destruct (Hc name v Hn) as (c & Hcv & Hlen).
    exists c. split; [exact Hcv|]. split; [exact Hlen|].
    apply fn_cases_canonical, Hcv.
Qed.

Lemma enum_invariants_witness :
  (forall (b : string) l,
     pending (VkEnum.defer_alias (VkEnum.init "VkX" 32 None) "B" "A") !! b = Some l ->
     n2v (VkEnum.defer_alias (VkEnum.init "VkX" 32 None) "B" "A") !! b = None /\ l <> []) /\
  (forall name v,
     n2v (VkEnum.defer_alias (VkEnum.init "VkX" 32 None) "B" "A") !! name = Some v ->
     exists c,
       VkEnum.values (VkEnum.defer_alias (VkEnum.init "VkX" 32 None) "B" "A") !! v = Some c /\
       (String.length c <= String.length name)%nat /\
       (v, c) ∈ fn_cases
                  (render_to_str_function
                     (VkEnum.defer_alias (VkEnum.init "VkX" 32 None) "B" "A"))).
Proof.
  apply enum_invariants.
  apply (reachable_add_value (VkEnum.init "VkX" 32 None) 1 "A" None None None (Some "B") false).
  - apply reachable_init.
  - vm_compute. reflexivity.
Defined.

(** X3. The sentinel of an enum is fixed by its name when the enum is made,
    and no operation changes it: the sentinel case of the generated function
    is [compute_max_enum_name] of the type the function is for. *)
Theorem sentinel_case_from_name self :
  reachable self ->
  fn_max_enum (render_to_str_function self) =
  compute_max_enum_name (fn_type (render_to_str_function self)).
Proof. intros Hr. simpl. apply reachable_sentinel, Hr. Qed.

Lemma sentinel_case_from_name_witness :
  fn_max_enum (render_to_str_function
                 (VkEnum.set_guard (VkEnum.init "VkResult" 32 None) "VK_USE_PLATFORM_X")) =
  compute_max_enum_name
    (fn_type (render_to_str_function
                (VkEnum.set_guard (VkEnum.init "VkResult" 32 None) "VK_USE_PLATFORM_X"))).
Proof.
  apply sentinel_case_from_name. apply reachable_set_guard, reachable_init.
Defined.

(** ** The exceptions of [add_value] *)

(** The names whose call is under way, [B], and the name of the call that
    starts, [x]: each name under way still has its alias list, and the list
    holds a name under way or [x]. *)
Definition under_way (self : VkEnum.t) (B : list string) (x : string) : Prop :=
  forall b, b ∈ B ->
    exists l y, pending self !! b = Some l /\ y ∈ l /\ (y ∈ B \/ y = x).

Definition flush_outcome (self : VkEnum.t) (B : list string) (x : string)
    (r : result VkEnum.t) : Prop :=
  match r with
  | Ok self' => (x ∉ B) /\ forall b, b ∈ B -> pending self' !! b = pending self !! b
  | Raise e => e = RecursionError
  end.

Lemma flush_under_way v : forall fuel self B x,
  under_way self B x -> flush_outcome self B x (flush fuel self x v).
Proof.
  induction fuel as [|fuel IH]; intros self B x HB; [rewrite flush_0; reflexivity|].
  rewrite flush_S. unfold flush_aliases. rewrite record_value_pending.
  destruct (pending self !! x) as [lx|] eqn:Hx.
  - assert (Hloop : forall l s,
               (forall a, a ∈ l -> a ∈ lx) ->
               (forall b, b ∈ x :: B -> pending s !! b = pending self !! b) ->
               match for_each (fun self alias => flush fuel self alias v) s l with
               | Ok s2 => (forall a, a ∈ l -> a ∉ x :: B) /\
                          (forall b, b ∈ x :: B -> pending s2 !! b = pending self !! b)
               | Raise e => e = RecursionError
               end).
    { induction l as [|a l IHl]; intros s Hl Hs; simpl.
      - split; [intros a Ha; inversion Ha|exact Hs].
      - assert (Hstack : under_way s (x :: B) a).
        { intros b Hb. rewrite (Hs b Hb). apply elem_of_cons in Hb as [->|Hb].
          - exists lx, a. split; [exact Hx|]. split; [apply Hl; left|right; reflexivity].
          - destruct (HB b Hb) as (l0 & y & Hl0 & Hy & Hyx).
            exists l0, y. split; [exact Hl0|]. split; [exact Hy|].
            left. destruct Hyx as [Hy'| ->]; [right; exact Hy'|left]. }
        specialize (IH s (x :: B) a Hstack).
        destruct (flush fuel s a v) as [s1|e]; simpl in *; [|exact IH].
        destruct IH as [Ha Hs1].
        specialize (IHl s1 (fun a' Ha' => Hl a' (list_elem_of_further _ _ _ Ha'))
                        (fun b Hb => eq_trans (Hs1 b Hb) (Hs b Hb))).
        destruct (for_each _ s1 l) as [s2|e]; [|exact IHl].
        destruct IHl as [Hl2 Hs2]. split; [|exact Hs2].
        intros a' Ha'. apply elem_of_cons in Ha' as [->|Ha']; [exact Ha|apply Hl2, Ha']. }
    specialize (Hloop lx (VkEnum.record_value self x v) (fun a Ha => Ha)
                      (fun b _ => f_equal (fun m => m !! b) (record_value_pending self x v))).
    destruct (for_each _ (VkEnum.record_value self x v) lx) as [s2|e]; simpl; [|exact Hloop].
    destruct Hloop as [Hnot Hs2].
    unfold VkEnum.del_alias_list. rewrite (Hs2 x) by left. rewrite Hx. simpl.
    assert (HxB : x ∉ B).
    { intros Hin. destruct (HB x Hin) as (l0 & y & Hl0 & Hy & Hyx).
      assert (l0 = lx) as -> by congruence.
      apply (Hnot y Hy). destruct Hyx as [Hy'| ->]; [right; exact Hy'|left]. }
    split; [exact HxB|]. intros b Hb.
    rewrite lookup_delete_ne by (intros ->; exact (HxB Hb)).
    apply Hs2. right. exact Hb.
  - simpl. split.
    + intros Hin. destruct (HB x Hin) as (l0 & y & Hl0 & _). congruence.
    + intros b _. rewrite record_value_pending. reflexivity.
Qed.

Lemma flush_raises fuel self x v e :
  flush fuel self x v = Raise e -> e = RecursionError.
Proof.
  intros H. pose proof (flush_under_way v fuel self [] x) as Hout.
  rewrite H in Hout. apply Hout. intros b Hb. inversion Hb.
Qed.

(** X4. [add_value] raises nothing but the failed assertions of lines 294
    and 305, the [TypeError] of an offset that is missing, and the error of
    a recursion that is too deep: the [del] of line 321 always finds its
    key, and the alias of line 303 is always there. *)
Theorem add_value_exceptions fuel self name value extnum offset alias error e :
  VkEnum.add_value fuel self name value extnum offset alias error = Raise e ->
  e = RecursionError \/
  (e = AssertionError /\
   ((alias <> None /\ (value <> None \/ offset <> None)) \/
    (alias = None /\ value = None /\ extnum = None))) \/
  (e = TypeError /\ alias = None /\ value = None /\ extnum <> None /\ offset = None).
Proof.
  destruct fuel as [|fuel]; [rewrite add_value_0; intros H; injection H as <-; auto|].
  rewrite add_value_S. destruct alias as [b|].
  - destruct value as [w|], offset as [o|]; simpl;
      try (intros H; injection H as <-; right; left; split; [reflexivity|];
           left; split; [discriminate|]; (left; discriminate) || (right; discriminate)).
    destruct (n2v self !! b) as [w|]; [|discriminate].
    rewrite <- flush_S. intros H. left. eapply flush_raises, H.
  - destruct value as [w|]; simpl.
    + rewrite <- flush_S. intros H. left. eapply flush_raises, H.
    + destruct extnum as [n|]; simpl.
      * destruct offset as [o|]; simpl.
        -- rewrite <- flush_S. intros H. left. eapply flush_raises, H.
        -- intros H. injection H as <-. right. right. repeat split; discriminate.
      * intros H. injection H as <-. right. left. split; [reflexivity|].
        right. auto.
Qed.

Lemma add_value_exceptions_witness :
  TypeError = RecursionError \/
  (TypeError = AssertionError /\
   ((@None string <> None /\ (@None Z <> None \/ @None Z <> None)) \/
    (@None string = None /\ @None Z = None /\ Some 5 = None))) \/
  (TypeError = TypeError /\ @None string = None /\ @None Z = None /\
   Some 5 <> None /\ @None Z = None).
Proof.
  apply (add_value_exceptions 1 (VkEnum.init "VkX" 32 None) "A" None (Some 5) None None false).
  vm_compute. reflexivity.
Defined.

Lemma flush_cycle_not_Ok fuel self x v self' :
  reaches self x x -> flush fuel self x v <> Ok self'.
Proof.
  intros Hcyc H. apply flush_resolves in H as (tr & Hres).
  assert (Hx : exists l, pending self !! x = Some l).
  { inversion Hcyc; subst; eauto. }
  destruct Hx as (lx & Hlx).
  inversion Hres as [? ? Hnone|? ? l0 tr0 s2 s3 Hl0 Hall Hdel]; subst; [congruence|].
  assert (l0 = lx) as -> by congruence.
  destruct (proj2 (resolves_closed v) _ _ _ _ Hall) as [Hhead Hclosed].
  assert (Hin : x ∈ tr0).
  { assert (Hstep : forall z, reaches self x z -> z ∈ tr0).
    { intros z Hz. inversion Hz as [? l y Hl Hy|? l y ? Hl Hy Hrest]; subst.
      - apply Hhead. congruence.
      - assert (l = lx) as -> by congruence.
        apply (reaches_trace self tr0) with (x := y); [|exact Hrest|apply Hhead, Hy].
        intros y' l' a Hy' Hl' Ha. eapply Hclosed; [exact Hy'| |exact Ha].
        rewrite record_value_pending. exact Hl'. }
    apply Hstep, Hcyc. }
  unfold VkEnum.del_alias_list in Hdel.
  rewrite (resolves_all_pending v _ lx tr0 s2 x Hall) in Hdel.
  rewrite decide_True in Hdel by exact Hin. discriminate.
Qed.

(** X5. When the aliases that wait form a cycle through a name, giving that
    name a value never ends: at every depth the recursion is cut off with a
    [RecursionError], whatever else the enum holds. *)
Theorem alias_cycle_recursion_error fuel self x v :
  reaches self x x ->
  VkEnum.add_value fuel self x (Some v) None None None false = Raise RecursionError.
Proof.
  intros Hcyc. change (flush fuel self x v = Raise RecursionError).
  destruct (flush fuel self x v) as [self'|e] eqn:H.
  - exfalso. eapply flush_cycle_not_Ok; eassumption.
  - apply flush_raises in H. congruence.
Qed.

Lemma alias_cycle_recursion_error_witness :
  exists self,
    for_each (declare 1) (VkEnum.init "VkX" 32 None) [AliasOf "A" "B"; AliasOf "B" "A"] =
      Ok self /\
    VkEnum.add_value 1000 self "A" (Some 5) None None None false = Raise RecursionError.
Proof.
  eexists. split; [vm_compute; reflexivity|].
  apply alias_cycle_recursion_error.
  apply (reaches_more _ "A" ["B"] "B" "A"); [vm_compute; reflexivity|left|].
  apply (reaches_one _ "B" ["A"] "A"); [vm_compute; reflexivity|left].
Defined.

(** ** The name of the all-bits constant *)

Lemma prefix_app a : forall s,
  String.prefix a s = true <-> exists r, s = a +:+ r.
Proof.
  induction a as [|c a IH]; intros s.
  - split; [intros _; exists s; reflexivity|]. intros _. destruct s; reflexivity.
  - destruct s as [|c' s]; simpl.
    + split; [discriminate|]. intros (r & Hr). discriminate.
    + destruct (Ascii.ascii_dec c c') as [->|Hne].
      * rewrite IH. split; intros (r & Hr); exists r.
        -- rewrite string_app_cons. congruence.
        -- rewrite string_app_cons in Hr. congruence.
      * split; [discriminate|]. intros (r & Hr).
        rewrite string_app_cons in Hr. congruence.
Qed.

Lemma string_app_nil_l a : EmptyString +:+ a = a.
Proof. reflexivity. Qed.

Lemma drop_chars_app a r : VkEnum.drop_chars (String.length a) (a +:+ r) = r.
Proof. induction a as [|c a IH]; [destruct r; reflexivity|exact IH]. Qed.

Lemma search_FlagBits_spec s :
  VkEnum.search_FlagBits s = true <->
  exists p r, s = p +:+ "FlagBits" +:+ r /\ VkEnum.capitals_to_end r = true.
Proof.
  induction s as [|c s IH].
  - simpl. split; [discriminate|]. intros (p & r & Hs & _).
    destruct p; discriminate.
  - change (VkEnum.search_FlagBits (String c s))
      with ((String.prefix "FlagBits" (String c s) &&
             VkEnum.capitals_to_end (VkEnum.drop_chars 8 (String c s))) ||
            VkEnum.search_FlagBits s).
    rewrite orb_true_iff, andb_true_iff, IH, prefix_app. split.
    + intros [[(r & Hr) Hcap]|(p & r & Hs & Hcap)].
      * exists EmptyString, r. split; [exact Hr|].
        rewrite Hr in Hcap. exact Hcap.
      * exists (String c p), r. rewrite string_app_cons. split; [congruence|exact Hcap].
    + intros (p & r & Hs & Hcap). destruct p as [|c' p].
      * left. split; [exists r; exact Hs|]. rewrite Hs. exact Hcap.
      * right. rewrite string_app_cons in Hs. injection Hs as -> ->. eauto.
Qed.

(** X6. [all_bits_name] gives a name exactly for the enums called
    [Vk...FlagBits] followed by capitals only (and at most a final newline);
    the name is [VK_ALL_] and the rest of the enum's name in upper snake
    case.  For every other enum it fails an assertion: so for [VkFlagBits2],
    where a digit follows. *)
Theorem all_bits_name_spec :
  (forall self n,
     VkEnum.all_bits_name self = Ok n <->
     exists p r,
       VkEnum.name self = "Vk" +:+ p +:+ "FlagBits" +:+ r /\
       VkEnum.capitals_to_end r = true /\
       n = "VK_ALL_" +:+ CamelCase_to_SHOUT_CASE (p +:+ "FlagBits" +:+ r)) /\
  (forall self e, VkEnum.all_bits_name self = Raise e -> e = AssertionError).
Proof.
  split.
  - intros self n. unfold VkEnum.all_bits_name. split.
    + destruct (String.prefix "Vk" (VkEnum.name self)) eqn:Hvk; cbn [negb]; [|discriminate].
      destruct (VkEnum.search_FlagBits (VkEnum.name self)) eqn:Hfb; cbn [negb];
        [|discriminate].
      intros H. injection H as <-.
      apply prefix_app in Hvk as (t & Ht).
      apply search_FlagBits_spec in Hfb as (p & r & Hs & Hcap).
      rewrite Ht in Hs. rewrite !string_app_cons, string_app_nil_l in Hs.
      destruct p as [|c0 [|c1 p]];
        rewrite ?string_app_cons, ?string_app_nil_l in Hs; try discriminate Hs.
      injection Hs as <- <- ->.
      exists p, r. rewrite Ht. split; [reflexivity|]. split; [exact Hcap|].
      rewrite !string_app_cons, string_app_nil_l. reflexivity.
    + intros (p & r & Hname & Hcap & ->). rewrite Hname.
      assert (Hvk : String.prefix "Vk" ("Vk" +:+ p +:+ "FlagBits" +:+ r) = true).
      { apply prefix_app. eauto. }
      assert (Hfb : VkEnum.search_FlagBits ("Vk" +:+ p +:+ "FlagBits" +:+ r) = true).
      { apply search_FlagBits_spec. exists ("Vk" +:+ p), r.
        rewrite string_app_assoc. auto. }
      rewrite Hvk, Hfb. reflexivity.
  - intros self e. unfold VkEnum.all_bits_name.
    destruct (negb _); [intros H; injection H as <-; reflexivity|].
    destruct (negb _); [intros H; injection H as <-; reflexivity|discriminate].
Qed.

Lemma all_bits_name_spec_witness :
  exists p r,
    VkEnum.name (VkEnum.init "VkDebugReportFlagBitsEXT" 32 None) =
      "Vk" +:+ p +:+ "FlagBits" +:+ r /\
    VkEnum.capitals_to_end r = true /\
    "VK_ALL_DEBUG_REPORT_FLAG_BITS_EXT" =
      "VK_ALL_" +:+ CamelCase_to_SHOUT_CASE (p +:+ "FlagBits" +:+ r).
Proof.
  apply (proj1 all_bits_name_spec (VkEnum.init "VkDebugReportFlagBitsEXT" 32 None)).
  vm_compute. reflexivity.
Defined.

(** ** The third artifact *)

Lemma render_all_bits_Raise : forall bitmasks e,
  render_all_bits bitmasks = Raise e <->
  e = AssertionError /\
  exists enum, enum ∈ bitmasks /\ VkEnum.bitwidth enum <= 32 /\
               VkEnum.all_bits_name enum = Raise AssertionError.
Proof.
  induction bitmasks as [|enum bitmasks IH]; intros e; simpl.
  - split; [discriminate|]. intros (_ & enum & H & _). inversion H.
  - destruct (32 <? VkEnum.bitwidth enum) eqn:Hbw.
    + apply Z.ltb_lt in Hbw. rewrite IH. split.
      * intros (He & enum' & Hin & Hle & Hn). split; [exact He|].
        exists enum'. split; [right; exact Hin|auto].
      * intros (He & enum' & Hin & Hle & Hn). split; [exact He|].
        exists enum'. apply elem_of_cons in Hin as [->|Hin]; [lia|auto].
    + apply Z.ltb_ge in Hbw.
      destruct (VkEnum.all_bits_name enum) as [n|e'] eqn:Hn; simpl.
      * destruct (render_all_bits bitmasks) as [rest|e'] eqn:Hrest; simpl.
        -- split; [discriminate|]. intros (He & enum' & Hin & Hle & Hn').
           apply elem_of_cons in Hin as [->|Hin]; [congruence|].
           assert (Raise (A := list all_bits_define) e = Raise e) as Habs by reflexivity.
           exfalso. assert (Hx : @Ok (list all_bits_define) rest = Raise e);
             [apply IH; split; [exact He|eauto]|discriminate Hx].
        -- split.
           ++ intros H. injection H as <-.
              destruct (proj1 (IH e') eq_refl) as (He & enum' & Hin & Hle & Hn').
              split; [exact He|]. exists enum'. split; [right; exact Hin|auto].
           ++ intros (He & _). f_equal.
              destruct (proj1 (IH e') eq_refl) as (He' & _). congruence.
      * pose proof (proj2 all_bits_name_spec enum e' Hn) as ->. split.
        -- intros H. injection H as <-. split; [reflexivity|].
           exists enum. split; [left|auto].
        -- intros (-> & _). reflexivity.
Qed.

(** X7. The third template fails to render exactly when some bitmask of at
    most 32 bits has a name that [all_bits_name] rejects, and then with an
    [AssertionError]; the names of the wider bitmasks are never looked
    at. *)
Theorem render_H_DEFINE_TEMPLATE_fails extensions bitmasks e :
  render_H_DEFINE_TEMPLATE extensions bitmasks = Raise e <->
  e = AssertionError /\
  exists enum, enum ∈ bitmasks /\ VkEnum.bitwidth enum <= 32 /\
               VkEnum.all_bits_name enum = Raise AssertionError.
Proof.
  rewrite <- render_all_bits_Raise. unfold render_H_DEFINE_TEMPLATE.
  destruct (render_all_bits bitmasks) as [all_bits|e']; simpl.
  - split; discriminate.
  - split; intros H; injection H as ->; reflexivity.
Qed.

Lemma render_all_bits_skip enum l2 : forall l1,
  32 < VkEnum.bitwidth enum ->
  render_all_bits (l1 ++ enum :: l2) = render_all_bits (l1 ++ l2).
Proof.
  intros l1 Hbw. induction l1 as [|a l1 IH]; simpl.
  - apply Z.ltb_lt in Hbw. rewrite Hbw. reflexivity.
  - rewrite IH. reflexivity.
Qed.

(** X8. A bitmask wider than 32 bits and narrower than 64 leaves no trace in
    the third artifact: it gets no all-bits constant and its values are not
    given again. *)
Theorem middle_width_bitmask_not_emitted extensions l1 enum l2 :
  32 < VkEnum.bitwidth enum < 64 ->
  render_H_DEFINE_TEMPLATE extensions (l1 ++ enum :: l2) =
  render_H_DEFINE_TEMPLATE extensions (l1 ++ l2).
Proof.
  intros [Hlo Hhi]. unfold render_H_DEFINE_TEMPLATE, render_redefinitions.
  rewrite (render_all_bits_skip enum l2 l1 Hlo).
  rewrite !List.filter_app. simpl.
  apply Z.ltb_lt in Hhi. rewrite Hhi. reflexivity.
Qed.

Lemma middle_width_bitmask_not_emitted_witness :
  render_H_DEFINE_TEMPLATE [] ([] ++ VkEnum.init "VkFoo" 48 None :: []) =
  render_H_DEFINE_TEMPLATE [] ([] ++ []).
Proof. apply middle_width_bitmask_not_emitted. simpl. lia. Defined.

(** ** The first two artifacts *)

(** X9. The header declares the functions that the source defines: the same
    functions in the same order, for the same types and under the same
    guards. *)
Theorem prototypes_match_functions enums structs object_types a :
  render_C_TEMPLATE enums structs object_types = Ok (C_file a) ->
  render_H_TEMPLATE enums =
  Ok (H_file (map (fun fn => (fn_guard fn, fn_suffix fn, fn_type fn)) (c_functions a))).
Proof.
  unfold render_C_TEMPLATE, render_H_TEMPLATE. intros H.
  apply bind_Ok in H as (names & _ & H). injection H as <-. simpl.
  rewrite List.map_map. reflexivity.
Qed.

Lemma prototypes_match_functions_witness :
  render_H_TEMPLATE [VkEnum.init "VkResult" 32 None] =
  Ok (H_file (map (fun fn => (fn_guard fn, fn_suffix fn, fn_type fn))
                  [render_to_str_function (VkEnum.init "VkResult" 32 None)])).
Proof.
  apply (prototypes_match_functions [VkEnum.init "VkResult" 32 None] []
           [VkObjectType.init "VkObjectType"]
           (mk_c_artifact [render_to_str_function (VkEnum.init "VkResult" 32 None)] [] [])).
  vm_compute. reflexivity.
Defined.

(** X10. The generated function has one case for each value of the enum,
    whatever the number of names with that value: the cases are those of
    the map of canonical names, in increasing order of the value. *)
Theorem to_str_cases_one_per_value enum :
  StronglySorted Z.lt (fn_cases (render_to_str_function enum)).*1 /\
  (forall v n, (v, n) ∈ fn_cases (render_to_str_function enum) <->
               VkEnum.values enum !! v = Some n) /\
  (forall v n n', (v, n) ∈ fn_cases (render_to_str_function enum) ->
                  (v, n') ∈ fn_cases (render_to_str_function enum) -> n = n').
Proof.
  split; [apply fn_cases_sorted|]. split; [apply fn_cases_canonical|].
  intros v n n' H H'. apply fn_cases_canonical in H, H'. congruence.
Qed.

Lemma render_H_DEFINE_TEMPLATE_fails_witness :
  render_H_DEFINE_TEMPLATE []
    [VkEnum.init "VkAccessFlagBits2" 64 None; VkEnum.init "VkFlagBits2" 32 None] =
  Raise AssertionError.
Proof.
  apply render_H_DEFINE_TEMPLATE_fails. split; [reflexivity|].
  exists (VkEnum.init "VkFlagBits2" 32 None). split; [right; left|].
  split; [simpl; lia|vm_compute; reflexivity].
Defined.

Lemma to_str_cases_one_per_value_witness :
  (1, "A") ∈ fn_cases (render_to_str_function
                         (records [("LONG", 1); ("A", 1); ("B", 1)] (VkEnum.init "VkX" 32 None))) /\
  forall n', (1, n') ∈ fn_cases (render_to_str_function
                         (records [("LONG", 1); ("A", 1); ("B", 1)] (VkEnum.init "VkX" 32 None))) ->
             "A" = n'.
Proof.
  destruct (to_str_cases_one_per_value
              (records [("LONG", 1); ("A", 1); ("B", 1)] (VkEnum.init "VkX" 32 None)))
    as (_ & Hiff & Huniq).
  assert (H : (1, "A") ∈ fn_cases (render_to_str_function
                (records [("LONG", 1); ("A", 1); ("B", 1)] (VkEnum.init "VkX" 32 None)))).
  { apply Hiff. vm_compute. reflexivity. }
  split; [exact H|]. intros n' Hn'. exact (Huniq 1 "A" n' H Hn').
Defined.

(** ** NamedFactory *)

(** X11. A factory makes an entity once: after a call the entity is found
    under its name, a second call for the name gives the same entity and
    leaves the registry as it is, whatever it is asked to make, and no other
    name is touched. *)
Theorem factory_call_once {T : Type} (registry : gmap string T) (name : string)
    (make1 make2 : T) :
  let r1 := (factory_call registry name make1).1 in
  let n1 := (factory_call registry name make1).2 in
  r1 !! name = Some n1 /\
  factory_call r1 name make2 = (r1, n1) /\
  (forall k, k <> name -> r1 !! k = registry !! k) /\
  (forall n, registry !! name = Some n -> r1 = registry /\ n1 = n).
Proof.
  unfold factory_call. destruct (registry !! name) as [n|] eqn:Hn; simpl.
  - rewrite Hn. split; [reflexivity|]. split; [reflexivity|].
    split; [reflexivity|]. intros n' H. injection H as <-. auto.
  - rewrite lookup_insert_eq. split; [reflexivity|]. split; [reflexivity|].
    split; [|discriminate]. intros k Hk. apply lookup_insert_ne. congruence.
Qed.

(** ** struct_get_stype *)

(** A member whose first [name] child reads [sType]. *)
Definition is_sType_member (member : Element) : bool :=
  match findall [("name", Any)] member with
  | name0 :: _ => bool_decide (text name0 = Some "sType")
  | [] => false
  end.

Lemma struct_get_stype_members_skip l1 : forall rest,
  (forall m, m ∈ l1 -> is_sType_member m = false) ->
  struct_get_stype_members (l1 ++ rest) = struct_get_stype_members rest.
Proof.
  induction l1 as [|m l1 IH]; intros rest H; [reflexivity|].
  change ((m :: l1) ++ rest) with (m :: (l1 ++ rest)).
  pose proof (H m (list_elem_of_here _ _)) as Hm. unfold is_sType_member in Hm.
  cbn [struct_get_stype_members].
  destruct (findall [("name", Any)] m) as [|name0 names].
  - apply IH. intros m' Hm'. apply H. right. exact Hm'.
  - rewrite Hm. apply IH. intros m' Hm'. apply H. right. exact Hm'.
Qed.

(** X12. [struct_get_stype] reads the [values] of the first member called
    [sType], and of no other: without such a member, and also when that
    first member has no [values], it gives nothing, even if a later member
    called [sType] has them. *)
Theorem struct_get_stype_first_member xml_node :
  ((forall m, m ∈ findall [("member", Any)] xml_node -> is_sType_member m = false) ->
   struct_get_stype xml_node = None) /\
  (forall l1 m l2,
     findall [("member", Any)] xml_node = l1 ++ m :: l2 ->
     (forall m', m' ∈ l1 -> is_sType_member m' = false) ->
     is_sType_member m = true ->
     struct_get_stype xml_node = attrib m !! "values").
Proof.
  unfold struct_get_stype. split.
  - intros H. rewrite <- (app_nil_r (findall _ xml_node)).
    rewrite struct_get_stype_members_skip by exact H. reflexivity.
  - intros l1 m l2 -> Hl1 Hm. rewrite struct_get_stype_members_skip by exact Hl1.
    unfold is_sType_member in Hm. cbn [struct_get_stype_members].
    destruct (findall [("name", Any)] m) as [|name0 names]; [discriminate|].
    rewrite Hm. reflexivity.
Qed.

Definition sType_member (values : list (string * string)) : Element :=
  element "member" values None
    [element "type" [] (Some "VkStructureType") []; element "name" [] (Some "sType") []].

Lemma struct_get_stype_first_member_witness :
  struct_get_stype
    (element "type" [("category", "struct"); ("name", "VkS")] None
       [element "member" [] None [element "name" [] (Some "pNext") []];
        sType_member [];
        sType_member [("values", "VK_STRUCTURE_TYPE_S")]]) = None /\
  struct_get_stype
    (element "type" [("category", "struct"); ("name", "VkT")] None
       [element "member" [] None [element "name" [] (Some "flags") []]]) = None.
Proof.
  split.
  - apply (proj2 (struct_get_stype_first_member _)
             [element "member" [] None [element "name" [] (Some "pNext") []]]
             (sType_member [])
             [sType_member [("values", "VK_STRUCTURE_TYPE_S")]]).
    + vm_compute. reflexivity.
    + intros m' Hm'. apply list_elem_of_singleton in Hm' as ->. vm_compute. reflexivity.
    + vm_compute. reflexivity.
  - apply (proj1 (struct_get_stype_first_member _)).
    intros m Hm. vm_compute in Hm. apply list_elem_of_singleton in Hm as ->.
    vm_compute. reflexivity.
Defined.

(** ** CamelCase_to_SHOUT_CASE *)

Fixpoint strip_underscores (s : string) : string :=
  match s with
  | EmptyString => EmptyString
  | String c s' =>
      if Ascii.eqb c "_" then strip_underscores s' else String c (strip_underscores s')
  end.

Fixpoint no_lower (s : string) : bool :=
  match s with
  | EmptyString => true
  | String c s' => negb (is_lower c) && no_lower s'
  end.

Lemma upper_char_not_lower c : is_lower (upper_char c) = false.
Proof.
  destruct c as [[] [] [] [] [] [] [] []]; vm_compute; reflexivity.
Qed.

Lemma upper_no_lower s : no_lower (upper s) = true.
Proof.
  induction s as [|c s IH]; [reflexivity|]. simpl.
  rewrite upper_char_not_lower, IH. reflexivity.
Qed.

Lemma upper_char_underscore c : Ascii.eqb (upper_char c) "_" = Ascii.eqb c "_".
Proof.
  destruct c as [[] [] [] [] [] [] [] []]; vm_compute; reflexivity.
Qed.

Lemma strip_re_sub_caps s : forall prev,
  strip_underscores (upper (re_sub_caps prev s)) = strip_underscores (upper s).
Proof.
  induction s as [|c s IH]; intros prev; [reflexivity|]. simpl.
  destruct (is_upper c && negb prev) eqn:H; simpl.
  - rewrite !upper_char_underscore. rewrite IH. reflexivity.
  - rewrite !upper_char_underscore, IH. reflexivity.
Qed.

Lemma length_re_sub_caps s : forall prev,
  (String.length s <= String.length (re_sub_caps prev s) <= 2 * String.length s)%nat.
Proof.
  induction s as [|c s IH]; intros prev; simpl; [lia|].
  destruct (is_upper c && negb prev); simpl.
  - specialize (IH true). lia.
  - specialize (IH (is_upper c)). lia.
Qed.

Lemma length_upper s : String.length (upper s) = String.length s.
Proof. induction s as [|c s IH]; simpl; congruence. Qed.

(** X13. [CamelCase_to_SHOUT_CASE] only puts in underscores and turns small
    letters into capitals: without its underscores the result is the
    identifier in capitals without its own; no small letter is left; the
    result is at least as long as the identifier and, when the identifier
    is not empty, less than twice as long; the empty identifier gives the
    empty string. *)
Theorem CamelCase_to_SHOUT_CASE_shape s :
  strip_underscores (CamelCase_to_SHOUT_CASE s) = strip_underscores (upper s) /\
  no_lower (CamelCase_to_SHOUT_CASE s) = true /\
  (String.length s <= String.length (CamelCase_to_SHOUT_CASE s))%nat /\
  (s <> EmptyString ->
   (String.length (CamelCase_to_SHOUT_CASE s) < 2 * String.length s)%nat) /\
  CamelCase_to_SHOUT_CASE EmptyString = EmptyString.
Proof.
  unfold CamelCase_to_SHOUT_CASE.
  split; [|split; [apply upper_no_lower|]].
  - destruct s as [|c s]; [reflexivity|]. simpl slice_to_1. simpl slice_from_1.
    rewrite string_app_cons, string_app_nil_l. simpl.
    rewrite strip_re_sub_caps. reflexivity.
  - rewrite length_upper. destruct s as [|c s].
    { split; [simpl; lia|]. split; [congruence|reflexivity]. }
    simpl slice_to_1. simpl slice_from_1.
    rewrite string_app_cons, string_app_nil_l. simpl.
    pose proof (length_re_sub_caps s false). split; [lia|].
    split; [intros _; lia|reflexivity].
Qed.

Lemma CamelCase_to_SHOUT_CASE_shape_witness :
  "VkResult" <> EmptyString /\
  (String.length "VkResult" <= String.length (CamelCase_to_SHOUT_CASE "VkResult"))%nat /\
  (String.length (CamelCase_to_SHOUT_CASE "VkResult") < 2 * String.length "VkResult")%nat.
Proof.
  assert (H : "VkResult" <> EmptyString) by discriminate.
  destruct (CamelCase_to_SHOUT_CASE_shape "VkResult") as (_ & _ & Hle & Hlt & _).
  split; [exact H|]. split; [exact Hle|exact (Hlt H)].
Defined.

Lemma factory_call_once_witness :
  factory_call (factory_call (∅ : gmap string VkObjectType.t) "VkObjectType"
                  (VkObjectType.init "VkObjectType")).1
               "VkObjectType" (VkObjectType.mk "other" ∅) =
  ((factory_call (∅ : gmap string VkObjectType.t) "VkObjectType"
      (VkObjectType.init "VkObjectType")).1,
   (factory_call (∅ : gmap string VkObjectType.t) "VkObjectType"
      (VkObjectType.init "VkObjectType")).2).
Proof.
  exact (proj1 (proj2 (factory_call_once (∅ : gmap string VkObjectType.t) "VkObjectType"
                         (VkObjectType.init "VkObjectType") (VkObjectType.mk "other" ∅)))).
Defined.

(** ** Constants read from the registry *)

Lemma attrib_has_None e k : attrib e !! k = None -> attrib_has e k = false.
Proof.
  intros H. unfold attrib_has. rewrite H. apply bool_decide_eq_false_2.
  intros [x Hx]. discriminate.
Qed.

Lemma attrib_has_Some e k x : attrib e !! k = Some x -> attrib_has e k = true.
Proof.
  intros H. unfold attrib_has. rewrite H. apply bool_decide_eq_true_2. eauto.
Qed.

Lemma attrib_item_Some e k x : attrib e !! k = Some x -> attrib_item e k = Ok x.
Proof. intros H. unfold attrib_item. rewrite H. reflexivity. Qed.

Lemma resolves_values_key v self x tr self' :
  resolves v self x tr self' -> is_Some (VkEnum.values self' !! v).
Proof.
  intros Hres. pose proof (proj1 (resolves_effect v) _ _ _ _ Hres) as ->. simpl.
  assert (Htr : exists tr', tr = x :: tr') by (inversion Hres; subst; eauto).
  destruct Htr as (tr' & ->). simpl.
  assert (Hkey : is_Some (VkEnum.values (VkEnum.record_value self x v) !! v)).
  { rewrite record_value_values. destruct (VkEnum.values self !! v) as [old|] eqn:Hold.
    - destruct (_ <? _)%nat; [rewrite lookup_insert_eq|rewrite Hold]; eauto.
    - rewrite lookup_insert_eq. eauto. }
  destruct Hkey as (c & Hc).
  destruct (registers_values_shorter v tr' _ v c Hc) as (c' & Hc' & _). eauto.
Qed.

Lemma add_value_resolved fuel self name v self' :
  VkEnum.add_value fuel self name (Some v) None None None false = Ok self' ->
  n2v self' !! name = Some v /\ is_Some (VkEnum.values self' !! v).
Proof.
  intros H. apply add_value_Ok in H as [(b & Hb & _)|(w & tr & Hres & Hw)]; [discriminate|].
  simpl in Hw. injection Hw as <-. split.
  - rewrite (resolves_n2v _ _ _ _ _ name Hres).
    rewrite decide_True by (eapply resolves_head; eassumption). reflexivity.
  - eapply resolves_values_key, Hres.
Qed.

Section Constants.

Variable int_base0 : string -> result Z.
Variable int_ : string -> result Z.
Variable recursion_limit : nat.

Abbreviation add_value_from_xml' := (add_value_from_xml int_base0 int_ recursion_limit).

Lemma add_value_from_xml_frame self elem extension self' :
  add_value_from_xml' self elem extension = Ok self' ->
  VkEnum.name self' = VkEnum.name self /\
  VkEnum.guard self' = VkEnum.guard self /\
  VkEnum.bitwidth self' = VkEnum.bitwidth self /\
  VkEnum.extension self' = extension /\
  (reachable self -> reachable self').
Proof.
  intros H. apply add_value_from_xml_Ok in H
    as (name & value & extnum & offset & alias & error & H).
  destruct (add_value_frame _ _ _ _ _ _ _ _ _ H) as (Hn & _ & Hb & Hx & Hg).
  simpl in *. repeat split; try assumption.
  intros Hr. eapply reachable_add_value; [|exact H].
  apply reachable_set_extension, Hr.
Qed.

(** X14. A constant given by a bit position [n] resolves to [2^n], and the
    bit [n] is then set in the all-bits value of the enum; a negative
    position raises a [ValueError].  A [value] attribute would have been
    read instead. *)
Theorem bitpos_constant self elem extension name s n :
  attrib elem !! "value" = None ->
  attrib elem !! "bitpos" = Some s ->
  attrib elem !! "name" = Some name ->
  int_base0 s = Ok n ->
  (n < 0 -> add_value_from_xml' self elem extension = Raise ValueError) /\
  (0 <= n -> forall self',
     add_value_from_xml' self elem extension = Ok self' ->
     n2v self' !! name = Some (2 ^ n) /\
     Z.testbit (VkEnum.all_bits_value self') n = true).
Proof.
  intros Hvalue Hbitpos Hname Hint. unfold add_value_from_xml.
  rewrite (attrib_has_None _ _ Hvalue), (attrib_has_Some _ _ _ Hbitpos).
  rewrite (attrib_item_Some _ _ _ Hname), (attrib_item_Some _ _ _ Hbitpos). simpl.
  rewrite Hint. simpl. unfold shift_one. split.
  - intros Hneg. apply Z.ltb_lt in Hneg. rewrite Hneg. reflexivity.
  - intros Hpos self'. assert (Hge : (n <? 0) = false) by (apply Z.ltb_ge; lia).
    rewrite Hge. simpl. rewrite Z.shiftl_1_l. intros H.
    apply add_value_resolved in H as [Hn [c Hc]]. split; [exact Hn|].
    apply map_fold_lor_testbit. exists (2 ^ n), c. split; [exact Hc|].
    apply Z.pow2_bits_true. exact Hpos.
Qed.

(** X15. A constant given by an offset takes the number of its extension
    from its own [extnumber] when it has one, else from the extension that
    requires it, and is negated when [dir] is ["-"]; with neither an
    [extnumber] nor an extension (a constant required by a feature) the
    call raises an [AttributeError]. *)
Theorem offset_constant self elem extension name so o :
  attrib elem !! "value" = None ->
  attrib elem !! "bitpos" = None ->
  attrib elem !! "alias" = None ->
  attrib elem !! "name" = Some name ->
  attrib elem !! "offset" = Some so ->
  int_ so = Ok o ->
  (forall se n self',
     attrib elem !! "extnumber" = Some se -> int_ se = Ok n ->
     add_value_from_xml' self elem extension = Ok self' ->
     n2v self' !! name =
     Some (VkEnum.extension_value n o (bool_decide (attrib elem !! "dir" = Some "-")))) /\
  (forall x n self',
     attrib elem !! "extnumber" = None ->
     extension = Some x -> VkExtension.number x = Some n ->
     add_value_from_xml' self elem extension = Ok self' ->
     n2v self' !! name =
     Some (VkEnum.extension_value n o (bool_decide (attrib elem !! "dir" = Some "-")))) /\
  (attrib elem !! "extnumber" = None -> extension = None ->
   add_value_from_xml' self elem extension = Raise AttributeError).
Proof.
  intros Hvalue Hbitpos Halias Hname Hoffset Hint. unfold add_value_from_xml.
  rewrite (attrib_has_None _ _ Hvalue), (attrib_has_None _ _ Hbitpos),
    (attrib_has_None _ _ Halias).
  rewrite (attrib_item_Some _ _ _ Hname), (attrib_item_Some _ _ _ Hoffset).
  split; [|split].
  - intros se n self' Hext Hse.
    rewrite (attrib_has_Some _ _ _ Hext), (attrib_item_Some _ _ _ Hext). simpl.
    rewrite Hse. simpl. rewrite Hint. simpl. apply add_value_offset_Ok.
  - intros x n self' Hext -> Hnum. rewrite (attrib_has_None _ _ Hext). simpl.
    rewrite Hint, Hnum. simpl. apply add_value_offset_Ok.
  - intros Hext ->. rewrite (attrib_has_None _ _ Hext). reflexivity.
Qed.

End Constants.

Lemma bitpos_constant_witness :
  exists self',
    add_value_from_xml decimal_int decimal_int 10 (VkEnum.init "VkAccessFlagBits" 32 None)
      (element "enum" [("bitpos", "4"); ("name", "VK_ACCESS_E_BIT")] None []) None = Ok self' /\
    n2v self' !! "VK_ACCESS_E_BIT" = Some (2 ^ 4) /\
    Z.testbit (VkEnum.all_bits_value self') 4 = true.
Proof.
  eexists. split; [vm_compute; reflexivity|].
  apply (proj2 (bitpos_constant decimal_int decimal_int 10
                  (VkEnum.init "VkAccessFlagBits" 32 None)
                  (element "enum" [("bitpos", "4"); ("name", "VK_ACCESS_E_BIT")] None [])
                  None "VK_ACCESS_E_BIT" "4" 4
                  ltac:(vm_compute; reflexivity) ltac:(vm_compute; reflexivity)
                  ltac:(vm_compute; reflexivity) ltac:(vm_compute; reflexivity))).
  - lia.
  - vm_compute. reflexivity.
Defined.

Lemma offset_constant_witness :
  (exists self',
     add_value_from_xml decimal_int decimal_int 10 (VkEnum.init "VkResult" 32 None)
       (element "enum" [("offset", "3"); ("extnumber", "5"); ("dir", "-");
                        ("name", "VK_ERROR_X")] None [])
       (Some (VkExtension.mk "VK_EXT_y" (Some 9) None)) = Ok self' /\
     n2v self' !! "VK_ERROR_X" = Some (-1000004003)) /\
  add_value_from_xml decimal_int decimal_int 10 (VkEnum.init "VkResult" 32 None)
    (element "enum" [("offset", "3"); ("name", "VK_ERROR_X")] None []) None =
  Raise AttributeError.
Proof.
  split.
  - eexists. split; [vm_compute; reflexivity|].
    apply (proj1 (offset_constant decimal_int decimal_int 10
                    (VkEnum.init "VkResult" 32 None)
                    (element "enum" [("offset", "3"); ("extnumber", "5"); ("dir", "-");
                                     ("name", "VK_ERROR_X")] None [])
                    (Some (VkExtension.mk "VK_EXT_y" (Some 9) None)) "VK_ERROR_X" "3" 3
                    ltac:(vm_compute; reflexivity) ltac:(vm_compute; reflexivity)
                    ltac:(vm_compute; reflexivity) ltac:(vm_compute; reflexivity)
                    ltac:(vm_compute; reflexivity) ltac:(vm_compute; reflexivity))
             "5" 5).
    + vm_compute. reflexivity.
    + vm_compute. reflexivity.
    + vm_compute. reflexivity.
  - apply (proj2 (proj2 (offset_constant decimal_int decimal_int 10
                    (VkEnum.init "VkResult" 32 None)
                    (element "enum" [("offset", "3"); ("name", "VK_ERROR_X")] None [])
                    None "VK_ERROR_X" "3" 3
                    ltac:(vm_compute; reflexivity) ltac:(vm_compute; reflexivity)
                    ltac:(vm_compute; reflexivity) ltac:(vm_compute; reflexivity)
                    ltac:(vm_compute; reflexivity) ltac:(vm_compute; reflexivity)))).
    + vm_compute. reflexivity.
    + reflexivity.
Defined.

(** ** Passes of [parse_xml] *)

Lemma findall_from_matches st : forall path es e,
  e ∈ findall_from (path ++ [st]) es -> matches st e = true.
Proof.
  induction path as [|st' path IH]; intros es e He; simpl in He.
  - apply list_elem_of_In, List.in_flat_map in He as (parent & _ & He).
    apply List.filter_In in He as [_ He]. exact He.
  - eapply IH, He.
Qed.

Lemma for_each_unchanged {S A : Type} (body : S -> A -> result S) (s : S) l :
  (forall a, a ∈ l -> body s a = Ok s) -> for_each body s l = Ok s.
Proof.
  induction l as [|a l IH]; intros H; simpl; [reflexivity|].
  rewrite (H a) by left. simpl. apply IH. intros a' Ha'. apply H. right. exact Ha'.
Qed.

(** X16. A last handle has the last word: when its [objtypeenum] resolves
    to a value, the object-type table ends with the text of its last [name]
    child for that value, whatever the handles before it recorded. *)
Theorem object_name_last_wins f handles object_type names object_name
    obj_types obj_types' v :
  names_of object_type = names ++ [object_name] ->
  discriminant f object_type = Some v ->
  add_object_types f (handles ++ [object_type]) obj_types = Ok obj_types' ->
  VkObjectType.enum_to_name obj_types' !! v = Some (text object_name).
Proof.
  intros Hnames Hv. unfold add_object_types. rewrite for_each_app. intros H.
  apply bind_Ok in H as (o1 & _ & H). simpl in H.
  apply bind_Ok in H as (o2 & H & Ho2). injection Ho2 as <-.
  unfold names_of in Hnames. rewrite Hnames, for_each_app in H.
  apply bind_Ok in H as (o3 & _ & H). simpl in H.
  rewrite (add_object_name_Some f object_type o3 object_name v Hv) in H.
  simpl in H. injection H as <-. simpl. apply lookup_insert_eq.
Qed.

Lemma object_name_last_wins_witness :
  exists obj_types',
    add_object_types object_type_enums
      ([instance_handle] ++
       [element "type" [("category", "handle"); ("objtypeenum", "VK_OBJECT_TYPE_INSTANCE")]
          None [element "name" [] (Some "VkInstance2") []]])
      (VkObjectType.init "VkObjectType") = Ok obj_types' /\
    VkObjectType.enum_to_name obj_types' !! 1 = Some (Some "VkInstance2").
Proof.
  eexists. split; [vm_compute; reflexivity|].
  apply (object_name_last_wins object_type_enums [instance_handle]
           (element "type" [("category", "handle"); ("objtypeenum", "VK_OBJECT_TYPE_INSTANCE")]
              None [element "name" [] (Some "VkInstance2") []])
           [] (element "name" [] (Some "VkInstance2") [])
           (VkObjectType.init "VkObjectType") _ 1).
  - vm_compute. reflexivity.
  - vm_compute. reflexivity.
  - vm_compute. reflexivity.
Defined.

Section Passes.

Variable int_base0 : string -> result Z.
Variable int_ : string -> result Z.
Variable et_parse : string -> result Element.
Variable recursion_limit : nat.

Abbreviation extend_enums' := (extend_enums int_base0 int_ recursion_limit).
Abbreviation parse_features' := (parse_features int_base0 int_ recursion_limit).

(** X17. A constant that extends an enumeration that is in neither registry
    is passed over without an error and without a look at its other
    attributes: a feature list all of whose constants extend unknown
    enumerations leaves the registries as they are. *)
Theorem unknown_base_skipped f xml :
  (forall value extends,
     value ∈ findall [("feature", Any); ("require", Any); ("enum", HasAttr "extends")] xml ->
     attrib value !! "extends" = Some extends ->
     enum_factory f !! extends = None /\ bitmask_factory f !! extends = None) ->
  parse_features' f xml = Ok f.
Proof.
  intros H. unfold parse_features. apply for_each_unchanged. intros value Hvalue.
  pose proof (findall_from_matches ("enum", HasAttr "extends")
                [("feature", Any); ("require", Any)] [xml] value Hvalue) as Hm.
  unfold matches in Hm. apply andb_true_iff in Hm as [_ Hm]. simpl in Hm.
  apply bool_decide_eq_true_1 in Hm as [extends Hext].
  destruct (H value extends Hvalue Hext) as [He Hb].
  unfold extend_enums. rewrite (attrib_item_Some _ _ _ Hext). simpl.
  rewrite He. simpl. rewrite Hb. reflexivity.
Qed.

End Passes.

Lemma unknown_base_skipped_witness :
  parse_features decimal_int decimal_int 10 no_factories
    (element "registry" [] None
       [element "feature" [] None
          [element "require" [] None
             [element "enum" [("extends", "VkMissing"); ("offset", "x")] None []]]]) =
  Ok no_factories.
Proof.
  apply unknown_base_skipped. intros value extends _ _. split; reflexivity.
Defined.

(** ** What the registries hold *)

(** Every entity is filed under its own name; the enums are in states that
    their operations reach; no bitmask has a guard. *)
Record well_formed (f : factories) : Prop := {
  wf_enums : forall k e, enum_factory f !! k = Some e ->
    VkEnum.name e = k /\ reachable e;
  wf_bitmasks : forall k e, bitmask_factory f !! k = Some e ->
    VkEnum.name e = k /\ reachable e /\ VkEnum.guard e = None;
  wf_exts : forall k x, ext_factory f !! k = Some x -> VkExtension.name x = k;
  wf_structs : forall k s, struct_factory f !! k = Some s -> VkChainStruct.name s = k;
  wf_objs : forall k o, obj_type_factory f !! k = Some o -> VkObjectType.name o = k
}.

Section WellFormed.

Variable int_base0 : string -> result Z.
Variable int_ : string -> result Z.
Variable et_parse : string -> result Element.
Variable recursion_limit : nat.

Lemma values_loop_ok k g extension values : forall enum enum',
  for_each (fun enum value =>
              add_value_from_xml int_base0 int_ recursion_limit enum value extension)
           enum values = Ok enum' ->
  VkEnum.name enum = k /\ reachable enum /\ VkEnum.guard enum = g ->
  VkEnum.name enum' = k /\ reachable enum' /\ VkEnum.guard enum' = g.
Proof.
  intros enum enum' H Hok.
  apply (fun Hstep => for_each_inv (fun e => VkEnum.name e = k /\ reachable e /\ VkEnum.guard e = g) _ _ Hstep _ _ Hok H).
  intros s a s' _ (Hn & Hr & Hg) Ha.
  apply add_value_from_xml_frame in Ha as (Hn' & Hg' & _ & _ & Hr').
  split; [congruence|]. split; [apply Hr', Hr|congruence].
Qed.

Lemma parse_enums_well_formed f xml f' :
  well_formed f -> parse_enums int_base0 int_ recursion_limit f xml = Ok f' ->
  well_formed f'.
Proof.
  intros Hf H. unfold parse_enums in H.
  apply (fun Hstep => for_each_inv well_formed _ _ Hstep _ _ Hf H).
  clear. intros f enum_type f' _ Hf H.
  apply bind_Ok in H as (name & _ & H).
  destruct (factory_call (enum_factory f) name (VkEnum.init name 32 None))
    as [registry enum] eqn:Hfc.
  apply bind_Ok in H as (enum' & Hloop & H). injection H as <-.
  destruct (factory_call_all (fun k e => VkEnum.name e = k /\ reachable e)
              _ _ _ _ _ Hfc (wf_enums f Hf)) as [Hreg Henum];
    [split; [reflexivity|apply reachable_init]|].
  destruct Henum as [Hn Hr].
  destruct (values_loop_ok name (VkEnum.guard enum) None _ enum enum' Hloop)
    as (Hn' & Hr' & _); [auto|].
  split; simpl; try apply Hf.
  apply insert_all; [exact Hreg|auto].
Qed.

Lemma parse_bitmasks_well_formed f xml f' :
  well_formed f -> parse_bitmasks int_base0 int_ recursion_limit f xml = Ok f' ->
  well_formed f'.
Proof.
  intros Hf H. unfold parse_bitmasks in H.
  apply (fun Hstep => for_each_inv well_formed _ _ Hstep _ _ Hf H).
  clear. intros f enum_type f' _ Hf H.
  apply bind_Ok in H as (bitwidth & _ & H).
  apply bind_Ok in H as (name & _ & H).
  destruct (factory_call (bitmask_factory f) name (VkEnum.init name bitwidth None))
    as [registry enum] eqn:Hfc.
  apply bind_Ok in H as (enum' & Hloop & H). injection H as <-.
  destruct (factory_call_all
              (fun k e => VkEnum.name e = k /\ reachable e /\ VkEnum.guard e = None)
              _ _ _ _ _ Hfc (wf_bitmasks f Hf)) as [Hreg Henum];
    [split; [reflexivity|split; [apply reachable_init|reflexivity]]|].
  pose proof (values_loop_ok name None None _ enum enum' Hloop Henum) as Henum'.
  split; simpl; try apply Hf.
  apply insert_all; [exact Hreg|exact Henum'].
Qed.

Lemma extend_enums_well_formed extension f value f' :
  well_formed f ->
  extend_enums int_base0 int_ recursion_limit extension f value = Ok f' ->
  well_formed f'.
Proof.
  intros Hf H. unfold extend_enums in H.
  apply bind_Ok in H as (extends & _ & H).
  apply bind_Ok in H as (f1 & H1 & H).
  assert (Hf1 : well_formed f1).
  { destruct (enum_factory f !! extends) as [enum|] eqn:He.
    - apply bind_Ok in H1 as (enum' & Hadd & H1). injection H1 as <-.
      destruct (wf_enums f Hf _ _ He) as [Hn Hr].
      apply add_value_from_xml_frame in Hadd as (Hn' & _ & _ & _ & Hr').
      split; simpl; try apply Hf.
      apply insert_all; [apply Hf|]. split; [congruence|apply Hr', Hr].
    - injection H1 as <-. exact Hf. }
  destruct (bitmask_factory f1 !! extends) as [enum|] eqn:Hb.
  - apply bind_Ok in H as (enum' & Hadd & H). injection H as <-.
    destruct (wf_bitmasks f1 Hf1 _ _ Hb) as (Hn & Hr & Hg).
    apply add_value_from_xml_frame in Hadd as (Hn' & Hg' & _ & _ & Hr').
    split; simpl; try apply Hf1.
    apply insert_all; [apply Hf1|]. split; [congruence|]. split; [apply Hr', Hr|congruence].
  - injection H as <-. exact Hf1.
Qed.

Lemma parse_structs_well_formed f xml f' :
  well_formed f -> parse_structs f xml = Ok f' -> well_formed f'.
Proof.
  intros Hf H. unfold parse_structs in H.
  apply (fun Hstep => for_each_inv well_formed _ _ Hstep _ _ Hf H).
  clear. intros f struct_type f' _ Hf H.
  apply bind_Ok in H as (name & _ & H).
  destruct (struct_get_stype struct_type) as [stype|]; [|injection H as <-; exact Hf].
  injection H as <-.
  destruct (factory_call (struct_factory f) name (VkChainStruct.mk name stype None))
    as [registry n] eqn:Hfc.
  destruct (factory_call_all (fun k s => VkChainStruct.name s = k)
              _ _ _ _ _ Hfc (wf_structs f Hf)) as [Hreg _]; [reflexivity|].
  split; simpl; try apply Hf. exact Hreg.
Qed.

Lemma parse_extensions_well_formed platform_define f xml f' :
  well_formed f ->
  parse_extensions int_base0 int_ recursion_limit platform_define f xml = Ok f' ->
  well_formed f'.
Proof.
  intros Hf H. unfold parse_extensions in H.
  apply (fun Hstep => for_each_inv well_formed _ _ Hstep _ _ Hf H).
  clear. intros f ext_elem f' _ Hf H.
  apply bind_Ok in H as (define & _ & H).
  apply bind_Ok in H as (name & _ & H).
  apply bind_Ok in H as (s & _ & H).
  apply bind_Ok in H as (number & _ & H).
  destruct (factory_call (ext_factory f) name (VkExtension.mk name (Some number) define))
    as [registry extension] eqn:Hfc.
  destruct (factory_call_all (fun k x => VkExtension.name x = k)
              _ _ _ _ _ Hfc (wf_exts f Hf)) as [Hreg _]; [reflexivity|].
  assert (Hf0 : well_formed (set_ext_factory f registry)).
  { split; simpl; try apply Hf. exact Hreg. }
  apply bind_Ok in H as (f1 & H1 & H).
  assert (Hf1 : well_formed f1).
  { apply (fun Hstep => for_each_inv well_formed _ _ Hstep _ _ Hf0 H1).
    intros s0 a s0' _ Hs0 Ha. eapply extend_enums_well_formed; eassumption. }
  apply bind_Ok in H as (f2 & H2 & H).
  assert (Hf2 : well_formed f2).
  { apply (fun Hstep => for_each_inv well_formed _ _ Hstep _ _ Hf1 H2).
    intros s0 t s0' _ Hs0 Ht. apply bind_Ok in Ht as (n & _ & Ht).
    destruct (struct_factory s0 !! n) as [struct|] eqn:Hst; [|injection Ht as <-; exact Hs0].
    injection Ht as <-. split; simpl; try apply Hs0.
    apply insert_all; [apply Hs0|]. simpl. eapply wf_structs; eassumption. }
  destruct (guard_of define) as [d|]; [|injection H as <-; exact Hf2].
  apply (fun Hstep => for_each_inv well_formed _ _ Hstep _ _ Hf2 H).
  intros s0 value s0' _ Hs0 Hv. apply bind_Ok in Hv as (n & _ & Hv).
  destruct (enum_factory s0 !! n) as [enum|] eqn:He; [|injection Hv as <-; exact Hs0].
  injection Hv as <-. destruct (wf_enums s0 Hs0 _ _ He) as [Hn Hr].
  split; simpl; try apply Hs0.
  apply insert_all; [apply Hs0|]. split; [exact Hn|apply reachable_set_guard, Hr].
Qed.

Lemma parse_object_types_well_formed f xml f' :
  well_formed f -> parse_object_types f xml = Ok f' -> well_formed f'.
Proof.
  intros Hf H. unfold parse_object_types in H.
  destruct (factory_call (obj_type_factory f) "VkObjectType" (VkObjectType.init "VkObjectType"))
    as [registry o] eqn:Hfc.
  destruct (factory_call_all (fun k o => VkObjectType.name o = k)
              _ _ _ _ _ Hfc (wf_objs f Hf)) as [Hreg Ho]; [reflexivity|].
  apply bind_Ok in H as (o' & Hadd & H). injection H as <-.
  assert (Ho' : VkObjectType.name o' = "VkObjectType").
  { unfold add_object_types in Hadd.
    apply (fun Hstep => for_each_inv (fun o => VkObjectType.name o = "VkObjectType") _ _ Hstep _ _ Ho Hadd).
    intros s0 h s0' _ Hs0 Hh.
    apply (fun Hstep => for_each_inv (fun o => VkObjectType.name o = "VkObjectType") _ _ Hstep _ _ Hs0 Hh).
    intros s1 n s1' _ Hs1 Hn. unfold add_object_name in Hn.
    apply bind_Ok in Hn as (enum & _ & Hn). apply bind_Ok in Hn as (e & _ & Hn).
    apply bind_Ok in Hn as (v & _ & Hn). injection Hn as <-. exact Hs1. }
  split; simpl; try apply Hf.
  apply insert_all; [exact Hreg|exact Ho'].
Qed.

Lemma parse_xml_well_formed f filename f' :
  well_formed f ->
  parse_xml int_base0 int_ et_parse recursion_limit f filename = Ok f' ->
  well_formed f'.
Proof.
  intros Hf H. unfold parse_xml in H.
  apply bind_Ok in H as (xml & _ & H).
  apply bind_Ok in H as (f1 & H1 & H). apply parse_enums_well_formed in H1; [|exact Hf].
  apply bind_Ok in H as (f2 & H2 & H). apply parse_bitmasks_well_formed in H2; [|exact H1].
  apply bind_Ok in H as (f3 & H3 & H).
  assert (Hf3 : well_formed f3).
  { unfold parse_features in H3.
    apply (fun Hstep => for_each_inv well_formed _ _ Hstep _ _ H2 H3).
    intros s0 a s0' _ Hs0 Ha. eapply extend_enums_well_formed; eassumption. }
  apply bind_Ok in H as (f4 & H4 & H). apply parse_structs_well_formed in H4; [|exact Hf3].
  apply bind_Ok in H as (pd & _ & H).
  apply bind_Ok in H as (f6 & H6 & H). apply parse_extensions_well_formed in H6; [|exact H4].
  exact (parse_object_types_well_formed _ _ _ H6 H).
Qed.

Lemma no_factories_well_formed : well_formed no_factories.
Proof. split; intros k e H; simpl in H; rewrite lookup_empty in H; discriminate. Qed.

Lemma parse_all_well_formed xml_files f :
  for_each (parse_xml int_base0 int_ et_parse recursion_limit) no_factories xml_files = Ok f ->
  well_formed f.
Proof.
  apply (for_each_inv well_formed); [|apply no_factories_well_formed].
  intros s a s' _. apply parse_xml_well_formed.
Qed.

End WellFormed.

Lemma registry_values_elem {T : Type} (registry : gmap string T) (e : T) :
  e ∈ registry_values registry <-> exists k, registry !! k = Some e.
Proof.
  unfold registry_values. rewrite list_elem_of_fmap. split.
  - intros ([k e'] & -> & H). exists k. apply elem_of_map_to_list, H.
  - intros (k & H). exists (k, e). split; [reflexivity|]. apply elem_of_map_to_list, H.
Qed.

Lemma sorted_by_name_elem {T : Type} (key : T -> string) (l : list T) (e : T) :
  e ∈ sorted_by_name key l <-> e ∈ l.
Proof. unfold sorted_by_name. rewrite sorted_Permutation. reflexivity. Qed.

Lemma keys_of_values {T : Type} (key : T -> string) (l : list (string * T)) :
  (forall k e, (k, e) ∈ l -> key e = k) -> map key (l.*2) = l.*1.
Proof.
  induction l as [|[k e] l IH]; intros H; simpl; [reflexivity|].
  rewrite (H k e) by left. f_equal. apply IH. intros k' e' H'. apply H. right. exact H'.
Qed.

Lemma registry_names_NoDup {T : Type} (key : T -> string) (registry : gmap string T) :
  (forall k e, registry !! k = Some e -> key e = k) ->
  NoDup (map key (sorted_by_name key (registry_values registry))).
Proof.
  intros H. unfold sorted_by_name.
  rewrite (Permutation_map key (sorted_Permutation _ (registry_values registry))).
  unfold registry_values. rewrite keys_of_values.
  - apply NoDup_fst_map_to_list.
  - intros k e Hke. apply H, elem_of_map_to_list, Hke.
Qed.

Lemma render_all_bits_guards bitmasks : forall l,
  Forall (fun e => VkEnum.guard e = None) bitmasks ->
  render_all_bits bitmasks = Ok l ->
  Forall (fun a => ab_guard a = None) l.
Proof.
  induction bitmasks as [|enum bitmasks IH]; intros l HF H; simpl in H.
  - injection H as <-. constructor.
  - apply Forall_cons in HF as [Hg HF].
    destruct (32 <? VkEnum.bitwidth enum); [apply IH; assumption|].
    apply bind_Ok in H as (n & _ & H). apply bind_Ok in H as (rest & Hrest & H).
    injection H as <-. constructor; [simpl; rewrite Hg; reflexivity|].
    apply IH; assumption.
Qed.

(** A registry with a platform, an enum and a bitmask of the same name, and
    an extension of that platform that requires the name. *)
Definition platform_registry : Element :=
  element "registry" [] None
    [element "platforms" [] None
       [element "platform" [("name", "xlib"); ("protect", "VK_USE_PLATFORM_XLIB_KHR")]
          None []];
     element "types" [] None
       [element "type" [("category", "struct"); ("name", "VkXlibInfo")] None
          [element "member" [("values", "VK_STRUCTURE_TYPE_XLIB_INFO")] None
             [element "name" [] (Some "sType") []]];
        element "type" [("category", "struct"); ("name", "VkExtent2D")] None
          [element "member" [] None [element "name" [] (Some "width") []]]];
     element "enums" [("name", "VkObjectType"); ("type", "enum")] None [];
     element "enums" [("name", "VkXlibFlagBits"); ("type", "enum")] None
       [element "enum" [("value", "1"); ("name", "VK_XLIB_A")] None []];
     element "enums" [("name", "VkXlibFlagBits"); ("type", "bitmask")] None
       [element "enum" [("bitpos", "0"); ("name", "VK_XLIB_A_BIT")] None []];
     element "enums" [("name", "VkWideFlagBits2"); ("type", "bitmask"); ("bitwidth", "64")]
       None
       [element "enum" [("bitpos", "33"); ("name", "VK_WIDE_2_A_BIT")] None []];
     element "extensions" [] None
       [element "extension"
          [("name", "VK_KHR_xlib"); ("number", "5"); ("supported", "vulkan");
           ("platform", "xlib")]
          None
          [element "require" [] None
             [element "type" [("name", "VkXlibFlagBits")] None [];
              element "type" [("name", "VkWideFlagBits2")] None [];
              element "type" [("name", "VkXlibInfo")] None []]]]].

(** The same extension in a file of its own, without the platform. *)
Definition extension_registry : Element :=
  element "registry" [] None
    [element "extensions" [] None
       [element "extension"
          [("name", "VK_KHR_xlib"); ("number", "5"); ("supported", "vulkan");
           ("platform", "xlib")]
          None []]].

Definition platform_parse (filename : string) : result Element :=
  if bool_decide (filename = "platform.xml") then Ok platform_registry
  else if bool_decide (filename = "extension.xml") then Ok extension_registry
  else Raise ParseError.

(** X18. In the registries that [main] parses, no bitmask has a guard:
    [set_guard] is only called on the enums of [enum_factory].  So no
    all-bits constant and no redefinition of [vk_enum_defines.h] is put
    under an [#ifdef]. *)
Theorem bitmask_defines_unguarded int_base0 int_ et_parse recursion_limit
    xml_files f extensions d :
  for_each (parse_xml int_base0 int_ et_parse recursion_limit) no_factories xml_files = Ok f ->
  render_H_DEFINE_TEMPLATE extensions
    (sorted_by_name VkEnum.name (registry_values (bitmask_factory f))) =
    Ok (Defines_file d) ->
  (forall enum, enum ∈ registry_values (bitmask_factory f) -> VkEnum.guard enum = None) /\
  Forall (fun a => ab_guard a = None) (d_all_bits d) /\
  Forall (fun r => rd_guard r = None) (d_redefinitions d).
Proof.
  intros Hparse Hrender. apply parse_all_well_formed in Hparse as Hf.
  assert (Hg : forall enum, enum ∈ registry_values (bitmask_factory f) ->
                 VkEnum.guard enum = None).
  { intros enum He. apply registry_values_elem in He as (k & He).
    apply (wf_bitmasks f Hf) in He as (_ & _ & He). exact He. }
  split; [exact Hg|].
  assert (HF : Forall (fun e => VkEnum.guard e = None)
                 (sorted_by_name VkEnum.name (registry_values (bitmask_factory f)))).
  { apply Forall_forall. intros e He. apply Hg. apply (sorted_by_name_elem VkEnum.name). exact He. }
  unfold render_H_DEFINE_TEMPLATE in Hrender.
  apply bind_Ok in Hrender as (all_bits & Hbits & Hd). injection Hd as <-. simpl.
  split; [eapply render_all_bits_guards; eassumption|].
  apply Forall_forall. intros r Hr. unfold render_redefinitions in Hr.
  apply list_elem_of_In, List.in_map_iff in Hr as (enum & <- & Hin).
  apply List.filter_In in Hin as [Hin _]. apply list_elem_of_In in Hin.
  simpl. rewrite (proj1 (Forall_forall _ _) HF enum Hin). reflexivity.
Qed.

Lemma bitmask_defines_unguarded_witness :
  exists f d,
    for_each (parse_xml decimal_int decimal_int platform_parse 1000) no_factories
      ["platform.xml"] = Ok f /\
    render_H_DEFINE_TEMPLATE []
      (sorted_by_name VkEnum.name (registry_values (bitmask_factory f))) =
      Ok (Defines_file d) /\
    length (d_all_bits d) = 1%nat /\ length (d_redefinitions d) = 1%nat /\
    Forall (fun a => ab_guard a = None) (d_all_bits d) /\
    Forall (fun r => rd_guard r = None) (d_redefinitions d).
Proof.
  eexists. eexists. split; [vm_compute; reflexivity|].
  split; [vm_compute; reflexivity|].
  split; [reflexivity|]. split; [reflexivity|].
  eapply (bitmask_defines_unguarded decimal_int decimal_int platform_parse 1000
            ["platform.xml"] _ []); vm_compute; reflexivity.
Defined.

(** X19. [main] emits each entity once: the functions of
    [vk_enum_to_str.c] are for pairwise different enum types and its size
    cases for pairwise different structs, the prototypes of
    [vk_enum_to_str.h] are for pairwise different types, and the extension
    numbers of [vk_enum_defines.h] for pairwise different extensions, as
    each registry holds an entity under its own name. *)
Theorem main_emits_each_name_once int_base0 int_ et_parse recursion_limit xml_files f :
  for_each (parse_xml int_base0 int_ et_parse recursion_limit) no_factories xml_files = Ok f ->
  forall file_name a, (file_name, Ok a) ∈ templates f ->
    match a with
    | C_file c => NoDup (map fn_type (c_functions c)) /\ NoDup (map sc_name (c_struct_sizes c))
    | H_file prototypes => NoDup (map snd prototypes)
    | Defines_file d => NoDup (map fst (d_ext_numbers d))
    end.
Proof.
  intros Hparse file_name a Ha. apply parse_all_well_formed in Hparse as Hf.
  pose proof (registry_names_NoDup VkEnum.name (enum_factory f)
                (fun k e H => proj1 (wf_enums f Hf k e H))) as Henums.
  pose proof (registry_names_NoDup VkChainStruct.name (struct_factory f) (wf_structs f Hf))
    as Hstructs.
  pose proof (registry_names_NoDup VkExtension.name (ext_factory f) (wf_exts f Hf)) as Hexts.
  unfold templates in Ha.
  apply elem_of_cons in Ha as [Ha|Ha]; [|apply elem_of_cons in Ha as [Ha|Ha];
    [|apply elem_of_cons in Ha as [Ha|Ha]; [|inversion Ha]]].
  - injection Ha as _ Ha. symmetry in Ha. unfold render_C_TEMPLATE in Ha.
    apply bind_Ok in Ha as (names & _ & Ha). injection Ha as <-. simpl.
    rewrite !List.map_map. simpl. split; assumption.
  - injection Ha as _ ->. rewrite List.map_map. simpl. exact Henums.
  - injection Ha as _ Ha. symmetry in Ha. unfold render_H_DEFINE_TEMPLATE in Ha.
    apply bind_Ok in Ha as (all_bits & _ & Ha). injection Ha as <-. simpl.
    rewrite List.map_map. simpl. exact Hexts.
Qed.

Lemma main_emits_each_name_once_witness :
  exists f c,
    for_each (parse_xml decimal_int decimal_int platform_parse 1000) no_factories
      ["platform.xml"] = Ok f /\
    ("vk_enum_to_str.c", Ok (C_file c)) ∈ templates f /\
    map fn_type (c_functions c) = ["VkObjectType"; "VkXlibFlagBits"] /\
    NoDup (map fn_type (c_functions c)) /\ NoDup (map sc_name (c_struct_sizes c)).
Proof.
  eexists. eexists. split; [vm_compute; reflexivity|].
  split; [left|]. split; [vm_compute; reflexivity|].
  eapply (main_emits_each_name_once decimal_int decimal_int platform_parse 1000
            ["platform.xml"] _ ltac:(vm_compute; reflexivity) _ (C_file _)).
  left.
Defined.

(** X20. The struct pass of [parse_xml] touches the struct registry only.
    It keeps every struct that is registered, and a struct that it adds
    comes from a struct type of the document with that name whose first
    member named sType gives its [stype]; the new struct has no extension.
    A struct type without such a member registers nothing.  The pass
    returns when every struct type has a name. *)
Theorem parse_structs_registers f xml :
  let struct_types := findall [("types", Any); ("type", AttrEq "category" "struct")] xml in
  (forall f', parse_structs f xml = Ok f' ->
     (enum_factory f' = enum_factory f /\ ext_factory f' = ext_factory f /\
      bitmask_factory f' = bitmask_factory f /\ obj_type_factory f' = obj_type_factory f) /\
     (forall k s, struct_factory f !! k = Some s -> struct_factory f' !! k = Some s) /\
     (forall k s, struct_factory f' !! k = Some s -> struct_factory f !! k = None ->
        exists struct_type stype,
          struct_type ∈ struct_types /\ attrib struct_type !! "name" = Some k /\
          struct_get_stype struct_type = Some stype /\
          s = VkChainStruct.mk k stype None)) /\
  ((forall struct_type, struct_type ∈ struct_types ->
      is_Some (attrib struct_type !! "name")) ->
   exists f', parse_structs f xml = Ok f').
Proof.
  intros struct_types. split.
  - intros f' H. unfold parse_structs in H. fold struct_types in H.
    apply (fun Hstep Hinit => for_each_inv
      (fun f' =>
         (enum_factory f' = enum_factory f /\ ext_factory f' = ext_factory f /\
          bitmask_factory f' = bitmask_factory f /\ obj_type_factory f' = obj_type_factory f) /\
         (forall k s, struct_factory f !! k = Some s -> struct_factory f' !! k = Some s) /\
         (forall k s, struct_factory f' !! k = Some s -> struct_factory f !! k = None ->
            exists struct_type stype,
              struct_type ∈ struct_types /\ attrib struct_type !! "name" = Some k /\
              struct_get_stype struct_type = Some stype /\
              s = VkChainStruct.mk k stype None))
      _ _ Hstep f f' Hinit H).
    + clear f' H. intros s struct_type s' Hin (Hframe & Hkeep & Hnew) H.
      apply bind_Ok in H as (name & Hname & H).
      unfold attrib_item in Hname.
      destruct (attrib struct_type !! "name") as [name'|] eqn:Hattr; [|discriminate].
      injection Hname as ->.
      destruct (struct_get_stype struct_type) as [stype|] eqn:Hstype;
        [|injection H as <-; auto].
      injection H as <-.
      destruct (factory_call (struct_factory s) name (VkChainStruct.mk name stype None))
        as [registry n] eqn:Hfc.
      apply factory_call_inv in Hfc as [[_ ->]|(Hnone & -> & _)]; simpl.
      * auto.
      * split; [exact Hframe|]. split.
        -- intros k s0 Hk. specialize (Hkeep k s0 Hk).
           rewrite lookup_insert_ne; [exact Hkeep|]. intros ->. congruence.
        -- intros k s0 Hk Hk0. destruct (decide (name = k)) as [->|Hne].
           ++ rewrite lookup_insert_eq in Hk. injection Hk as <-.
              exists struct_type, stype. auto.
           ++ rewrite lookup_insert_ne in Hk by exact Hne. apply Hnew; assumption.
    + split; [auto|]. split; [auto|]. intros k s Hk Hk0. congruence.
  - intros Hnames. unfold parse_structs. fold struct_types.
    revert f. clearbody struct_types.
    induction struct_types as [|struct_type l IH]; intros f; simpl; [eauto|].
    destruct (Hnames struct_type) as (name & Hname); [left|].
    rewrite (attrib_item_Some _ _ _ Hname). simpl.
    destruct (struct_get_stype struct_type); simpl;
      apply IH; intros t Ht; apply Hnames; right; exact Ht.
Qed.

Lemma parse_structs_registers_witness :
  exists f',
    parse_structs no_factories platform_registry = Ok f' /\
    (forall k s, struct_factory f' !! k = Some s ->
       exists struct_type stype,
         struct_type ∈ findall [("types", Any); ("type", AttrEq "category" "struct")]
                         platform_registry /\
         attrib struct_type !! "name" = Some k /\
         struct_get_stype struct_type = Some stype /\
         s = VkChainStruct.mk k stype None) /\
    struct_factory f' !! "VkExtent2D" = None.
Proof.
  destruct (parse_structs_registers no_factories platform_registry) as [Hspec Hreturns].
  destruct Hreturns as (f' & Hf').
  { intros struct_type Ht. vm_compute in Ht.
    apply elem_of_cons in Ht as [->|Ht]; [vm_compute; eauto|].
    apply elem_of_cons in Ht as [->|Ht]; [vm_compute; eauto|]. inversion Ht. }
  exists f'. split; [exact Hf'|]. split.
  - intros k s Hk. apply (proj2 (proj2 (Hspec f' Hf')) k s Hk). reflexivity.
  - assert (Hv : parse_structs no_factories platform_registry = Ok f') by exact Hf'.
    vm_compute in Hv. injection Hv as <-. reflexivity.
Defined.

Section Platforms.

Variable int_base0 : string -> result Z.
Variable int_ : string -> result Z.
Variable et_parse : string -> result Element.
Variable recursion_limit : nat.

Lemma parse_platforms_origin xml platform_define :
  parse_platforms xml = Ok platform_define ->
  forall p d, platform_define !! p = Some d ->
    exists platform,
      platform ∈ findall [("platforms", Any); ("platform", Any)] xml /\
      attrib platform !! "name" = Some p /\ attrib platform !! "protect" = Some d.
Proof.
  intros H. unfold parse_platforms in H.
  apply (fun Hstep Hinit => for_each_inv
    (fun pd : gmap string string => forall p d, pd !! p = Some d ->
       exists platform,
         platform ∈ findall [("platforms", Any); ("platform", Any)] xml /\
         attrib platform !! "name" = Some p /\ attrib platform !! "protect" = Some d)
    _ _ Hstep ∅ platform_define Hinit H).
  - clear. intros pd platform pd' Hin Hpd H p d Hp.
    apply bind_Ok in H as (name & Hname & H). apply bind_Ok in H as (define & Hdef & H).
    injection H as <-. unfold attrib_item in Hname, Hdef.
    destruct (attrib platform !! "name") as [n|] eqn:Hn; [|discriminate].
    destruct (attrib platform !! "protect") as [g|] eqn:Hg; [|discriminate].
    injection Hname as ->. injection Hdef as ->.
    destruct (decide (name = p)) as [->|Hne].
    + rewrite lookup_insert_eq in Hp. injection Hp as <-. eauto.
    + rewrite lookup_insert_ne in Hp by exact Hne. eauto.
  - intros p d Hp. rewrite lookup_empty in Hp. discriminate.
Qed.

(** X21. The table of platforms is made anew for each file.  An extension
    supported for vulkan that names a platform which the same file does not
    declare makes [parse_xml] raise, whatever the files before it have
    declared; [main] then raises on every list of files that has this one,
    and leaves the file system as it was. *)
Theorem undeclared_platform_raises filename xml ext_elem p :
  et_parse filename = Ok xml ->
  ext_elem ∈ findall [("extensions", Any); ("extension", AttrEq "supported" "vulkan")] xml ->
  attrib ext_elem !! "platform" = Some p ->
  (forall platform, platform ∈ findall [("platforms", Any); ("platform", Any)] xml ->
     attrib platform !! "name" <> Some p) ->
  (forall f, exists x,
     parse_xml int_base0 int_ et_parse recursion_limit f filename = Raise x) /\
  (forall os_open os_write xml_files outdir fs, filename ∈ xml_files ->
     exists x, main int_base0 int_ et_parse recursion_limit os_open os_write
                 xml_files outdir fs = (fs, Raise x)).
Proof.
  intros Hparse Hin Hplatform Hundeclared.
  assert (Hraise : forall f, exists x,
            parse_xml int_base0 int_ et_parse recursion_limit f filename = Raise x);
    [|split; [exact Hraise|]; intros os_open os_write xml_files outdir fs Hfile;
      unfold main;
      destruct (for_each_Raise_elem _ xml_files filename Hfile Hraise no_factories)
        as (x & ->); eauto].
  intros f. unfold parse_xml. rewrite Hparse. simpl.
  destruct (parse_enums _ _ _ f xml) as [f1|x]; simpl; [|eauto].
  destruct (parse_bitmasks _ _ _ f1 xml) as [f2|x]; simpl; [|eauto].
  destruct (parse_features _ _ _ f2 xml) as [f3|x]; simpl; [|eauto].
  destruct (parse_structs f3 xml) as [f4|x]; simpl; [|eauto].
  destruct (parse_platforms xml) as [platform_define|x] eqn:Hpd; simpl; [|eauto].
  assert (Hp : platform_define !! p = None).
  { destruct (platform_define !! p) as [d|] eqn:Hp; [|reflexivity].
    destruct (parse_platforms_origin _ _ Hpd p d Hp) as (platform & Hpl & Hname & _).
    destruct (Hundeclared platform Hpl Hname). }
  unfold parse_extensions.
  match goal with
  | |- exists x, (f <- for_each ?body _ ?l ;; _) = Raise x =>
      destruct (for_each_Raise_elem body l ext_elem Hin) with (s := f4) as (x & ->)
  end.
  - intros s. rewrite (attrib_has_Some _ _ _ Hplatform).
    rewrite (attrib_item_Some _ _ _ Hplatform). simpl. rewrite Hp. simpl. eauto.
  - simpl. eauto.
Qed.

End Platforms.

Lemma undeclared_platform_raises_witness :
  (exists f, parse_xml decimal_int decimal_int platform_parse 1000 no_factories
               "platform.xml" = Ok f /\
     exists x, parse_xml decimal_int decimal_int platform_parse 1000 f
                 "extension.xml" = Raise x) /\
  exists x, main decimal_int decimal_int platform_parse 1000 always_opens always_writes
              ["platform.xml"; "extension.xml"] "out" ∅ = (∅, Raise x).
Proof.
  destruct (undeclared_platform_raises decimal_int decimal_int platform_parse 1000
              "extension.xml" extension_registry
              (element "extension"
                 [("name", "VK_KHR_xlib"); ("number", "5"); ("supported", "vulkan");
                  ("platform", "xlib")] None []) "xlib") as [Hparse Hmain].
  - reflexivity.
  - vm_compute. left.
  - reflexivity.
  - intros platform Hpl. vm_compute in Hpl. inversion Hpl.
  - split.
    + eexists. split; [vm_compute; reflexivity|]. apply Hparse.
    + apply Hmain. right. left.
Defined.

(** ** Accumulation over the input files *)

(** What an enum keeps when constants are added to it. *)
Definition enum_grows (e e' : VkEnum.t) : Prop :=
  VkEnum.name e' = VkEnum.name e /\
  VkEnum.max_enum_name e' = VkEnum.max_enum_name e /\
  VkEnum.bitwidth e' = VkEnum.bitwidth e /\
  (forall n : string, is_Some (n2v e !! n) -> is_Some (n2v e' !! n)) /\
  (forall w : Z, is_Some (VkEnum.values e !! w) -> is_Some (VkEnum.values e' !! w)).

Definition struct_grows (s s' : VkChainStruct.t) : Prop :=
  VkChainStruct.name s' = VkChainStruct.name s /\
  VkChainStruct.stype s' = VkChainStruct.stype s.

Definition object_type_grows (o o' : VkObjectType.t) : Prop :=
  VkObjectType.name o' = VkObjectType.name o /\
  forall v : Z, is_Some (VkObjectType.enum_to_name o !! v) ->
                is_Some (VkObjectType.enum_to_name o' !! v).

Definition registry_grows {T : Type} (R : T -> T -> Prop) (r r' : gmap string T) : Prop :=
  forall k e, r !! k = Some e -> exists e', r' !! k = Some e' /\ R e e'.

Record grows (f f' : factories) : Prop := {
  grows_enums : registry_grows enum_grows (enum_factory f) (enum_factory f');
  grows_exts : registry_grows eq (ext_factory f) (ext_factory f');
  grows_structs : registry_grows struct_grows (struct_factory f) (struct_factory f');
  grows_bitmasks : registry_grows enum_grows (bitmask_factory f) (bitmask_factory f');
  grows_objs : registry_grows object_type_grows (obj_type_factory f) (obj_type_factory f')
}.

Lemma enum_grows_refl e : enum_grows e e.
Proof. unfold enum_grows. auto. Qed.

Lemma enum_grows_trans e1 e2 e3 : enum_grows e1 e2 -> enum_grows e2 e3 -> enum_grows e1 e3.
Proof.
  intros (Hn & Hm & Hb & Hk & Hv) (Hn' & Hm' & Hb' & Hk' & Hv').
  unfold enum_grows. repeat split; try congruence; auto.
Qed.

Lemma struct_grows_refl s : struct_grows s s.
Proof. unfold struct_grows. auto. Qed.

Lemma struct_grows_trans s1 s2 s3 :
  struct_grows s1 s2 -> struct_grows s2 s3 -> struct_grows s1 s3.
Proof. intros [Hn Hs] [Hn' Hs']. unfold struct_grows. split; congruence. Qed.

Lemma object_type_grows_refl o : object_type_grows o o.
Proof. unfold object_type_grows. auto. Qed.

Lemma object_type_grows_trans o1 o2 o3 :
  object_type_grows o1 o2 -> object_type_grows o2 o3 -> object_type_grows o1 o3.
Proof. intros [Hn Hk] [Hn' Hk']. unfold object_type_grows. split; [congruence|auto]. Qed.

Lemma registry_grows_refl {T : Type} (R : T -> T -> Prop) (r : gmap string T) :
  (forall x, R x x) -> registry_grows R r r.
Proof. intros Hrefl k e Hk. eauto. Qed.

Lemma registry_grows_trans {T : Type} (R : T -> T -> Prop) (r1 r2 r3 : gmap string T) :
  (forall x y z, R x y -> R y z -> R x z) ->
  registry_grows R r1 r2 -> registry_grows R r2 r3 -> registry_grows R r1 r3.
Proof.
  intros Htrans H12 H23 k e Hk. destruct (H12 k e Hk) as (e2 & Hk2 & He2).
  destruct (H23 k e2 Hk2) as (e3 & Hk3 & He3). eauto.
Qed.

Lemma registry_grows_insert {T : Type} (R : T -> T -> Prop) (r : gmap string T) k e' :
  (forall x, R x x) -> (forall e, r !! k = Some e -> R e e') ->
  registry_grows R r (<[k := e']> r).
Proof.
  intros Hrefl He k0 e0 Hk0. destruct (decide (k = k0)) as [->|Hne].
  - rewrite lookup_insert_eq. eauto.
  - rewrite lookup_insert_ne by exact Hne. eauto.
Qed.

Lemma factory_call_grows {T : Type} (R : T -> T -> Prop) (r : gmap string T)
    name make r' n :
  (forall x, R x x) -> factory_call r name make = (r', n) ->
  registry_grows R r r' /\ r' !! name = Some n.
Proof.
  intros Hrefl H. apply factory_call_inv in H as [[Hn ->]|(Hn & -> & ->)].
  - split; [apply registry_grows_refl, Hrefl|exact Hn].
  - split; [|apply lookup_insert_eq].
    apply registry_grows_insert; [exact Hrefl|]. intros e He. congruence.
Qed.

Lemma grows_refl f : grows f f.
Proof.
  split; apply registry_grows_refl; auto using enum_grows_refl, struct_grows_refl,
    object_type_grows_refl.
Qed.

Lemma grows_trans f1 f2 f3 : grows f1 f2 -> grows f2 f3 -> grows f1 f3.
Proof.
  intros [He Hx Hs Hb Ho] [He' Hx' Hs' Hb' Ho'].
  split; eapply registry_grows_trans; try eassumption;
    eauto using enum_grows_trans, struct_grows_trans, object_type_grows_trans.
  intros x y z. congruence.
Qed.

Lemma for_each_grows {S A : Type} (R : S -> S -> Prop) (body : S -> A -> result S) l :
  (forall x, R x x) -> (forall x y z, R x y -> R y z -> R x z) ->
  (forall s a s', body s a = Ok s' -> R s s') ->
  forall s s', for_each body s l = Ok s' -> R s s'.
Proof.
  intros Hrefl Htrans Hbody s s' H.
  apply (fun Hstep => for_each_inv (R s) body l Hstep s s' (Hrefl s) H).
  intros s1 a s2 _ Hs1 Ha. eapply Htrans; [exact Hs1|]. eapply Hbody, Ha.
Qed.

Lemma grows_set_enum_factory f r :
  registry_grows enum_grows (enum_factory f) r -> grows f (set_enum_factory f r).
Proof. intros H. destruct (grows_refl f). split; simpl; assumption. Qed.

Lemma grows_set_bitmask_factory f r :
  registry_grows enum_grows (bitmask_factory f) r -> grows f (set_bitmask_factory f r).
Proof. intros H. destruct (grows_refl f). split; simpl; assumption. Qed.

Lemma grows_set_ext_factory f r :
  registry_grows eq (ext_factory f) r -> grows f (set_ext_factory f r).
Proof. intros H. destruct (grows_refl f). split; simpl; assumption. Qed.

Lemma grows_set_struct_factory f r :
  registry_grows struct_grows (struct_factory f) r -> grows f (set_struct_factory f r).
Proof. intros H. destruct (grows_refl f). split; simpl; assumption. Qed.

Lemma grows_set_obj_type_factory f r :
  registry_grows object_type_grows (obj_type_factory f) r ->
  grows f (set_obj_type_factory f r).
Proof. intros H. destruct (grows_refl f). split; simpl; assumption. Qed.

Lemma add_value_grows fuel self name value extnum offset alias error self' :
  VkEnum.add_value fuel self name value extnum offset alias error = Ok self' ->
  enum_grows self self'.
Proof.
  intros H. destruct (add_value_frame _ _ _ _ _ _ _ _ _ H) as (Hn & Hm & Hb & _ & _).
  unfold enum_grows. split; [exact Hn|]. split; [exact Hm|]. split; [exact Hb|].
  apply add_value_Ok in H as [(b & _ & _ & ->)|(v & tr & Hres & _)].
  - simpl. auto.
  - split.
    + intros n Hk. rewrite (resolves_n2v v self name tr self' n Hres).
      destruct (decide (n ∈ tr)); [eauto|exact Hk].
    + intros w [c Hc]. pose proof (proj1 (resolves_effect v) _ _ _ _ Hres) as ->.
      simpl. destruct (registers_values_shorter v tr self w c Hc) as (c' & Hc' & _). eauto.
Qed.

Section Accumulation.

Variable int_base0 : string -> result Z.
Variable int_ : string -> result Z.
Variable et_parse : string -> result Element.
Variable recursion_limit : nat.

Lemma add_value_from_xml_grows self elem extension self' :
  add_value_from_xml int_base0 int_ recursion_limit self elem extension = Ok self' ->
  enum_grows self self'.
Proof.
  intros H. apply add_value_from_xml_Ok in H
    as (name & value & extnum & offset & alias & error & H).
  apply add_value_grows in H. exact H.
Qed.

Lemma values_loop_grows extension values enum enum' :
  for_each (fun enum value =>
              add_value_from_xml int_base0 int_ recursion_limit enum value extension)
           enum values = Ok enum' ->
  enum_grows enum enum'.
Proof.
  apply (for_each_grows enum_grows); [apply enum_grows_refl|apply enum_grows_trans|].
  intros s a s'. apply add_value_from_xml_grows.
Qed.

Lemma parse_enums_grows f xml f' :
  parse_enums int_base0 int_ recursion_limit f xml = Ok f' -> grows f f'.
Proof.
  apply (for_each_grows grows); [apply grows_refl|apply grows_trans|].
  clear. intros f enum_type f' H.
  apply bind_Ok in H as (name & _ & H).
  destruct (factory_call (enum_factory f) name (VkEnum.init name 32 None))
    as [registry enum] eqn:Hfc.
  apply bind_Ok in H as (enum' & Hloop & H). injection H as <-.
  apply (factory_call_grows enum_grows) in Hfc as [Hreg Henum]; [|apply enum_grows_refl].
  apply values_loop_grows in Hloop.
  apply grows_set_enum_factory.
  eapply registry_grows_trans; [apply enum_grows_trans|exact Hreg|].
  apply registry_grows_insert; [apply enum_grows_refl|]. intros e He. congruence.
Qed.

Lemma parse_bitmasks_grows f xml f' :
  parse_bitmasks int_base0 int_ recursion_limit f xml = Ok f' -> grows f f'.
Proof.
  apply (for_each_grows grows); [apply grows_refl|apply grows_trans|].
  clear. intros f enum_type f' H.
  apply bind_Ok in H as (bitwidth & _ & H).
  apply bind_Ok in H as (name & _ & H).
  destruct (factory_call (bitmask_factory f) name (VkEnum.init name bitwidth None))
    as [registry enum] eqn:Hfc.
  apply bind_Ok in H as (enum' & Hloop & H). injection H as <-.
  apply (factory_call_grows enum_grows) in Hfc as [Hreg Henum]; [|apply enum_grows_refl].
  apply values_loop_grows in Hloop.
  apply grows_set_bitmask_factory.
  eapply registry_grows_trans; [apply enum_grows_trans|exact Hreg|].
  apply registry_grows_insert; [apply enum_grows_refl|]. intros e He. congruence.
Qed.

Lemma extend_enums_grows extension f value f' :
  extend_enums int_base0 int_ recursion_limit extension f value = Ok f' -> grows f f'.
Proof.
  intros H. unfold extend_enums in H.
  apply bind_Ok in H as (extends & _ & H).
  apply bind_Ok in H as (f1 & H1 & H).
  apply (grows_trans f f1 f').
  - destruct (enum_factory f !! extends) as [enum|] eqn:He.
    + apply bind_Ok in H1 as (enum' & Hadd & H1). injection H1 as <-.
      apply add_value_from_xml_grows in Hadd.
      apply grows_set_enum_factory, registry_grows_insert; [apply enum_grows_refl|].
      intros e He'. congruence.
    + injection H1 as <-. apply grows_refl.
  - destruct (bitmask_factory f1 !! extends) as [enum|] eqn:Hb.
    + apply bind_Ok in H as (enum' & Hadd & H). injection H as <-.
      apply add_value_from_xml_grows in Hadd.
      apply grows_set_bitmask_factory, registry_grows_insert; [apply enum_grows_refl|].
      intros e He'. congruence.
    + injection H as <-. apply grows_refl.
Qed.

Lemma parse_structs_grows f xml f' : parse_structs f xml = Ok f' -> grows f f'.
Proof.
  apply (for_each_grows grows); [apply grows_refl|apply grows_trans|].
  clear. intros f struct_type f' H.
  apply bind_Ok in H as (name & _ & H).
  destruct (struct_get_stype struct_type) as [stype|]; [|injection H as <-; apply grows_refl].
  injection H as <-.
  destruct (factory_call (struct_factory f) name (VkChainStruct.mk name stype None))
    as [registry n] eqn:Hfc.
  apply (factory_call_grows struct_grows) in Hfc as [Hreg _]; [|apply struct_grows_refl].
  apply grows_set_struct_factory. exact Hreg.
Qed.

Lemma parse_extensions_grows platform_define f xml f' :
  parse_extensions int_base0 int_ recursion_limit platform_define f xml = Ok f' ->
  grows f f'.
Proof.
  apply (for_each_grows grows); [apply grows_refl|apply grows_trans|].
  clear. intros f ext_elem f' H.
  apply bind_Ok in H as (define & _ & H).
  apply bind_Ok in H as (name & _ & H).
  apply bind_Ok in H as (s & _ & H).
  apply bind_Ok in H as (number & _ & H).
  destruct (factory_call (ext_factory f) name (VkExtension.mk name (Some number) define))
    as [registry extension] eqn:Hfc.
  apply (factory_call_grows eq) in Hfc as [Hreg _]; [|reflexivity].
  apply bind_Ok in H as (f1 & H1 & H).
  apply bind_Ok in H as (f2 & H2 & H).
  apply (grows_trans f (set_ext_factory f registry) f');
    [apply grows_set_ext_factory, Hreg|].
  apply (grows_trans _ f1 f').
  { revert H1. apply (for_each_grows grows); [apply grows_refl|apply grows_trans|].
    intros s0 a s0'. apply extend_enums_grows. }
  apply (grows_trans f1 f2 f').
  { revert H2. apply (for_each_grows grows); [apply grows_refl|apply grows_trans|].
    intros s0 t s0' Ht. apply bind_Ok in Ht as (n & _ & Ht).
    destruct (struct_factory s0 !! n) as [struct|] eqn:Hst;
      [|injection Ht as <-; apply grows_refl].
    injection Ht as <-.
    apply grows_set_struct_factory, registry_grows_insert; [apply struct_grows_refl|].
    intros e He. assert (e = struct) as -> by congruence. split; reflexivity. }
  destruct (guard_of define) as [d|]; [|injection H as <-; apply grows_refl].
  revert H. apply (for_each_grows grows); [apply grows_refl|apply grows_trans|].
  intros s0 value s0' Hv. apply bind_Ok in Hv as (n & _ & Hv).
  destruct (enum_factory s0 !! n) as [enum|] eqn:He;
    [|injection Hv as <-; apply grows_refl].
  injection Hv as <-.
  apply grows_set_enum_factory, registry_grows_insert; [apply enum_grows_refl|].
  intros e He'. assert (e = enum) as -> by congruence. unfold enum_grows. simpl. auto.
Qed.

Lemma parse_object_types_grows f xml f' :
  parse_object_types f xml = Ok f' -> grows f f'.
Proof.
  intros H. unfold parse_object_types in H.
  destruct (factory_call (obj_type_factory f) "VkObjectType" (VkObjectType.init "VkObjectType"))
    as [registry o] eqn:Hfc.
  apply (factory_call_grows object_type_grows) in Hfc as [Hreg Ho];
    [|apply object_type_grows_refl].
  apply bind_Ok in H as (o' & Hadd & H). injection H as <-.
  assert (Ho' : object_type_grows o o').
  { revert Hadd. unfold add_object_types.
    apply (for_each_grows object_type_grows);
      [apply object_type_grows_refl|apply object_type_grows_trans|].
    intros s0 h s0'.
    apply (for_each_grows object_type_grows);
      [apply object_type_grows_refl|apply object_type_grows_trans|].
    intros s1 n s1' Hn. unfold add_object_name in Hn.
    apply bind_Ok in Hn as (enum & _ & Hn). apply bind_Ok in Hn as (e & _ & Hn).
    apply bind_Ok in Hn as (v & _ & Hn). injection Hn as <-.
    split; [reflexivity|]. simpl. intros w Hw.
    destruct (decide (v = w)) as [->|Hne].
    - rewrite lookup_insert_eq. eauto.
    - rewrite lookup_insert_ne by exact Hne. exact Hw. }
  apply (grows_trans f (set_obj_type_factory f registry));
    [apply grows_set_obj_type_factory, Hreg|].
  destruct (grows_refl f). split; simpl; try assumption.
  apply registry_grows_insert; [apply object_type_grows_refl|].
  intros e He. congruence.
Qed.

Lemma parse_xml_grows f filename f' :
  parse_xml int_base0 int_ et_parse recursion_limit f filename = Ok f' -> grows f f'.
Proof.
  intros H. unfold parse_xml in H.
  apply bind_Ok in H as (xml & _ & H).
  apply bind_Ok in H as (f1 & H1 & H). apply parse_enums_grows in H1.
  apply bind_Ok in H as (f2 & H2 & H). apply parse_bitmasks_grows in H2.
  apply bind_Ok in H as (f3 & H3 & H).
  assert (Hf3 : grows f2 f3).
  { revert H3. unfold parse_features.
    apply (for_each_grows grows); [apply grows_refl|apply grows_trans|].
    intros s0 a s0'. apply extend_enums_grows. }
  apply bind_Ok in H as (f4 & H4 & H). apply parse_structs_grows in H4.
  apply bind_Ok in H as (pd & _ & H).
  apply bind_Ok in H as (f6 & H6 & H). apply parse_extensions_grows in H6.
  apply parse_object_types_grows in H.
  apply (grows_trans f f1 f' H1), (grows_trans f1 f2 f' H2), (grows_trans f2 f3 f' Hf3),
    (grows_trans f3 f4 f' H4), (grows_trans f4 f6 f' H6), H.
Qed.

End Accumulation.

(** X22. A further input file takes nothing away.  After more files are
    parsed, every enum, bitmask, struct and object-type table of the
    registries is still there under its name, an enum with its name,
    sentinel and bit width and with at least the names and the values it
    had, a struct with its [stype]; an extension is the very one that was
    registered first, with its number and define.  So every function
    that [vk_enum_to_str.c] would have had is still emitted, for the same
    type and with a case for each value it had. *)
Theorem further_files_keep_entities int_base0 int_ et_parse recursion_limit
    xml_files f1 f2 :
  for_each (parse_xml int_base0 int_ et_parse recursion_limit) f1 xml_files = Ok f2 ->
  grows f1 f2 /\
  (forall x, x ∈ sorted_by_name VkExtension.name (registry_values (ext_factory f1)) ->
             x ∈ sorted_by_name VkExtension.name (registry_values (ext_factory f2))) /\
  (forall fn,
     fn ∈ map render_to_str_function
            (sorted_by_name VkEnum.name (registry_values (enum_factory f1))) ->
     exists fn',
       fn' ∈ map render_to_str_function
               (sorted_by_name VkEnum.name (registry_values (enum_factory f2))) /\
       fn_type fn' = fn_type fn /\ fn_suffix fn' = fn_suffix fn /\
       fn_max_enum fn' = fn_max_enum fn /\
       forall v, v ∈ (fn_cases fn).*1 -> v ∈ (fn_cases fn').*1).
Proof.
  intros H.
  assert (Hg : grows f1 f2).
  { revert H. apply (for_each_grows grows); [apply grows_refl|apply grows_trans|].
    intros s a s'. apply parse_xml_grows. }
  split; [exact Hg|]. split.
  - intros x Hx. apply (proj1 (sorted_by_name_elem VkExtension.name _ _)) in Hx.
    apply (proj2 (sorted_by_name_elem VkExtension.name _ _)).
    apply (proj1 (registry_values_elem _ _)) in Hx as (k & Hk).
    apply (grows_exts f1 f2 Hg) in Hk as (x' & Hk' & <-).
    apply (proj2 (registry_values_elem _ _)). eauto.
  - intros fn Hfn. apply list_elem_of_In, List.in_map_iff in Hfn as (e & <- & He).
    apply list_elem_of_In in He.
    apply (proj1 (sorted_by_name_elem VkEnum.name _ _)) in He.
    apply (proj1 (registry_values_elem _ _)) in He as (k & Hk).
    apply (grows_enums f1 f2 Hg) in Hk as (e' & Hk' & Hn & Hm & _ & _ & Hv).
    exists (render_to_str_function e'). split.
    + apply list_elem_of_In, List.in_map, list_elem_of_In.
      apply (proj2 (sorted_by_name_elem VkEnum.name _ _)).
      apply (proj2 (registry_values_elem _ _)). eauto.
    + simpl fn_type. simpl fn_suffix. simpl fn_max_enum. rewrite Hn, Hm.
      split; [reflexivity|]. split; [reflexivity|]. split; [reflexivity|].
      intros v Hin. apply list_elem_of_fmap in Hin as ([v' n] & -> & Hin).
      apply fn_cases_canonical in Hin. simpl.
      destruct (Hv v' (ex_intro _ n Hin)) as (n' & Hn').
      apply list_elem_of_fmap. exists (v', n'). split; [reflexivity|].
      apply fn_cases_canonical, Hn'.
Qed.

Lemma further_files_keep_entities_witness :
  exists f1 f2,
    for_each (parse_xml decimal_int decimal_int example_parse 1000) no_factories
      ["vk.xml"] = Ok f1 /\
    for_each (parse_xml decimal_int decimal_int example_parse 1000) f1
      ["odd.xml"; "vk.xml"] = Ok f2 /\
    grows f1 f2.
Proof.
  eexists. eexists. split; [vm_compute; reflexivity|].
  split; [vm_compute; reflexivity|].
  eapply (further_files_keep_entities decimal_int decimal_int example_parse 1000
            ["odd.xml"; "vk.xml"]).
  vm_compute. reflexivity.
Defined.

(** ** The order of emission *)

(** [names] lists the keys of the registry, each once, in increasing
    order. *)
Definition ordered_names {T : Type} (registry : gmap string T) (names : list string) : Prop :=
  StronglySorted (fun x y => String.leb x y = true) names /\
  NoDup names /\
  forall k, k ∈ names <-> is_Some (registry !! k).

(** There is one such list. *)
Lemma ordered_names_unique {T : Type} (registry : gmap string T) l1 l2 :
  ordered_names registry l1 -> ordered_names registry l2 -> l1 = l2.
Proof.
  intros (Hs1 & Hn1 & He1) (Hs2 & Hn2 & He2).
  apply (StronglySorted_unique_strong (fun x y => String.leb x y = true));
    [|exact Hs1|exact Hs2|].
  - intros x1 x2 _ _. apply String.leb_antisym.
  - apply NoDup_Permutation; [exact Hn1|exact Hn2|].
    intros k. rewrite He1, He2. reflexivity.
Qed.

Lemma registry_sorted_elem {T : Type} (key : T -> string) (registry : gmap string T) e :
  (forall k x, registry !! k = Some x -> key x = k) ->
  e ∈ sorted_by_name key (registry_values registry) <-> registry !! key e = Some e.
Proof.
  intros Hkey. rewrite sorted_by_name_elem, registry_values_elem. split.
  - intros (k & Hk). rewrite (Hkey k e Hk). exact Hk.
  - eauto.
Qed.

Lemma registry_ordered_names {T : Type} (key : T -> string) (registry : gmap string T) :
  (forall k x, registry !! k = Some x -> key x = k) ->
  ordered_names registry (map key (sorted_by_name key (registry_values registry))).
Proof.
  intros Hkey. split; [apply sorted_by_name_names|].
  split; [apply registry_names_NoDup, Hkey|].
  intros k. split.
  - intros Hk. apply list_elem_of_In, List.in_map_iff in Hk as (e & <- & He).
    apply list_elem_of_In, (registry_sorted_elem key registry e Hkey) in He. eauto.
  - intros [e He]. apply list_elem_of_In, List.in_map_iff. exists e.
    split; [apply (Hkey k e He)|].
    apply list_elem_of_In, (registry_sorted_elem key registry e Hkey).
    rewrite (Hkey k e He). exact He.
Qed.

(** X23. What [main] emits goes by name and leaves nothing out.  In
    [vk_enum_to_str.c] the functions are for the enums of the registry, one
    for each, in increasing order of their names, each with the sentinel
    and the guard of its enum and a case for each of its canonical names;
    the size cases are for the structs of the registry, one for each, in
    increasing order of their names, each with the [stype] of its struct
    and the define of its extension.  The prototypes of
    [vk_enum_to_str.h] follow the same list of enums.  In
    [vk_enum_defines.h] the extension numbers are those of the registry, by
    name, and the bitmasks given again are those of at least 64 bits, by
    name, each with the pairs of its [name_to_value].  Such a list of names
    is fixed by the keys of the registry. *)
Theorem emission_by_name int_base0 int_ et_parse recursion_limit xml_files f :
  for_each (parse_xml int_base0 int_ et_parse recursion_limit) no_factories xml_files = Ok f ->
  (forall (T : Type) (registry : gmap string T) l1 l2,
     ordered_names registry l1 -> ordered_names registry l2 -> l1 = l2) /\
  forall file_name a, (file_name, Ok a) ∈ templates f ->
    match a with
    | C_file c =>
        ordered_names (enum_factory f) (map fn_type (c_functions c)) /\
        (forall fn, fn ∈ c_functions c ->
           exists e, enum_factory f !! fn_type fn = Some e /\
             fn_max_enum fn = VkEnum.max_enum_name e /\
             fn_guard fn = guard_of (VkEnum.guard e) /\
             StronglySorted Z.lt (fn_cases fn).*1 /\
             forall v n, (v, n) ∈ fn_cases fn <-> VkEnum.values e !! v = Some n) /\
        ordered_names (struct_factory f) (map sc_name (c_struct_sizes c)) /\
        (forall sc, sc ∈ c_struct_sizes c ->
           exists st, struct_factory f !! sc_name sc = Some st /\
             sc_stype sc = VkChainStruct.stype st /\
             sc_guard sc = match VkChainStruct.extension st with
                           | Some x => VkExtension.define x
                           | None => None
                           end)
    | H_file prototypes =>
        ordered_names (enum_factory f) (map snd prototypes) /\
        (forall p, p ∈ prototypes ->
           exists e, enum_factory f !! p.2 = Some e /\
                     p.1.1 = guard_of (VkEnum.guard e))
    | Defines_file d =>
        ordered_names (ext_factory f) (map fst (d_ext_numbers d)) /\
        (forall p, p ∈ d_ext_numbers d ->
           exists x, ext_factory f !! p.1 = Some x /\ p.2 = VkExtension.number x) /\
        StronglySorted (fun x y => String.leb x y = true) (map rd_enum (d_redefinitions d)) /\
        NoDup (map rd_enum (d_redefinitions d)) /\
        (forall k, k ∈ map rd_enum (d_redefinitions d) <->
           exists e, bitmask_factory f !! k = Some e /\ 64 <= VkEnum.bitwidth e) /\
        (forall r, r ∈ d_redefinitions d ->
           exists e, bitmask_factory f !! rd_enum r = Some e /\
                     rd_values r = name_to_value_items e)
    end.
Proof.
  intros Hparse. split; [intros T; apply ordered_names_unique|].
  intros file_name a Ha. apply parse_all_well_formed in Hparse as Hf.
  assert (Henum : forall k e, enum_factory f !! k = Some e -> VkEnum.name e = k)
    by (intros k e H; apply (wf_enums f Hf k e H)).
  assert (Hbit : forall k e, bitmask_factory f !! k = Some e -> VkEnum.name e = k)
    by (intros k e H; apply (wf_bitmasks f Hf k e H)).
  pose proof (registry_ordered_names VkEnum.name (enum_factory f) Henum) as Henums.
  pose proof (registry_ordered_names VkChainStruct.name (struct_factory f) (wf_structs f Hf))
    as Hstructs.
  pose proof (registry_ordered_names VkExtension.name (ext_factory f) (wf_exts f Hf))
    as Hexts.
  unfold templates in Ha.
  apply elem_of_cons in Ha as [Ha|Ha]; [|apply elem_of_cons in Ha as [Ha|Ha];
    [|apply elem_of_cons in Ha as [Ha|Ha]; [|inversion Ha]]].
  - injection Ha as _ Ha. symmetry in Ha. unfold render_C_TEMPLATE in Ha.
    apply bind_Ok in Ha as (names & _ & Ha). injection Ha as <-. simpl.
    rewrite !List.map_map. simpl. split; [exact Henums|].
    split; [|split; [exact Hstructs|]].
    + intros fn Hfn. apply list_elem_of_In, List.in_map_iff in Hfn as (e & <- & He).
      apply list_elem_of_In, (registry_sorted_elem VkEnum.name _ e Henum) in He.
      exists e. split; [exact He|]. split; [reflexivity|]. split; [reflexivity|].
      split; [apply fn_cases_sorted|]. intros v n. apply fn_cases_canonical.
    + intros sc Hsc. apply list_elem_of_In, List.in_map_iff in Hsc as (st & <- & Hst).
      apply list_elem_of_In,
        (registry_sorted_elem VkChainStruct.name _ st (wf_structs f Hf)) in Hst.
      exists st. split; [exact Hst|]. split; reflexivity.
  - injection Ha as _ ->. rewrite List.map_map. simpl. split; [exact Henums|].
    intros p Hp. apply list_elem_of_In, List.in_map_iff in Hp as (e & <- & He).
    apply list_elem_of_In, (registry_sorted_elem VkEnum.name _ e Henum) in He.
    exists e. split; [exact He|reflexivity].
  - injection Ha as _ Ha. symmetry in Ha. unfold render_H_DEFINE_TEMPLATE in Ha.
    apply bind_Ok in Ha as (all_bits & _ & Ha). injection Ha as <-. simpl.
    rewrite List.map_map. simpl. split; [exact Hexts|]. split.
    { intros p Hp. apply list_elem_of_In, List.in_map_iff in Hp as (x & <- & Hx).
      apply list_elem_of_In,
        (registry_sorted_elem VkExtension.name _ x (wf_exts f Hf)) in Hx.
      exists x. split; [exact Hx|reflexivity]. }
    unfold render_redefinitions. rewrite List.map_map. simpl.
    pose proof (registry_ordered_names VkEnum.name (bitmask_factory f) Hbit)
      as (Hsorted & Hnodup & _).
    split; [|split; [|split]].
    + apply (StronglySorted_fmap VkEnum.name
               (fun x y => String.leb (VkEnum.name x) (VkEnum.name y) = true)); [auto|].
      apply StronglySorted_List_filter, sorted_by_name_StronglySorted.
    + clear Hsorted.
      induction (sorted_by_name VkEnum.name (registry_values (bitmask_factory f)))
        as [|e l IH]; simpl; [constructor|].
      simpl in Hnodup. apply NoDup_cons in Hnodup as [Hfresh Hnodup].
      destruct (negb (VkEnum.bitwidth e <? 64)); simpl; [|apply IH, Hnodup].
      apply NoDup_cons. split; [|apply IH, Hnodup].
      intros Hin. apply Hfresh.
      apply list_elem_of_In, List.in_map_iff in Hin as (e' & Hn & He').
      apply List.filter_In in He' as [He' _].
      apply list_elem_of_In, List.in_map_iff. eauto.
    + intros k. split.
      * intros Hk. apply list_elem_of_In, List.in_map_iff in Hk as (e & <- & He).
        apply List.filter_In in He as [He Hw].
        apply list_elem_of_In, (registry_sorted_elem VkEnum.name _ e Hbit) in He.
        exists e. split; [exact He|].
        apply negb_true_iff, Z.ltb_ge in Hw. exact Hw.
      * intros (e & He & Hw). apply list_elem_of_In, List.in_map_iff. exists e.
        split; [apply (Hbit k e He)|]. apply List.filter_In. split.
        -- apply list_elem_of_In, (registry_sorted_elem VkEnum.name _ e Hbit).
           rewrite (Hbit k e He). exact He.
        -- apply negb_true_iff, Z.ltb_ge. exact Hw.
    + intros r Hr. apply list_elem_of_In, List.in_map_iff in Hr as (e & <- & He).
      apply List.filter_In in He as [He _].
      apply list_elem_of_In, (registry_sorted_elem VkEnum.name _ e Hbit) in He.
      exists e. split; [exact He|reflexivity].
Qed.

Lemma emission_by_name_witness :
  exists f c,
    for_each (parse_xml decimal_int decimal_int platform_parse 1000) no_factories
      ["platform.xml"] = Ok f /\
    ("vk_enum_to_str.c", Ok (C_file c)) ∈ templates f /\
    map fn_type (c_functions c) = ["VkObjectType"; "VkXlibFlagBits"] /\
    ordered_names (enum_factory f) (map fn_type (c_functions c)) /\
    ordered_names (struct_factory f) (map sc_name (c_struct_sizes c)).
Proof.
  eexists. eexists. split; [vm_compute; reflexivity|].
  split; [left|]. split; [vm_compute; reflexivity|].
  destruct (proj2 (emission_by_name decimal_int decimal_int platform_parse 1000
                     ["platform.xml"] _ ltac:(vm_compute; reflexivity))
              "vk_enum_to_str.c" (C_file _) ltac:(left)) as (H1 & _ & H3 & _).
  split; [exact H1|exact H3].
Defined.

(** ** The order of [name_to_value] *)

(** The elements of a list in the order in which they first occur. *)
Definition firsts (l : list string) : list string :=
  foldl (fun acc x => if decide (x ∈ acc) then acc else acc ++ [x]) [] l.

Lemma firsts_snoc l x :
  firsts (l ++ [x]) = if decide (x ∈ firsts l) then firsts l else firsts l ++ [x].
Proof. unfold firsts. rewrite foldl_app. reflexivity. Qed.

Lemma firsts_elem l x : x ∈ firsts l <-> x ∈ l.
Proof.
  induction l as [|y l IH] using rev_ind; [reflexivity|].
  rewrite firsts_snoc, elem_of_app, list_elem_of_singleton.
  destruct (decide (y ∈ firsts l)) as [Hy|Hy].
  - rewrite IH. split; [auto|]. intros [H| ->]; [exact H|]. apply IH, Hy.
  - rewrite elem_of_app, list_elem_of_singleton, IH. reflexivity.
Qed.

Lemma firsts_NoDup l : NoDup (firsts l).
Proof.
  induction l as [|y l IH] using rev_ind; [constructor|].
  rewrite firsts_snoc. destruct (decide (y ∈ firsts l)) as [Hy|Hy]; [exact IH|].
  apply NoDup_app. split; [exact IH|]. split; [|apply NoDup_singleton].
  intros x Hx Hx'. apply list_elem_of_singleton in Hx' as ->. tauto.
Qed.

Lemma record_value_name_order self n v :
  VkEnum.name_order (VkEnum.record_value self n v) =
  match n2v self !! n with
  | Some _ => VkEnum.name_order self
  | None => VkEnum.name_order self ++ [n]
  end.
Proof.
  unfold VkEnum.record_value; simpl.
  destruct (VkEnum.values self !! v) as [old|]; [|reflexivity].
  destruct (_ <? _)%nat; reflexivity.
Qed.

Lemma last_value_is_Some regs n : is_Some (last_value regs n) <-> n ∈ map fst regs.
Proof.
  split.
  - intros [v Hv]. apply last_value_elem in Hv.
    apply list_elem_of_In, List.in_map_iff. exists (n, v).
    split; [reflexivity|apply list_elem_of_In, Hv].
  - intros Hn. apply list_elem_of_In, List.in_map_iff in Hn as ([n' v] & <- & Hn).
    apply (elem_last_value regs n' v), list_elem_of_In, Hn.
Qed.

(** The keys of [name_to_value] are in the order in which the names were
    first registered. *)
Definition holds_order (regs : list (string * Z)) (self : VkEnum.t) : Prop :=
  holds_pairs regs self /\ VkEnum.name_order self = firsts (map fst regs).

Lemma record_value_holds_order regs self n v :
  holds_order regs self -> holds_order (regs ++ [(n, v)]) (VkEnum.record_value self n v).
Proof.
  intros [Hp Ho]. split; [apply record_value_holds_pairs, Hp|].
  rewrite record_value_name_order, List.map_app. cbn [List.map fst].
  rewrite firsts_snoc, Ho, (proj2 Hp n).
  destruct (decide (n ∈ firsts (map fst regs))) as [Hn|Hn].
  - apply firsts_elem, last_value_is_Some in Hn as [w ->]. reflexivity.
  - destruct (last_value regs n) as [w|] eqn:Hw; [|reflexivity].
    exfalso. apply Hn, firsts_elem, last_value_is_Some. eauto.
Qed.

Lemma registers_holds_order v tr : forall regs self,
  holds_order regs self ->
  holds_order (regs ++ map (fun n => (n, v)) tr) (registers v tr self).
Proof.
  induction tr as [|a tr IH]; intros regs self H; simpl.
  - rewrite app_nil_r. exact H.
  - change ((a, v) :: map (fun n => (n, v)) tr)
      with ([(a, v)] ++ map (fun n => (n, v)) tr).
    rewrite app_assoc. apply IH, record_value_holds_order, H.
Qed.

Lemma run_registers_holds_order self ops regs' self' :
  run_registers self ops regs' self' ->
  forall regs, holds_order regs self -> holds_order (regs ++ regs') self'.
Proof.
  induction 1 as [self|self o regs1 self1 ops regs2 self2 Hop _ IH]; intros regs H.
  - rewrite app_nil_r. exact H.
  - rewrite app_assoc. apply IH.
    destruct Hop as [self c b _ _|self c v tr self' _ Hres|self g|self x];
      try (rewrite app_nil_r; exact H).
    pose proof (proj1 (resolves_effect v) _ _ _ _ Hres) as ->.
    exact (registers_holds_order v tr regs self H).
Qed.

Lemma holds_order_items regs self :
  holds_order regs self ->
  map fst (name_to_value_items self) = firsts (map fst regs) /\
  forall n v, (n, v) ∈ name_to_value_items self <-> n2v self !! n = Some v.
Proof.
  intros [[_ Hn] Ho]. unfold name_to_value_items. rewrite Ho.
  assert (Hall : forall n, n ∈ firsts (map fst regs) -> is_Some (n2v self !! n)).
  { intros n Hin. rewrite Hn. apply last_value_is_Some, firsts_elem, Hin. }
  split.
  - revert Hall. generalize (firsts (map fst regs)). intros l.
    induction l as [|n l IH]; intros Hall; simpl; [reflexivity|].
    destruct (Hall n) as [v Hv]; [left|]. rewrite Hv. simpl. f_equal.
    apply IH. intros m Hm. apply Hall. right. exact Hm.
  - intros n v. rewrite list_elem_of_omap. split.
    + intros (m & _ & Hm). destruct (n2v self !! m) as [w|] eqn:Hw; [|discriminate].
      simpl in Hm. injection Hm as -> ->. exact Hw.
    + intros Hv. exists n. rewrite Hv. split; [|reflexivity].
      apply firsts_elem, last_value_is_Some. rewrite <- Hn, Hv. eauto.
Qed.

(** X24. The pairs of [name_to_value], as [items()] lists them and as the
    third artifact gives them again for a 64-bit bitmask, are the names
    that resolve to a value, each once with the value it has at the end,
    in the order in which the names were first registered: a name that is
    registered again keeps its place. *)
Theorem redefinitions_in_registration_order fuel name bitwidth ops self' :
  for_each (do_op fuel) (VkEnum.init name bitwidth None) ops = Ok self' ->
  exists regs,
    run_registers (VkEnum.init name bitwidth None) ops regs self' /\
    map fst (name_to_value_items self') = firsts (map fst regs) /\
    NoDup (map fst (name_to_value_items self')) /\
    forall n v, (n, v) ∈ name_to_value_items self' <-> n2v self' !! n = Some v.
Proof.
  intros H. apply run_do_op_registers in H as (regs & H). exists regs.
  split; [exact H|].
  assert (Ho : holds_order regs self').
  { apply (run_registers_holds_order _ _ _ _ H []).
    split; [apply init_holds_pairs|reflexivity]. }
  destruct (holds_order_items regs self' Ho) as [Hfst Hiff].
  split; [exact Hfst|]. split; [rewrite Hfst; apply firsts_NoDup|exact Hiff].
Qed.

Lemma redefinitions_in_registration_order_witness :
  exists self',
    for_each (do_op 2) (VkEnum.init "VkWideFlagBits2" 64 None)
      [alias_of "VK_C" "VK_B"; literal "VK_A" 1; literal "VK_B" 2; literal "VK_A" 4] =
      Ok self' /\
    name_to_value_items self' = [("VK_A", 4); ("VK_B", 2); ("VK_C", 2)] /\
    exists regs,
      run_registers (VkEnum.init "VkWideFlagBits2" 64 None)
        [alias_of "VK_C" "VK_B"; literal "VK_A" 1; literal "VK_B" 2; literal "VK_A" 4]
        regs self' /\
      map fst (name_to_value_items self') = firsts (map fst regs) /\
      NoDup (map fst (name_to_value_items self')) /\
      forall n v, (n, v) ∈ name_to_value_items self' <-> n2v self' !! n = Some v.
Proof.
  eexists. split; [vm_compute; reflexivity|]. split; [vm_compute; reflexivity|].
  apply (redefinitions_in_registration_order 2 "VkWideFlagBits2" 64).
  vm_compute. reflexivity.
Defined.
